(** * PostgreSQL resilience layer: pool guard, admission queue, retry executor

    A shallow embedding of the database module of the backend
    (configuration resolution, lazy pool construction, pool statistics,
    [queryWithRetry] with its connection queue) and the properties of
    it that the specification states.

    Conventions of the embedding.
    - JavaScript strings are [string]s of 8-bit characters; numbers that
      the module uses as counters, indices and milliseconds are [Z];
      a number read with [parseInt] is a [JsNum], which may be NaN.
    - An [async] function is a resumable machine: a task carries a
      program point ([PC]) naming the [await] it is suspended at, and a
      segment function runs it from one [await] to the next.  The event
      loop is single threaded, so a segment is atomic.
    - What the module cannot see (the pool's live counters, the clock,
      the outcome of a query, DNS answers, the URL parser) is an input
      of the segment that reads it.
    - [retries] and [timeout] are integers, as every caller passes
      them; the driver's [Pool] constructor and [pool.query] are total
      (they return a pool, a promise). *)

From Stdlib Require Import ZArith Lia Ascii String.
From stdpp Require Import base option list gmap strings.

Local Open Scope string_scope.
Local Open Scope Z_scope.

(** ** JavaScript string primitives used by the module *)

(** [s.startsWith(p)] *)
Definition startsWith (s p : string) : bool := String.prefix p s.

(** [s.includes(sub)] *)
Fixpoint includes (s sub : string) : bool :=
  String.prefix sub s ||
  match s with
  | EmptyString => false
  | String _ s' => includes s' sub
  end.

(** [s.substring(n)] for [n] within the string *)
Fixpoint drop_chars (n : nat) (s : string) : string :=
  match n, s with
  | O, _ => s
  | S n', String _ s' => drop_chars n' s'
  | S _, EmptyString => EmptyString
  end.

Definition is_digit (a : ascii) : bool :=
  let n := nat_of_ascii a in (48 <=? n)%nat && (n <=? 57)%nat.

(** White space removed by [trim()] and skipped by [parseInt], on 8-bit
    characters: TAB, LF, VT, FF, CR, space and the no-break space
    (U+00A0). *)
Definition is_space (a : ascii) : bool :=
  let n := nat_of_ascii a in
  ((9 <=? n)%nat && (n <=? 13)%nat) || (n =? 32)%nat || (n =? 160)%nat.

Fixpoint trim_start (s : string) : string :=
  match s with
  | String a s' => if is_space a then trim_start s' else s
  | EmptyString => EmptyString
  end.

(** Removes the trailing characters that satisfy [p]. *)
Fixpoint drop_end_while (p : ascii -> bool) (s : string) : string :=
  match s with
  | EmptyString => EmptyString
  | String a s' =>
      match drop_end_while p s' with
      | EmptyString => if p a then EmptyString else String a EmptyString
      | r => String a r
      end
  end.

(** [s.trim()] *)
Definition trim (s : string) : string := drop_end_while is_space (trim_start s).

Definition is_quote (a : ascii) : bool :=
  let n := nat_of_ascii a in (n =? 34)%nat || (n =? 39)%nat.

(** Removes the last character when it satisfies [p]. *)
Fixpoint drop_last_if (p : ascii -> bool) (s : string) : string :=
  match s with
  | EmptyString => EmptyString
  | String a EmptyString => if p a then EmptyString else s
  | String a s' => String a (drop_last_if p s')
  end.

(** [s.replace(/^["']|["']$/g, '')]: one quote character is removed at
    the start and one at the end, when present. *)
Definition strip_quotes (s : string) : string :=
  drop_last_if is_quote
    match s with
    | String a s' => if is_quote a then s' else s
    | EmptyString => EmptyString
    end.

(** [s.replace(pat, rep)] for a literal pattern: the first occurrence. *)
Fixpoint replace_first (s pat rep : string) : string :=
  if String.prefix pat s then rep ++ drop_chars (String.length pat) s
  else match s with
       | EmptyString => EmptyString
       | String a s' => String a (replace_first s' pat rep)
       end.

(** Splits at every occurrence of the character [sep]. *)
Fixpoint split_on (sep : ascii) (s : string) : list string :=
  match s with
  | EmptyString => [EmptyString]
  | String a s' =>
      if Ascii.eqb a sep then EmptyString :: split_on sep s'
      else match split_on sep s' with
           | seg :: segs => String a seg :: segs
           | [] => [String a EmptyString]
           end
  end.

Fixpoint all_chars (p : ascii -> bool) (s : string) : bool :=
  match s with
  | EmptyString => true
  | String a s' => p a && all_chars p s'
  end.

(** [\d+] against a whole segment *)
Definition digits1 (s : string) : bool :=
  match s with
  | EmptyString => false
  | _ => all_chars is_digit s
  end.

(** [/^\d+\.\d+\.\d+\.\d+$/.test(host)]: a digit run never contains a
    dot, so the pattern matches exactly the strings made of four
    non-empty digit runs separated by three dots. *)
Definition is_ipv4_literal (host : string) : bool :=
  match split_on "." host with
  | [a; b; c; d] => digits1 a && digits1 b && digits1 c && digits1 d
  | _ => false
  end.

(** A JavaScript number that may be NaN. *)
Inductive JsNum :=
| Num (z : Z)
| NaN.

(** [a >= b], [a > b] with a possibly-NaN right operand: false on NaN. *)
Definition geb_num (a : Z) (b : JsNum) : bool :=
  match b with
  | Num z => z <=? a
  | NaN => false
  end.

Definition num_of (o : option Z) : JsNum :=
  match o with
  | Some z => Num z
  | None => NaN
  end.

Definition digit_val (a : ascii) : Z := Z.of_nat (nat_of_ascii a) - 48.

Fixpoint read_digits (s : string) (acc : option Z) : option Z :=
  match s with
  | String a s' =>
      if is_digit a
      then read_digits s' (Some (10 * default 0 acc + digit_val a))
      else acc
  | EmptyString => acc
  end.

(** [parseInt(s, 10)]: leading white space, an optional sign, then the
    longest run of decimal digits; NaN ([None]) when there is no digit. *)
Definition parseInt (s : string) : JsNum :=
  match trim_start s with
  | String "-" s' => num_of (Z.opp <$> read_digits s' None)
  | String "+" s' => num_of (read_digits s' None)
  | s' => num_of (read_digits s' None)
  end.

(** Truthiness of an optional string: [undefined] and [''] are falsy. *)
Definition truthy (o : option string) : bool :=
  match o with
  | Some (String _ _) => true
  | _ => false
  end.

(** [o || d] on an optional string *)
Definition or_else (o : option string) (d : string) : string :=
  match o with
  | Some (String a s) => String a s
  | _ => d
  end.

(** ** Errors *)

(** A thrown value, as far as the module inspects it: [error.code] and
    [error.message], either of which may be absent. *)
Record JsError := mkError {
  code : option string;
  message : option string;
}.

Definition error_of_message (m : string) : JsError :=
  {| code := None; message := Some m |}.

(** ** Configuration resolution (module initialisation) *)

Record ProcessEnv := mkEnv {
  POSTGRES_URL : option string;
  POSTGRES_HOST : option string;
  POSTGRES_PORT : option string;
  POSTGRES_DB : option string;
  POSTGRES_USER : option string;
  POSTGRES_PASSWORD : option string;
  POSTGRES_SSL : option string;
  POSTGRES_POOL_SIZE : option string;
  POSTGRES_MIN_POOL_SIZE : option string;
}.

Definition mentions_supabase (s : string) : bool :=
  includes s "supabase.co" || includes s "supabase.com".

(** [a && f(a)] on an environment variable *)
Definition env_test (o : option string) (f : string -> bool) : bool :=
  truthy o && f (default "" o).

Definition isSupabase_of (env : ProcessEnv) : bool :=
  env_test (POSTGRES_URL env) mentions_supabase ||
  env_test (POSTGRES_HOST env) mentions_supabase.

(** The module constants that the rest of the module reads. *)
Record Consts := mkConsts {
  isSupabase : bool;
  POOL_SIZE : JsNum;
  MIN_POOL_SIZE : JsNum;
}.

Definition consts_of (env : ProcessEnv) : Consts :=
  if isSupabase_of env then
    {| isSupabase := true;
       POOL_SIZE := parseInt (or_else (POSTGRES_POOL_SIZE env) "2");
       MIN_POOL_SIZE := parseInt (or_else (POSTGRES_MIN_POOL_SIZE env) "0") |}
  else
    {| isSupabase := false;
       POOL_SIZE := parseInt (or_else (POSTGRES_POOL_SIZE env) "20");
       MIN_POOL_SIZE := parseInt (or_else (POSTGRES_MIN_POOL_SIZE env) "2") |}.

(** [ssl: false] or [ssl: { rejectUnauthorized: false }] *)
Inductive SslMode :=
| SslOff
| SslNoVerify.

(** The options object handed to the driver's [Pool]; a field that the
    object literal does not mention is [None]. *)
Record PoolConfig := mkConfig {
  cfg_host : option string;
  cfg_port : option JsNum;
  cfg_database : option string;
  cfg_user : option string;
  cfg_password : option string;
  cfg_connectionString : option string;
  cfg_ssl : SslMode;
  cfg_max : JsNum;
  cfg_min : JsNum;
  cfg_idleTimeoutMillis : Z;
  cfg_connectionTimeoutMillis : Z;
  cfg_query_timeout : Z;
  cfg_statement_timeout : Z;
  cfg_allowExitOnIdle : bool;
  cfg_family : option Z;
}.

(** [postgresConfig.host = h] *)
Definition set_host (h : string) (c : PoolConfig) : PoolConfig :=
  {| cfg_host := Some h;
     cfg_port := cfg_port c;
     cfg_database := cfg_database c;
     cfg_user := cfg_user c;
     cfg_password := cfg_password c;
     cfg_connectionString := cfg_connectionString c;
     cfg_ssl := cfg_ssl c;
     cfg_max := cfg_max c;
     cfg_min := cfg_min c;
     cfg_idleTimeoutMillis := cfg_idleTimeoutMillis c;
     cfg_connectionTimeoutMillis := cfg_connectionTimeoutMillis c;
     cfg_query_timeout := cfg_query_timeout c;
     cfg_statement_timeout := cfg_statement_timeout c;
     cfg_allowExitOnIdle := cfg_allowExitOnIdle c;
     cfg_family := cfg_family c |}.

(** The fields of a [URL] object that the module reads. *)
Record URL := mkURL {
  protocol : string;
  username : string;
  password : string;
  hostname : string;
  port : string;
  pathname : string;
}.

(** The array that both parsers produce: user, password, host name,
    port and database (the first two groups of the regular expression
    are optional, hence possibly [undefined]). *)
Record UrlMatch := mkMatch {
  m_user : option string;
  m_password : option string;
  m_hostname : string;
  m_port : string;
  m_database : string;
}.

(** What the JavaScript runtime supplies to configuration resolution:
    [new URL(s)] and [decodeURIComponent(s)], which throw ([None]) on
    input they reject. *)
Record Runtime := mkRuntime {
  new_URL : string -> option URL;
  decodeURIComponent : string -> option string;
}.

(** *** The fallback pattern

    [/postgresql?:\/\/(?:([^:]+):([^@]+)@)?([^:]+):(\d+)\/([^?]+)/],
    matched as the regular expression engine does: leftmost start, each
    quantifier greedy, backtracking into the most recent choice first. *)

(** The rest of [s] after the literal [p], when [s] starts with it *)
Definition lit (p s : string) : option string :=
  if String.prefix p s then Some (drop_chars (String.length p) s) else None.

(** A greedy [c+] and what follows it in the pattern, [k], which
    receives the characters matched and the rest of the input: the
    longest run is tried first, then the shorter ones down to one
    character. *)
Fixpoint plus_then {A : Type} (c : ascii -> bool)
  (k : string -> string -> option A) (s : string) {struct s} : option A :=
  match s with
  | String a s' =>
      if c a then
        match plus_then c (fun cap rest => k (String a cap) rest) s' with
        | Some r => Some r
        | None => k (String a EmptyString) s'
        end
      else None
  | EmptyString => None
  end.

(** The first alternative, or the second when the first fails *)
Definition orelse {A : Type} (a b : option A) : option A :=
  match a with
  | Some x => Some x
  | None => b
  end.

(** [[^x]] *)
Definition is_not (x : ascii) (a : ascii) : bool := negb (Ascii.eqb a x).

(** [([^:]+):(\d+)\/([^?]+)] with the first two groups already decided *)
Definition match_target (user pass : option string) (s : string) : option UrlMatch :=
  plus_then (is_not ":")
    (fun host r1 =>
       r2 ← lit ":" r1;
       plus_then is_digit
         (fun digits r3 =>
            r4 ← lit "/" r3;
            plus_then (is_not "?")
              (fun db _ =>
                 Some {| m_user := user;
                         m_password := pass;
                         m_hostname := host;
                         m_port := digits;
                         m_database := db |})
              r4)
         r2)
    s.

(** [(?:([^:]+):([^@]+)@)?] and the rest of the pattern: the group is
    tried first, and skipped when no match goes through it. *)
Definition match_authority (s : string) : option UrlMatch :=
  orelse
    (plus_then (is_not ":")
       (fun user r1 =>
          r2 ← lit ":" r1;
          plus_then (is_not "@")
            (fun pass r3 =>
               r4 ← lit "@" r3;
               match_target (Some user) (Some pass) r4)
            r2)
       s)
    (match_target None None s).

(** The whole pattern at the start of [s] *)
Definition match_here (s : string) : option UrlMatch :=
  s1 ← lit "postgresq" s;
  orelse (s2 ← lit "l" s1; s3 ← lit "://" s2; match_authority s3)
         (s3 ← lit "://" s1; match_authority s3).

(** [s.match(pattern)]: the match at the leftmost position that has
    one, [null] ([None]) when there is none. *)
Fixpoint match_connection (s : string) : option UrlMatch :=
  orelse (match_here s)
    match s with
    | String _ s' => match_connection s'
    | EmptyString => None
    end.

(** The value of [connectionString] before parsing. *)
Definition clean_connection_string (raw : string) : string :=
  let cs := strip_quotes (trim raw) in
  if startsWith cs "POSTGRES_URL="
  then trim (drop_chars (String.length "POSTGRES_URL=") cs)
  else cs.

(** The body of the [try] block: [None] when it throws, otherwise the
    value it leaves in [urlMatch] ([null] when the protocol is not a
    PostgreSQL one or a credential is missing). *)
Definition structured_parse (rt : Runtime) (cs : string)
  : option (option UrlMatch) :=
  url ← new_URL rt cs;
  if String.eqb (protocol url) "postgresql:" || String.eqb (protocol url) "postgres:"
  then
    if truthy (Some (username url)) && truthy (Some (password url))
    then
      user ← decodeURIComponent rt (username url);
      pass ← decodeURIComponent rt (password url);
      Some (Some {| m_user := Some user;
                    m_password := Some pass;
                    m_hostname := hostname url;
                    m_port := or_else (Some (port url)) "5432";
                    m_database := drop_chars 1 (pathname url) |})
    else Some None
  else Some None.

(** [urlMatch] after the [try]/[catch]: the pattern is consulted in the
    [catch] clause only. *)
Definition resolve_urlMatch (rt : Runtime) (cs : string) : option UrlMatch :=
  match structured_parse rt cs with
  | Some m => m
  | None => match_connection cs
  end.

(** The configuration built from a decomposed URI of a Supabase target *)
Definition config_of_match (k : Consts) (m : UrlMatch) : PoolConfig :=
  {| cfg_host := Some (m_hostname m);
     cfg_port := Some (parseInt "5432");
     cfg_database := Some (or_else (Some (m_database m)) "postgres");
     cfg_user := Some (or_else (m_user m) "postgres");
     cfg_password := Some (or_else (m_password m) "");
     cfg_connectionString := None;
     cfg_ssl := SslNoVerify;
     cfg_max := POOL_SIZE k;
     cfg_min := MIN_POOL_SIZE k;
     cfg_idleTimeoutMillis := 10000;
     cfg_connectionTimeoutMillis := 20000;
     cfg_query_timeout := 20000;
     cfg_statement_timeout := 20000;
     cfg_allowExitOnIdle := true;
     cfg_family := None |}.

(** The configuration that keeps the URI as a connection string *)
Definition config_of_string (k : Consts) (env : ProcessEnv) (cs : string)
  : PoolConfig :=
  {| cfg_host := None;
     cfg_port := None;
     cfg_database := None;
     cfg_user := None;
     cfg_password := None;
     cfg_connectionString := Some (replace_first cs ":6543/" ":5432/");
     cfg_ssl := if bool_decide (POSTGRES_SSL env = Some "false")
                then SslOff else SslNoVerify;
     cfg_max := POOL_SIZE k;
     cfg_min := MIN_POOL_SIZE k;
     cfg_idleTimeoutMillis := if isSupabase k then 10000 else 30000;
     cfg_connectionTimeoutMillis := 20000;
     cfg_query_timeout := 20000;
     cfg_statement_timeout := 20000;
     cfg_allowExitOnIdle := isSupabase k;
     cfg_family := None |}.

(** The configuration built from the discrete variables *)
Definition config_of_params (k : Consts) (env : ProcessEnv) : PoolConfig :=
  let isCloud :=
    env_test (POSTGRES_HOST env) (fun h => negb (includes h "localhost")) in
  let isSupabaseHost := env_test (POSTGRES_HOST env) mentions_supabase in
  {| cfg_host := Some (or_else (POSTGRES_HOST env) "localhost");
     cfg_port := Some (parseInt (or_else (POSTGRES_PORT env) "5432"));
     cfg_database := POSTGRES_DB env;
     cfg_user := POSTGRES_USER env;
     cfg_password := POSTGRES_PASSWORD env;
     cfg_connectionString := None;
     cfg_ssl := if isCloud || bool_decide (POSTGRES_SSL env = Some "true")
                then SslNoVerify else SslOff;
     cfg_max := if isSupabaseHost
                then parseInt (or_else (POSTGRES_POOL_SIZE env) "2")
                else POOL_SIZE k;
     cfg_min := if isSupabaseHost
                then parseInt (or_else (POSTGRES_MIN_POOL_SIZE env) "0")
                else MIN_POOL_SIZE k;
     cfg_idleTimeoutMillis := if isSupabaseHost then 30000 else 60000;
     cfg_connectionTimeoutMillis := if isSupabaseHost then 30000 else 60000;
     cfg_query_timeout := if isSupabaseHost then 30000 else 45000;
     cfg_statement_timeout := if isSupabaseHost then 30000 else 45000;
     cfg_allowExitOnIdle := isSupabaseHost;
     cfg_family := Some 4 |}.

(** The outcome of configuration resolution.  The module has no
    statement that rejects a connection URI; [ConfigError] is the
    outcome the specification names, kept so that it can be compared
    with what the module computes. *)
Inductive Resolution :=
| Resolved (c : PoolConfig)
| ConfigError.

(** The value of [postgresConfig] once the module has loaded. *)
Definition postgresConfig_of (rt : Runtime) (env : ProcessEnv) : Resolution :=
  let k := consts_of env in
  if truthy (POSTGRES_URL env) then
    let cs := clean_connection_string (default "" (POSTGRES_URL env)) in
    match resolve_urlMatch rt cs with
    | Some m =>
        if isSupabase k then Resolved (config_of_match k m)
        else Resolved (config_of_string k env cs)
    | None => Resolved (config_of_string k env cs)
    end
  else Resolved (config_of_params k env).

(** ** The pool and the module's mutable state *)

(** A driver pool, as far as the module is concerned: the options it was
    constructed from and how many times [setupPoolHandlers] has
    registered the four listeners on it. *)
Record Pool := mkPool {
  options : PoolConfig;
  handlers : nat;
}.

(** [new Pool(config)] *)
Definition new_Pool (c : PoolConfig) : Pool :=
  {| options := c; handlers := 0 |}.

(** [setupPoolHandlers(pool)] *)
Definition setupPoolHandlers (p : Pool) : Pool :=
  {| options := options p; handlers := S (handlers p) |}.

Record PoolStats := mkStats {
  totalConnections : Z;
  idleConnections : Z;
  activeConnections : Z;
  waitingClients : Z;
  errors : Z;
  lastError : option JsError;
  lastHealthCheck : option Z;
  isHealthy : bool;
}.

(** The initial value of [poolStats] *)
Definition poolStats_init : PoolStats :=
  {| totalConnections := 0;
     idleConnections := 0;
     activeConnections := 0;
     waitingClients := 0;
     errors := 0;
     lastError := None;
     lastHealthCheck := None;
     isHealthy := true |}.

(** What a segment reads from outside the module: the live counters of
    the driver pool and the clock. *)
Record Live := mkLive {
  totalCount : Z;
  idleCount : Z;
  waitingCount : Z;
  now : Z;
}.

(** A task is named by a number; the [resolve] callback that a queued
    caller pushes on [connectionQueue] is represented by the name of the
    task it resumes. *)
Definition TaskId := nat.

(** The module-level [let] bindings *)
Record Globals := mkGlobals {
  postgresConfig : PoolConfig;
  postgresPool : option Pool;
  poolStats : PoolStats;
  connectionQueue : list TaskId;
  activeQueries : Z;
}.

Definition with_config (c : PoolConfig) (g : Globals) : Globals :=
  {| postgresConfig := c;
     postgresPool := postgresPool g;
     poolStats := poolStats g;
     connectionQueue := connectionQueue g;
     activeQueries := activeQueries g |}.

Definition with_pool (p : option Pool) (g : Globals) : Globals :=
  {| postgresConfig := postgresConfig g;
     postgresPool := p;
     poolStats := poolStats g;
     connectionQueue := connectionQueue g;
     activeQueries := activeQueries g |}.

Definition with_stats (s : PoolStats) (g : Globals) : Globals :=
  {| postgresConfig := postgresConfig g;
     postgresPool := postgresPool g;
     poolStats := s;
     connectionQueue := connectionQueue g;
     activeQueries := activeQueries g |}.

Definition with_queue (q : list TaskId) (g : Globals) : Globals :=
  {| postgresConfig := postgresConfig g;
     postgresPool := postgresPool g;
     poolStats := poolStats g;
     connectionQueue := q;
     activeQueries := activeQueries g |}.

Definition with_active (n : Z) (g : Globals) : Globals :=
  {| postgresConfig := postgresConfig g;
     postgresPool := postgresPool g;
     poolStats := poolStats g;
     connectionQueue := connectionQueue g;
     activeQueries := n |}.

(** Synchronous code that reads and writes the globals and may throw:
    the state reached is kept when it throws. *)
Definition Sync (A : Type) : Type := Globals -> (JsError + A) * Globals.

Definition ret {A} (a : A) : Sync A := fun g => (inr a, g).
Definition throw {A} (e : JsError) : Sync A := fun g => (inl e, g).
Definition bind {A B} (m : Sync A) (f : A -> Sync B) : Sync B :=
  fun g =>
    match m g with
    | (inr a, g') => f a g'
    | (inl e, g') => (inl e, g')
    end.
Definition get : Sync Globals := fun g => (inr g, g).
Definition modify (f : Globals -> Globals) : Sync unit := fun g => (inr tt, f g).

Notation "x <~ m ;; k" := (bind m (fun x => k))
  (at level 100, m at next level, right associativity).
Notation "m ;;; k" := (bind m (fun _ => k))
  (at level 100, right associativity).

(** [postgresConfig.host && !/^\d+\.\d+\.\d+\.\d+$/.test(postgresConfig.host)] *)
Definition host_is_symbolic (c : PoolConfig) : bool :=
  truthy (cfg_host c) && negb (is_ipv4_literal (default "" (cfg_host c))).

(** The condition under which pool construction is withheld. *)
Definition deferred (k : Consts) (c : PoolConfig) : bool :=
  isSupabase k && host_is_symbolic c.

Definition not_initialized_error : JsError :=
  error_of_message
    "PostgreSQL pool not initialized. Call initializePostgresPool() first for Supabase.".

(** [getPostgresPool()] *)
Definition getPostgresPool (k : Consts) : Sync Pool :=
  g <~ get;;
  match postgresPool g with
  | Some p => ret p
  | None =>
      if deferred k (postgresConfig g) then throw not_initialized_error
      else
        let p := setupPoolHandlers (new_Pool (postgresConfig g)) in
        modify (with_pool (Some p));;;
        ret p
  end.

(** The object that [updatePoolStats] assigns to [poolStats] *)
Definition refreshed (k : Consts) (l : Live) (old : PoolStats) : PoolStats :=
  {| totalConnections := totalCount l;
     idleConnections := idleCount l;
     activeConnections := totalCount l - idleCount l;
     waitingClients := waitingCount l;
     errors := errors old;
     lastError := lastError old;
     lastHealthCheck := Some (now l);
     isHealthy := (0 <? totalCount l) && geb_num (idleCount l) (MIN_POOL_SIZE k) |}.

(** [updatePoolStats()] *)
Definition updatePoolStats (k : Consts) (l : Live) : Sync unit :=
  _ <~ getPostgresPool k;;
  modify (fun g => with_stats (refreshed k l (poolStats g)) g).

(** The pool can be handed out: it exists, or nothing defers building it. *)
Definition pool_available (k : Consts) (g : Globals) : Prop :=
  postgresPool g = None -> deferred k (postgresConfig g) = false.

(** [getPoolStats()]: the snapshot is a copy of [poolStats]. *)
Definition getPoolStats (k : Consts) (l : Live) : Sync PoolStats :=
  updatePoolStats k l;;;
  g <~ get;;
  ret (poolStats g).

(** The state of the module once it has loaded: the pool is built at
    once unless construction is deferred. *)
Definition module_init (k : Consts) (c : PoolConfig) : Globals :=
  {| postgresConfig := c;
     postgresPool :=
       if negb (isSupabase k) || negb (truthy (cfg_host c))
          || is_ipv4_literal (default "" (cfg_host c))
       then Some (setupPoolHandlers (new_Pool c))
       else None;
     poolStats := poolStats_init;
     connectionQueue := [];
     activeQueries := 0 |}.

(** ** Address resolution *)

Record LookupAddress := mkAddress {
  address : string;
  family : Z;
}.

(** The answers of [dns.lookup] for the three ways it is called: with no
    option, with [family: 4], and with [all: true].  [inl] is a
    rejection. *)
Record Dns := mkDns {
  lookup : string -> JsError + LookupAddress;
  lookup4 : string -> JsError + LookupAddress;
  lookup_all : string -> JsError + list LookupAddress;
}.

(** [initializePostgresPool()].  The awaited lookups touch no global, so
    the function is given as one state transformer. *)
Definition initializePostgresPool (k : Consts) (dns : Dns) : Sync Pool :=
  g <~ get;;
  (if deferred k (postgresConfig g) then
     let originalHost := default "" (cfg_host (postgresConfig g)) in
     match lookup dns originalHost with
     | inr result =>
         if family result =? 4
         then modify (fun g => with_config (set_host (address result) (postgresConfig g)) g)
         else
           match lookup4 dns originalHost with
           | inr ipv4Result =>
               modify (fun g => with_config (set_host (address ipv4Result) (postgresConfig g)) g)
           | inl _ => ret tt
           end
     | inl _ => ret tt
     end
   else ret tt);;;
  g <~ get;;
  let p := setupPoolHandlers (new_Pool (postgresConfig g)) in
  modify (with_pool (Some p));;;
  ret p.

(** [resolveHostnameToIPv4(hostname)]: the address, or [null]. *)
Definition resolveHostnameToIPv4 (dns : Dns) (hostname : string) : option string :=
  match lookup4 dns hostname with
  | inr result => Some (address result)
  | inl _ =>
      match lookup_all dns hostname with
      | inr addresses =>
          match List.find (fun addr => family addr =? 4) addresses with
          | Some ipv4 => Some (address ipv4)
          | None =>
              match lookup dns hostname with
              | inr anyResult =>
                  if family anyResult =? 4 then Some (address anyResult) else None
              | inl _ => None
              end
          end
      | inl _ => None
      end
  end.

(** What the database answers to the two connection probes of
    [testPostgresConnection] ([pool.connect()] followed by
    [SELECT NOW()]; [None] is success, an error is whatever is thrown up
    to [client.release()]) and to [postgresPool.end()]. *)
Record Probes := mkProbes {
  first_probe : option JsError;
  end_old_pool : option JsError;
  second_probe : option JsError;
}.

(** The [try] block of [testPostgresConnection] *)
Definition first_connection (k : Consts) (dns : Dns) (pr : Probes) : Sync unit :=
  g <~ get;;
  (if isSupabase k && negb (bool_decide (is_Some (postgresPool g)))
   then
     p <~ initializePostgresPool k dns;;
     modify (with_pool (Some (setupPoolHandlers p)))
   else ret tt);;;
  _ <~ getPostgresPool k;;
  match first_probe pr with
  | None => ret tt
  | Some e => throw e
  end.

(** The inner [try] block of the [catch] clause: [true] when the second
    probe succeeded, [false] when no address was found. *)
Definition retry_with_ipv4 (dns : Dns) (pr : Probes) : Sync bool :=
  g <~ get;;
  match resolveHostnameToIPv4 dns (default "" (cfg_host (postgresConfig g))) with
  | Some (String a0 s0 as ipv4) =>
      modify (fun g => with_config (set_host ipv4 (postgresConfig g)) g);;;
      g <~ get;;
      (match postgresPool g, end_old_pool pr with
       | Some _, Some e => throw e
       | _, _ => ret tt
       end);;;
      g <~ get;;
      modify (with_pool (Some (setupPoolHandlers (new_Pool (postgresConfig g)))));;;
      match second_probe pr with
      | None => ret true
      | Some e => throw e
      end
  | _ => ret false
  end.

(** The [TypeError] of [undefined.includes(...)] *)
Definition includes_of_undefined : JsError :=
  error_of_message "Cannot read properties of undefined (reading 'includes')".

(** The chain of tips that ends the [catch] clause.  It only writes to
    the log, but its third test, [error.message.includes('SSL')], is
    evaluated when the code is neither ENOTFOUND nor 28P01 and throws
    when the error has no message. *)
Definition log_tips (error : JsError) : Sync unit :=
  if bool_decide (code error = Some "ENOTFOUND") then ret tt
  else if bool_decide (code error = Some "28P01") then ret tt
  else
    match message error with
    | Some _ => ret tt
    | None => throw includes_of_undefined
    end.

(** [testPostgresConnection()]; [dns2] answers the lookups of the
    [catch] clause.  What the [catch] clause throws rejects the promise
    that the function returns. *)
Definition testPostgresConnection (k : Consts) (dns dns2 : Dns) (pr : Probes)
  : Sync bool :=
  fun g =>
    match first_connection k dns pr g with
    | (inr _, g1) => (inr true, g1)
    | (inl error, g1) =>
        if bool_decide (code error = Some "ENETUNREACH") && deferred k (postgresConfig g1)
        then
          match retry_with_ipv4 dns2 pr g1 with
          | (inr true, g2) => (inr true, g2)
          | (_, g2) => (log_tips error;;; ret false) g2
          end
        else (log_tips error;;; ret false) g1
    end.

(** ** The retry executor and its connection queue *)

Definition MAX_CONCURRENT_QUERIES (k : Consts) : Z :=
  if isSupabase k then 1 else 10.

Inductive QueryResult :=
| Rows (rows : list string).

(** How [Promise.race([queryPromise, timeoutPromise])] settles. *)
Inductive RaceOutcome :=
| Fulfilled (result : QueryResult)
| Rejected (error : JsError)
| TimerFired.

(** The [await] a call of [queryWithRetry] is suspended at, with the
    loop index [i] where the [await] is inside the loop. *)
Inductive PC :=
| AtQueue
| Woken
| AtIdleWait (i : Z)
| AtFullWait (i : Z)
| AtEmptyWait (i : Z)
| AtRace (i : Z)
| AtBackoff (i : Z) (error : JsError)
| Returned (result : QueryResult)
| Thrown (error : JsError).

(** The locals of one call: [retries] and [timeout] after the
    clamping, [lastError], and where the call is. *)
Record Task := mkTask {
  retries : Z;
  timeout : Z;
  lastErr : option JsError;
  pc : PC;
}.

Definition at_pc (p : PC) (t : Task) : Task :=
  {| retries := retries t; timeout := timeout t; lastErr := lastErr t; pc := p |}.

Definition with_lastErr (e : JsError) (t : Task) : Task :=
  {| retries := retries t; timeout := timeout t; lastErr := Some e; pc := pc t |}.

(** What a segment does that an observer can see: the gate let the
    caller through ([EvPass]) or queued it ([EvEnqueue]), a queued
    caller was resolved ([EvWake]), a wait on pool pressure
    ([EvSleep]), [activeQueries++] with the race of attempt [i]
    ([EvBegin]), [activeQueries--] ([EvEnd]), a backoff wait
    ([EvBackoff]) and [poolStats.errors++] ([EvError]). *)
Inductive Event :=
| EvPass
| EvEnqueue
| EvWake (next : TaskId)
| EvSleep (ms : Z)
| EvBegin (i : Z) (timeout_ms : Z)
| EvEnd (i : Z)
| EvBackoff (i : Z) (waitTime : Z)
| EvError.

(** The result of running a segment: the globals, the caller's locals
    and the events of the segment in order. *)
Definition Step : Type := Globals * Task * list Event.

Definition emit (evs : list Event) (st : Step) : Step :=
  let '(g, t, evs') := st in (g, t, (evs ++ evs')%list).

(** [isConnectionError] of the [catch] clause *)
Definition isConnectionError (error : JsError) : bool :=
  let errorCode := or_else (code error) "" in
  let errorMessage := or_else (message error) "" in
  String.eqb errorCode "ECONNRESET" ||
  String.eqb errorCode "ETIMEDOUT" ||
  String.eqb errorCode "ECONNREFUSED" ||
  String.eqb errorCode "XX000" ||
  includes errorMessage "Connection terminated" ||
  includes errorMessage "timeout" ||
  includes errorMessage "MaxClientsInSessionMode" ||
  includes errorMessage "max clients reached" ||
  includes errorMessage "Query timeout".

Definition baseWaitTime (error : JsError) : Z :=
  if includes (or_else (message error) "") "MaxClients" then 3000 else 1000.

(** [Math.min(baseWaitTime * Math.pow(2, i), 15000)] *)
Definition waitTime (error : JsError) (i : Z) : Z :=
  Z.min (baseWaitTime error * 2 ^ i) 15000.

(** [poolStats.errors++; poolStats.lastError = error] *)
Definition record_error (error : JsError) (g : Globals) : Globals :=
  with_stats
    {| totalConnections := totalConnections (poolStats g);
       idleConnections := idleConnections (poolStats g);
       activeConnections := activeConnections (poolStats g);
       waitingClients := waitingClients (poolStats g);
       errors := errors (poolStats g) + 1;
       lastError := Some error;
       lastHealthCheck := lastHealthCheck (poolStats g);
       isHealthy := isHealthy (poolStats g) |}
    g.

(** The [catch (error)] clause of the loop body, up to its [await] or
    its [throw]. *)
Definition catch_clause (i : Z) (error : JsError) (t : Task) (g : Globals) : Step :=
  let t := with_lastErr error t in
  let isLastAttempt := i =? retries t - 1 in
  if isConnectionError error && negb isLastAttempt
  then (g, at_pc (AtBackoff i error) t, [EvBackoff i (waitTime error i)])
  else (record_error error g, at_pc (Thrown error) t, [EvError]).

(** [activeQueries++] and the start of the race *)
Definition begin_query (i : Z) (t : Task) (g : Globals) : Step :=
  (with_active (activeQueries g + 1) g, at_pc (AtRace i) t, [EvBegin i (timeout t)]).

(** From [if (pool.totalCount === 0 && i === 0)] on *)
Definition after_full_wait (i : Z) (l : Live) (t : Task) (g : Globals) : Step :=
  if (totalCount l =? 0) && (i =? 0)
  then (g, at_pc (AtEmptyWait i) t, [EvSleep 500])
  else begin_query i t g.

(** From [if (pool.totalCount >= POOL_SIZE)] on, inside [if (isSupabase)] *)
Definition after_idle_wait (k : Consts) (i : Z) (l : Live) (t : Task) (g : Globals)
  : Step :=
  if geb_num (totalCount l) (POOL_SIZE k)
  then (g, at_pc (AtFullWait i) t, [EvSleep (1000 + i * 300)])
  else after_full_wait i l t g.

(** The loop body from its first statement *)
Definition loop_body (k : Consts) (i : Z) (l : Live) (t : Task) (g : Globals) : Step :=
  match (updatePoolStats k l;;; getPostgresPool k) g with
  | (inl error, g') => catch_clause i error t g'
  | (inr pool, g') =>
      if isSupabase k then
        if (0 <? totalCount l) && (idleCount l =? 0)
        then (g', at_pc (AtIdleWait i) t, [EvSleep (500 + i * 200)])
        else after_idle_wait k i l t g'
      else after_full_wait i l t g'
  end.

(** [for (...; i < retries; ...)] from its test, and the [throw] that
    follows the loop *)
Definition loop (k : Consts) (i : Z) (l : Live) (t : Task) (g : Globals) : Step :=
  if i <? retries t then loop_body k i l t g
  else
    (g,
     at_pc (Thrown (default (error_of_message "Query failed after all retries")
                            (lastErr t))) t,
     []).

(** The [finally] clause: the counter goes down and at most one queued
    caller, the first of the queue, is resolved. *)
Definition finally_clause (k : Consts) (i : Z) (g : Globals) : Globals * list Event :=
  let g := with_active (activeQueries g - 1) g in
  match connectionQueue g with
  | next :: rest =>
      if activeQueries g <? MAX_CONCURRENT_QUERIES k
      then (with_queue rest g, [EvEnd i; EvWake next])
      else (g, [EvEnd i])
  | [] => (g, [EvEnd i])
  end.

(** A call of [queryWithRetry(queryText, params, retries, timeout)] by
    task [me], up to its first [await].  The query text and its
    parameters only travel to the driver. *)
Definition queryWithRetry (k : Consts) (me : TaskId) (retries timeout : Z)
  (l : Live) (g : Globals) : Step :=
  let retries := if isSupabase k then Z.min retries 3 else retries in
  let timeout := if isSupabase k then Z.min timeout 30000 else timeout in
  let t := {| retries := retries; timeout := timeout; lastErr := None; pc := Woken |} in
  if isSupabase k && (MAX_CONCURRENT_QUERIES k <=? activeQueries g)
  then (with_queue (connectionQueue g ++ [me])%list g, at_pc AtQueue t, [EvEnqueue])
  else emit [EvPass] (loop k 0 l t g).

(** The continuation of a suspended call.  [l] is what the segment
    reads of the pool and the clock; [o] is how the race settled, read
    at [AtRace] only. *)
Definition resume (k : Consts) (l : Live) (o : RaceOutcome) (t : Task) (g : Globals)
  : Step :=
  match pc t with
  | AtQueue => (g, t, [])
  | Woken => loop k 0 l t g
  | AtIdleWait i => after_idle_wait k i l t g
  | AtFullWait i => after_full_wait i l t g
  | AtEmptyWait i => begin_query i t g
  | AtRace i =>
      let '(g', evs) := finally_clause k i g in
      match o with
      | Fulfilled result => (g', at_pc (Returned result) t, evs)
      | Rejected error => emit evs (catch_clause i error t g')
      | TimerFired => emit evs (catch_clause i (error_of_message "Query timeout") t g')
      end
  | AtBackoff i error =>
      match updatePoolStats k l (record_error error g) with
      | (inl e, g') => (g', at_pc (Thrown e) t, [EvError])
      | (inr _, g') => emit [EvError] (loop k (i + 1) l t g')
      end
  | Returned _ | Thrown _ => (g, t, [])
  end.

(** *** One call on its own *)

Definition settled (p : PC) : bool :=
  match p with
  | Returned _ | Thrown _ => true
  | _ => false
  end.

Definition attempt_index (p : PC) : Z :=
  match p with
  | AtRace i => i
  | _ => 0
  end.

(** Runs a call to completion when nothing else runs: the [n]-th
    segment reads [live n] and the race of the attempt with index [i]
    settles as [outcome i]. *)
Fixpoint run_alone (k : Consts) (live : nat -> Live) (outcome : Z -> RaceOutcome)
  (fuel n : nat) (st : Step) : Step :=
  match fuel with
  | O => st
  | S fuel' =>
      let '(g, t, evs) := st in
      if settled (pc t) then st
      else run_alone k live outcome fuel' (S n)
             (emit evs (resume k (live n) (outcome (attempt_index (pc t))) t g))
  end.

(** The waits of the exponential backoff, in order *)
Definition backoffs (evs : list Event) : list Z :=
  omap (fun e => match e with EvBackoff _ w => Some w | _ => None end) evs.

(** The attempts, in order, each with the delay of its timer *)
Definition attempts (evs : list Event) : list (Z * Z) :=
  omap (fun e => match e with EvBegin i ms => Some (i, ms) | _ => None end) evs.

(** The number of [poolStats.errors++] performed *)
Definition error_increments (evs : list Event) : Z :=
  Z.of_nat
    (length (omap (fun e => match e with EvError => Some tt | _ => None end) evs)).

(** *** Many calls on one event loop *)

(** The event loop: the globals, the calls in flight with their locals,
    and the events so far, each with the task that performed it. *)
Record System := mkSystem {
  globals : Globals;
  tasks : gmap TaskId Task;
  trace : list (TaskId * Event);
}.

(** What the event loop runs next: a new call, or the continuation of a
    suspended one (a timer that fired, a race that settled, a resolved
    queue promise). *)
Inductive Label :=
| Call (t : TaskId) (retries timeout : Z) (l : Live)
| Resume (t : TaskId) (l : Live) (o : RaceOutcome).

(** [next()]: the queue promise of task [next] is resolved. *)
Definition wake (next : TaskId) (ts : gmap TaskId Task) : gmap TaskId Task :=
  alter (fun t => match pc t with AtQueue => at_pc Woken t | _ => t end) next ts.

Definition apply_wakes (evs : list Event) (ts : gmap TaskId Task) : gmap TaskId Task :=
  foldl (fun ts e => match e with EvWake next => wake next ts | _ => ts end) ts evs.

Definition runnable (p : PC) : bool :=
  match p with
  | AtQueue | Returned _ | Thrown _ => false
  | _ => true
  end.

Definition commit (s : System) (me : TaskId) (st : Step) : System :=
  let '(g, t, evs) := st in
  {| globals := g;
     tasks := apply_wakes evs (<[me := t]> (tasks s));
     trace := (trace s ++ map (pair me) evs)%list |}.

(** One turn of the event loop; [None] when the label names a call that
    cannot run (a task name in use, a task that is not suspended at a
    point that can resume). *)
Definition sys_step (k : Consts) (s : System) (lab : Label) : option System :=
  match lab with
  | Call me retries timeout l =>
      match tasks s !! me with
      | Some _ => None
      | None => Some (commit s me (queryWithRetry k me retries timeout l (globals s)))
      end
  | Resume me l o =>
      match tasks s !! me with
      | Some t =>
          if runnable (pc t)
          then Some (commit s me (resume k l o t (globals s)))
          else None
      | None => None
      end
  end.

Fixpoint sys_run (k : Consts) (s : System) (labs : list Label) : option System :=
  match labs with
  | [] => Some s
  | lab :: labs' =>
      match sys_step k s lab with
      | Some s' => sys_run k s' labs'
      | None => None
      end
  end.

Definition system_init (g : Globals) : System :=
  {| globals := g; tasks := ∅; trace := [] |}.

(** The callers that suspended at the queue, in the order they did *)
Definition arrivals (tr : list (TaskId * Event)) : list TaskId :=
  omap (fun te => match te.2 with EvEnqueue => Some te.1 | _ => None end) tr.

(** The callers resolved out of the queue, in the order they were *)
Definition admissions (tr : list (TaskId * Event)) : list TaskId :=
  omap (fun te => match te.2 with EvWake next => Some next | _ => None end) tr.

(** The number of tasks suspended at their race *)
Definition in_race (t : Task) : bool :=
  match pc t with
  | AtRace _ => true
  | _ => false
  end.

Definition racing (ts : gmap TaskId Task) : Z :=
  Z.of_nat (size (filter (fun p => Is_true (in_race p.2)) ts)).

(** ** Sample deployments *)

(** A runtime whose [URL] constructor and decoder reject every input;
    it stands for the JavaScript runtime on strings that are not URLs. *)
Definition rejecting_runtime : Runtime :=
  {| new_URL := fun _ => None;
     decodeURIComponent := fun _ => None |}.

(** A deployment that names the Supabase host through [POSTGRES_HOST]. *)
Definition supabase_host_env : ProcessEnv :=
  {| POSTGRES_URL := None;
     POSTGRES_HOST := Some "db.abc.supabase.co";
     POSTGRES_PORT := None;
     POSTGRES_DB := Some "postgres";
     POSTGRES_USER := Some "postgres";
     POSTGRES_PASSWORD := Some "secret";
     POSTGRES_SSL := None;
     POSTGRES_POOL_SIZE := None;
     POSTGRES_MIN_POOL_SIZE := None |}.

(** The state of the module when it has loaded under [env]. *)
Definition loaded (rt : Runtime) (env : ProcessEnv) : option Globals :=
  match postgresConfig_of rt env with
  | Resolved c => Some (module_init (consts_of env) c)
  | ConfigError => None
  end.

Definition supabase_consts : Consts :=
  {| isSupabase := true; POOL_SIZE := Num 2; MIN_POOL_SIZE := Num 0 |}.

(** A decomposed Supabase URI with host [h] *)
Definition supabase_match (h : string) : UrlMatch :=
  {| m_user := Some "postgres";
     m_password := Some "secret";
     m_hostname := h;
     m_port := "5432";
     m_database := "postgres" |}.

(** The module just loaded for a Supabase target with host [h] *)
Definition supabase_globals (h : string) : Globals :=
  module_init supabase_consts (config_of_match supabase_consts (supabase_match h)).

(** A pool with one idle connection *)
Definition calm : Live :=
  {| totalCount := 1; idleCount := 1; waitingCount := 0; now := 0 |}.

Definition econnreset : JsError :=
  {| code := Some "ECONNRESET"; message := Some "read ECONNRESET" |}.

Definition max_clients : JsError :=
  {| code := Some "XX000";
     message := Some "MaxClientsInSessionMode: max clients reached" |}.

Definition enetunreach : JsError :=
  {| code := Some "ENETUNREACH";
     message := Some "connect ENETUNREACH 2600:1f18::1:5432" |}.

(** An environment whose [POSTGRES_URL] is not a URI *)
Definition broken_url_env : ProcessEnv :=
  {| POSTGRES_URL := Some "not a uri";
     POSTGRES_HOST := None;
     POSTGRES_PORT := None;
     POSTGRES_DB := None;
     POSTGRES_USER := None;
     POSTGRES_PASSWORD := None;
     POSTGRES_SSL := None;
     POSTGRES_POOL_SIZE := None;
     POSTGRES_MIN_POOL_SIZE := None |}.

(** A resolver that knows one IPv4 address for every name *)
Definition dns_ipv4 (a : string) : Dns :=
  {| lookup := fun _ => inr {| address := a; family := 4 |};
     lookup4 := fun _ => inr {| address := a; family := 4 |};
     lookup_all := fun _ => inr [{| address := a; family := 4 |}] |}.

(** A resolver whose plain lookup answers with an IPv6 address and
    whose lookup with [family: 4] answers with an IPv4 address *)
Definition dns_ipv6_then_ipv4 : Dns :=
  {| lookup := fun _ => inr {| address := "2600:1f18::1"; family := 6 |};
     lookup4 := fun _ => inr {| address := "203.0.113.5"; family := 4 |};
     lookup_all := fun _ => inr [{| address := "2600:1f18::1"; family := 6 |};
                                 {| address := "203.0.113.5"; family := 4 |}] |}.

(** A resolver every lookup of which fails *)
Definition dns_down : Dns :=
  {| lookup := fun _ => inl (mkError (Some "ENOTFOUND") (Some "getaddrinfo ENOTFOUND"));
     lookup4 := fun _ => inl (mkError (Some "ENOTFOUND") (Some "getaddrinfo ENOTFOUND"));
     lookup_all := fun _ => inl (mkError (Some "ENOTFOUND") (Some "getaddrinfo ENOTFOUND")) |}.

(** ** Notions that the properties are stated with *)

(** A connection URI that neither parser decomposes *)
Definition malformed (rt : Runtime) (raw : string) : Prop :=
  structured_parse rt (clean_connection_string raw) = None /\
  match_connection (clean_connection_string raw) = None.

(** [c'] is [c], or [c] with its [host] field overwritten *)
Definition host_rewritten (c c' : PoolConfig) : Prop :=
  c' = c \/ exists h, c' = set_host h c.

(** [a] is the IPv4 address that the lookups of
    [initializePostgresPool] give for [host]: the answer of the plain
    lookup when its family is 4, otherwise the answer of the lookup with
    [family: 4]. *)
Definition ipv4_answer (dns : Dns) (host a : string) : Prop :=
  (exists r, lookup dns host = inr r /\ family r = 4 /\ address r = a) \/
  (exists r r4, lookup dns host = inr r /\ family r <> 4 /\
                lookup4 dns host = inr r4 /\ address r4 = a).

(** [c'] is what the resolution step of [initializePostgresPool] makes
    of [c]: [c] with its [host] overwritten with the IPv4 answer, for a
    deferred target that has one; otherwise [c] itself. *)
Definition host_resolved (k : Consts) (dns : Dns) (c c' : PoolConfig) : Prop :=
  (deferred k c = true /\
   exists a, ipv4_answer dns (default "" (cfg_host c)) a /\ c' = set_host a c) \/
  ((deferred k c = false \/ forall a, ~ ipv4_answer dns (default "" (cfg_host c)) a) /\
   c' = c).


(** Two callers; the first fails once and backs off while the second,
    resolved out of the queue, starts its query. *)
Definition overrun_after_backoff : list Label :=
  [Call 1%nat 3 30000 calm;
   Call 2%nat 3 30000 calm;
   Resume 1%nat calm (Rejected econnreset);
   Resume 2%nat calm TimerFired;
   Resume 1%nat calm TimerFired].

(** A pool that has no connection yet *)
Definition empty_pool : Live :=
  {| totalCount := 0; idleCount := 0; waitingCount := 0; now := 0 |}.

(** Two callers arrive while the pool has no connection yet: both pass
    the gate and wait 500 ms before they count themselves in. *)
Definition overrun_at_startup : list Label :=
  [Call 1%nat 3 30000 empty_pool;
   Call 2%nat 3 30000 empty_pool;
   Resume 1%nat empty_pool TimerFired;
   Resume 2%nat empty_pool TimerFired].

(** Callers 2 and 3 queue behind caller 1.  The connection of caller 1
    is reset: its [finally] clause resolves caller 2 and caller 1 backs
    off.  Caller 2 resumes, finds the pool without a connection and
    waits 500 ms.  Caller 4 arrives then. *)
Definition late_arrival : list Label :=
  [Call 1%nat 3 30000 calm;
   Call 2%nat 3 30000 calm;
   Call 3%nat 3 30000 calm;
   Resume 1%nat empty_pool (Rejected econnreset);
   Resume 2%nat empty_pool TimerFired;
   Call 4%nat 3 30000 empty_pool].

(** A step that leaves [connectionQueue] as it is in [g] and neither
    queues nor resolves a caller. *)
Definition quiet (g : Globals) (st : Step) : Prop :=
  connectionQueue (st.1.1) = connectionQueue g /\
  forall me, arrivals (map (pair me) st.2) = [] /\ admissions (map (pair me) st.2) = [].



(** The values of [retries] and [timeout] that a call works with *)
Definition effective_retries (k : Consts) (retries : Z) : Z :=
  if isSupabase k then Z.min retries 3 else retries.

Definition effective_timeout (k : Consts) (timeout : Z) : Z :=
  if isSupabase k then Z.min timeout 30000 else timeout.

(** The error that a race which did not succeed hands to the [catch]
    clause: the rejection of the query, or the error of the timer. *)
Definition race_error (o : RaceOutcome) : option JsError :=
  match o with
  | Fulfilled _ => None
  | Rejected e => Some e
  | TimerFired => Some (error_of_message "Query timeout")
  end.

(** The gate lets a call through at once. *)
Definition gate_open (k : Consts) (g : Globals) : Prop :=
  isSupabase k && (MAX_CONCURRENT_QUERIES k <=? activeQueries g) = false.

(** How a call gets past the gate: at once, or from the queue, [g0]
    being the state in which the call was made and queued. *)
Inductive Admission :=
| AtOnce
| FromQueue (g0 : Globals).

(** The answer of the gate that goes with an admission *)
Definition admits (k : Consts) (a : Admission) (g : Globals) : Prop :=
  match a with
  | AtOnce => gate_open k g
  | FromQueue g0 => ~ gate_open k g0
  end.

(** A queued caller whose promise a [finally] clause has resolved *)
Definition resolved (t : Task) : Task :=
  match pc t with
  | AtQueue => at_pc Woken t
  | _ => t
  end.

(** The call up to the first [await] of its loop, which it enters in
    state [g] reading [l]: the call itself when the gate lets it
    through; otherwise the call, which queues the caller in [g0], and
    the segment that runs once the caller has been resolved. *)
Definition admitted (k : Consts) (me : TaskId) (retries timeout : Z) (l : Live)
  (a : Admission) (g : Globals) : Step :=
  match a with
  | AtOnce => queryWithRetry k me retries timeout l g
  | FromQueue g0 =>
      let '(_, t, evs) := queryWithRetry k me retries timeout l g0 in
      emit evs (resume k l TimerFired (resolved t) g)
  end.

(** [st] is reached from [st'] after [m] further segments, [n] segments
    having run before. *)
Definition advances (k : Consts) (live : nat -> Live) (outcome : Z -> RaceOutcome)
  (m n : nat) (st st' : Step) : Prop :=
  forall fuel,
    run_alone k live outcome (m + fuel) n st = run_alone k live outcome fuel (n + m) st'.

(** Events among which there is no attempt, no backoff and no error
    count *)
Definition silent (evs : list Event) : Prop :=
  backoffs evs = [] /\ attempts evs = [] /\ error_increments evs = 0.

(** Each element is at least the one before. *)
Definition nondecreasing (ws : list Z) : Prop :=
  forall (j : nat) a b, ws !! j = Some a -> ws !! S j = Some b -> a <= b.

(** [s] between double quotes *)
Definition quoted (s : string) : string :=
  String "034"%char (s ++ String "034"%char EmptyString).

(** The server's error for a rejected password of role [role] *)
Definition auth_failure (role : string) : JsError :=
  {| code := Some "28P01";
     message := Some ("password authentication failed for user " ++ quoted role) |}.

(** The message fragments that make an error retryable *)
Definition retryable_wording (m : string) : bool :=
  includes m "Connection terminated" ||
  includes m "timeout" ||
  includes m "MaxClientsInSessionMode" ||
  includes m "max clients reached" ||
  includes m "Query timeout".

(** The locals of a call whose arguments were [retries] and [timeout] *)
Definition entering (k : Consts) (retries timeout : Z) : Task :=
  {| retries := effective_retries k retries;
     timeout := effective_timeout k timeout;
     lastErr := None;
     pc := Woken |}.

(** A first attempt that loses its connection, then success *)
Definition fails_once (i : Z) : RaceOutcome :=
  if i =? 0 then Rejected econnreset else Fulfilled (Rows []).

(** The connection ceiling is hit, then the connection is reset, then
    the query succeeds. *)
Definition quota_then_reset (i : Z) : RaceOutcome :=
  if i =? 0 then Rejected max_clients
  else if i =? 1 then Rejected econnreset
  else Fulfilled (Rows []).

(** Every attempt loses its connection. *)
Definition always_reset (i : Z) : RaceOutcome := Rejected econnreset.

(** Every attempt is refused with the error [e]. *)
Definition always_rejected (e : JsError) (i : Z) : RaceOutcome := Rejected e.

(** A call with the default arguments on a Supabase target whose pool
    exists and is calm, run on its own against the outcomes [outcome] *)
Definition sample_run (outcome : Z -> RaceOutcome) : Step :=
  run_alone supabase_consts (fun _ => calm) outcome 20 1
    (queryWithRetry supabase_consts 1%nat 3 30000 calm (supabase_globals "10.0.0.7")).

(** The Supabase target with its pool, while one query is in its race *)
Definition one_in_flight : Globals :=
  with_active 1 (supabase_globals "10.0.0.7").

(** A Supabase URI that names the user without a password *)
Definition passwordless_env : ProcessEnv :=
  {| POSTGRES_URL := Some "postgresql://postgres@db.abc.supabase.co:5432/postgres";
     POSTGRES_HOST := None;
     POSTGRES_PORT := None;
     POSTGRES_DB := None;
     POSTGRES_USER := None;
     POSTGRES_PASSWORD := None;
     POSTGRES_SSL := None;
     POSTGRES_POOL_SIZE := None;
     POSTGRES_MIN_POOL_SIZE := None |}.

(** What [new URL] answers for that URI (every other input is rejected
    here): the password is the empty string. *)
Definition passwordless_runtime : Runtime :=
  {| new_URL := fun s =>
       if String.eqb s "postgresql://postgres@db.abc.supabase.co:5432/postgres"
       then Some {| protocol := "postgresql:";
                    username := "postgres";
                    password := EmptyString;
                    hostname := "db.abc.supabase.co";
                    port := "5432";
                    pathname := "/postgres" |}
       else None;
     decodeURIComponent := fun s => Some s |}.

(** The step [st] leaves the locals [retries] and [timeout] of [t] as
    they are. *)
Definition keeps_locals (t : Task) (st : Step) : Prop :=
  retries st.1.2 = retries t /\ timeout st.1.2 = timeout t.

(** ** More of the module: string helpers for the statements *)

(** The segments joined again with the separator between them *)
Fixpoint join_with (sep : ascii) (segs : list string) : string :=
  match segs with
  | [] => EmptyString
  | [seg] => seg
  | seg :: rest => seg ++ String sep (join_with sep rest)
  end.

(** A digit or a dot *)
Definition digit_or_dot (a : ascii) : bool := is_digit a || Ascii.eqb a ".".

(** ** The listeners of the pool and the periodic health check *)

(** [isConnectionError] of the pool's ['error'] listener; it chooses
    between a warning and an error in the log. *)
Definition listener_isConnectionError (err : JsError) : bool :=
  let errorCode := or_else (code err) "UNKNOWN" in
  String.eqb errorCode "ECONNRESET" ||
  String.eqb errorCode "ETIMEDOUT" ||
  String.eqb errorCode "ECONNREFUSED" ||
  from_option (fun m => includes m "Connection terminated") false (message err) ||
  from_option (fun m => includes m "timeout") false (message err) ||
  from_option (fun m => includes m "MaxClientsInSessionMode") false (message err).

(** The ['error'] listener: the error is counted and recorded, then the
    statistics are refreshed. *)
Definition on_pool_error (k : Consts) (l : Live) (err : JsError) : Sync unit :=
  modify (record_error err);;;
  updatePoolStats k l.

(** The ['acquire'] and ['remove'] listeners *)
Definition on_pool_acquire (k : Consts) (l : Live) : Sync unit := updatePoolStats k l.

Definition on_pool_remove (k : Consts) (l : Live) : Sync unit := updatePoolStats k l.

(** The ['connect'] listener from the point where
    [client.query("SET timezone = 'UTC'")] has settled ([None]: it
    succeeded).  Whatever is thrown inside its [try] is counted and
    recorded; the listener itself never throws. *)
Definition on_pool_connect (k : Consts) (l : Live) (set_timezone : option JsError)
  : Sync unit :=
  fun g =>
    match set_timezone with
    | None =>
        match updatePoolStats k l g with
        | (inr _, g') => (inr tt, g')
        | (inl error, g') => (inr tt, record_error error g')
        end
    | Some error => (inr tt, record_error error g)
    end.

(** The events that the pool emits to listeners that run at once *)
Inductive PoolEvent :=
| PoolError (err : JsError)
| PoolAcquire
| PoolRemove.

Definition listener (k : Consts) (l : Live) (ev : PoolEvent) : Sync unit :=
  match ev with
  | PoolError err => on_pool_error k l err
  | PoolAcquire => on_pool_acquire k l
  | PoolRemove => on_pool_remove k l
  end.

(** [n] listeners of one event, called in the order they registered;
    an exception leaves the emitter at once. *)
Fixpoint each_listener (n : nat) (h : Sync unit) : Sync unit :=
  match n with
  | O => ret tt
  | S n' => h;;; each_listener n' h
  end.

(** The pool in [postgresPool] emits [ev]: every set of listeners that
    [setupPoolHandlers] registered on it runs. *)
Definition pool_emits (k : Consts) (l : Live) (ev : PoolEvent) : Sync unit :=
  g <~ get;;
  match postgresPool g with
  | Some p => each_listener (handlers p) (listener k l ev)
  | None => ret tt
  end.

(** The callback of [setInterval], every 30 seconds: the refresh; what
    follows it only writes to the log. *)
Definition health_tick (k : Consts) (l : Live) : Sync unit := updatePoolStats k l.

(** ** The event loop with the pool's events *)

(** What the event loop runs next: a turn of a call of [queryWithRetry],
    an event of the pool, the continuation of one ['connect'] listener,
    or the health check. *)
Inductive Happening :=
| Turn (lab : Label)
| Emitted (ev : PoolEvent) (l : Live)
| Connected (set_timezone : option JsError) (l : Live)
| Tick (l : Live).

Definition with_globals (g : Globals) (s : System) : System :=
  {| globals := g; tasks := tasks s; trace := trace s |}.

(** The state after a callback; [None] when the callback throws, which
    nothing catches. *)
Definition after_callback (s : System) (r : (JsError + unit) * Globals) : option System :=
  match r with
  | (inr _, g) => Some (with_globals g s)
  | (inl _, _) => None
  end.

Definition world_step (k : Consts) (s : System) (h : Happening) : option System :=
  match h with
  | Turn lab => sys_step k s lab
  | Emitted ev l => after_callback s (pool_emits k l ev (globals s))
  | Connected set_timezone l =>
      after_callback s (on_pool_connect k l set_timezone (globals s))
  | Tick l => after_callback s (health_tick k l (globals s))
  end.

Fixpoint world_run (k : Consts) (s : System) (hs : list Happening) : option System :=
  match hs with
  | [] => Some s
  | h :: hs' =>
      match world_step k s h with
      | Some s' => world_run k s' hs'
      | None => None
      end
  end.

(** ** [checkPoolHealth] *)

(** The object that [checkPoolHealth] returns; a row of the probe is
    represented by the value of its [now] column. *)
Inductive HealthReport :=
| Healthy (stats : PoolStats) (timestamp : option string)
| Unhealthy (stats : PoolStats) (error : option string).

(** [checkPoolHealth()] up to its [await]: the report, when the refresh
    throws, or the call of [queryWithRetry('SELECT NOW()', [], 2, 10000)]
    that it awaits. *)
Definition checkPoolHealth_call (k : Consts) (me : TaskId) (l : Live) (g : Globals)
  : (HealthReport * Globals) + Step :=
  match updatePoolStats k l g with
  | (inl error, g') => inl (Unhealthy (poolStats g') (message error), g')
  | (inr _, g') => inr (queryWithRetry k me 2 10000 l g')
  end.

(** [checkPoolHealth()] once the awaited call has settled *)
Definition checkPoolHealth_report (st : Step) : option HealthReport :=
  let '(g, t, _) := st in
  match pc t with
  | Returned (Rows rows) => Some (Healthy (poolStats g) (head rows))
  | Thrown error => Some (Unhealthy (poolStats g) (message error))
  | _ => None
  end.

(** ** The default export *)





(** ** Notions for the further properties *)

(** The loop index of a suspended call is within the attempts it may
    make; a call that backs off has an attempt left. *)
Definition well_placed (t : Task) : Prop :=
  match pc t with
  | AtIdleWait i | AtFullWait i | AtEmptyWait i | AtRace i => 0 <= i < retries t
  | AtBackoff i _ => 0 <= i < retries t - 1
  | _ => True
  end.

(** A bound on the segments that a call still runs *)
Definition rank (t : Task) : Z :=
  match pc t with
  | Woken => 5 * Z.max (retries t) 0 + 1
  | AtIdleWait i => 5 * (retries t - i)
  | AtFullWait i => 5 * (retries t - i) - 1
  | AtEmptyWait i => 5 * (retries t - i) - 2
  | AtRace i => 5 * (retries t - i) - 3
  | AtBackoff i _ => 5 * (retries t - i) - 4
  | AtQueue | Returned _ | Thrown _ => 0
  end.

(** The attempts that a call may still begin *)
Definition attempts_left (t : Task) : Z :=
  match pc t with
  | Woken => Z.max (retries t) 0
  | AtIdleWait i | AtFullWait i | AtEmptyWait i => retries t - i
  | AtRace i | AtBackoff i _ => retries t - i - 1
  | AtQueue | Returned _ | Thrown _ => 0
  end.

(** The backoff waits that a call may still begin *)
Definition backoffs_left (t : Task) : Z :=
  match pc t with
  | Woken => Z.max (retries t - 1) 0
  | AtIdleWait i | AtFullWait i | AtEmptyWait i | AtRace i => retries t - i - 1
  | AtBackoff i _ => retries t - i - 2
  | AtQueue | Returned _ | Thrown _ => 0
  end.

(** A wait of the backoff of a call with [R] attempts *)
Definition backoff_of (R : Z) (w : Z) : Prop :=
  exists e i, 0 <= i < R - 1 /\ w = waitTime e i.

(** Where a segment of task [t] leaves the call: placed within its
    attempts, with the same [retries], neither queued nor woken, with
    rank at most [rk], and with the attempts and backoff waits of the
    segment paid out of [al] and [bl]. *)
Definition lands (t : Task) (rk al bl : Z) (st : Step) : Prop :=
  well_placed st.1.2 /\
  retries st.1.2 = retries t /\
  pc st.1.2 <> AtQueue /\ pc st.1.2 <> Woken /\
  0 <= rank st.1.2 <= rk /\
  Z.of_nat (length (attempts st.2)) + attempts_left st.1.2 <= al /\
  Z.of_nat (length (backoffs st.2)) + backoffs_left st.1.2 <= bl /\
  Forall (backoff_of (retries t)) (backoffs st.2).

(** What a segment may do to the configuration, the pool and the error
    history: the configuration stays, the error counter does not go
    down, and the pool changes only from absent to present, which never
    happens while its construction is deferred. *)
Definition pool_steady (k : Consts) (g g' : Globals) : Prop :=
  postgresConfig g' = postgresConfig g /\
  errors (poolStats g) <= errors (poolStats g') /\
  (forall p, postgresPool g = Some p -> postgresPool g' = Some p) /\
  (postgresPool g = None -> deferred k (postgresConfig g) = true -> postgresPool g' = None).

(** What a synchronous helper or a callback of the pool may do: as
    above, and the queue and the counter of active queries stay. *)
Definition steady (k : Consts) (g g' : Globals) : Prop :=
  pool_steady k g g' /\
  connectionQueue g' = connectionQueue g /\
  activeQueries g' = activeQueries g.

(** [1] for a call in its race, [0] otherwise *)
Definition race_count (t : Task) : Z := if in_race t then 1 else 0.

(** The queue holds exactly the calls suspended at it, each once. *)
Definition queue_matches_tasks (s : System) : Prop :=
  NoDup (connectionQueue (globals s)) /\
  forall me,
    me ∈ connectionQueue (globals s) <->
    exists t, tasks s !! me = Some t /\ pc t = AtQueue.

(** Two callers at start-up, an error of the pool and the health check
    in between *)
Definition busy_morning : list Happening :=
  [Turn (Call 1%nat 3 30000 empty_pool);
   Emitted (PoolError econnreset) empty_pool;
   Turn (Call 2%nat 3 30000 empty_pool);
   Tick empty_pool;
   Turn (Resume 1%nat empty_pool TimerFired);
   Connected None calm;
   Turn (Resume 2%nat calm TimerFired);
   Emitted PoolAcquire calm;
   Turn (Resume 1%nat calm (Fulfilled (Rows [])))].

(** A resolver that knows only an IPv6 address for every name *)
Definition dns_ipv6_only : Dns :=
  {| lookup := fun _ => inr {| address := "2600:1f18::1"; family := 6 |};
     lookup4 := fun _ => inl (mkError (Some "ENOTFOUND") (Some "getaddrinfo ENOTFOUND"));
     lookup_all := fun _ => inr [{| address := "2600:1f18::1"; family := 6 |}] |}.

(** Probes that both succeed *)
Definition probes_ok : Probes :=
  {| first_probe := None; end_old_pool := None; second_probe := None |}.

(** An internal error of the server that names no connection trouble *)
Definition internal_error : JsError :=
  {| code := Some "XX000"; message := Some "internal error" |}.

(** ** What the fallback pattern consumed *)

(** The text that the optional group [(?:([^:]+):([^@]+)@)?] consumed,
    read back from the two captures of a match *)
Definition credentials (m : UrlMatch) : string :=
  match m_user m, m_password m with
  | Some user, Some pass => user ++ ":" ++ pass ++ "@"
  | _, _ => ""
  end.

(** The text that the whole pattern consumed in a match that started
    with [scheme] *)
Definition matched_text (scheme : string) (m : UrlMatch) : string :=
  scheme ++ "://" ++ credentials m ++ m_hostname m ++ ":" ++ m_port m ++ "/"
    ++ m_database m.

(** A connection string inside a longer text *)
Definition embedded_url : string :=
  "DATABASE postgresql://postgres:pw@db.abc.supabase.co:6543/postgres?sslmode=require".

Definition embedded_match : UrlMatch :=
  {| m_user := Some "postgres";
     m_password := Some "pw";
     m_hostname := "db.abc.supabase.co";
     m_port := "6543";
     m_database := "postgres" |}.

(** * Properties *)

(** ** The string primitives on examples *)

Example ipv4_literal_accepted : is_ipv4_literal "203.0.113.5" = true.
Proof. reflexivity. Qed.

Example host_name_is_not_ipv4 : is_ipv4_literal "db.abc.supabase.co" = false.
Proof. reflexivity. Qed.

Example ipv4_needs_four_runs :
  is_ipv4_literal "10.0.0" = false /\ is_ipv4_literal "10..0.1" = false /\
  is_ipv4_literal "10.0.0.1." = false /\ is_ipv4_literal "" = false.
Proof. repeat split. Qed.

Example parseInt_examples :
  parseInt "20" = Num 20 /\ parseInt " 7px" = Num 7 /\ parseInt "-3" = Num (-3) /\
  parseInt "" = NaN /\ parseInt "two" = NaN.
Proof. repeat split. Qed.

Example clean_connection_string_example :
  clean_connection_string " 'POSTGRES_URL=postgresql://u:p@h:6543/db' "
  = "postgresql://u:p@h:6543/db".
Proof. reflexivity. Qed.

Example pooler_port_rewritten :
  replace_first "postgresql://u:p@h:6543/db" ":6543/" ":5432/"
  = "postgresql://u:p@h:5432/db".
Proof. reflexivity. Qed.

Example pattern_typical :
  match_connection "postgresql://postgres:pw@db.abc.supabase.co:5432/postgres?sslmode=require"
  = Some {| m_user := Some "postgres"; m_password := Some "pw";
            m_hostname := "db.abc.supabase.co"; m_port := "5432";
            m_database := "postgres" |}.
Proof. reflexivity. Qed.

Example pattern_without_credentials :
  match_connection "postgresql://db.abc.supabase.co:5432/postgres"
  = Some {| m_user := None; m_password := None;
            m_hostname := "db.abc.supabase.co"; m_port := "5432";
            m_database := "postgres" |}.
Proof. reflexivity. Qed.

(** The pattern reads [postgresq] followed by an optional [l]: the
    scheme [postgres:] does not match it. *)
Example pattern_short_scheme :
  match_connection "postgres://u:p@h:5432/db" = None.
Proof. reflexivity. Qed.

Example pattern_backtracks_over_password :
  match_connection "postgresql://u:p:q@host:5432/db"
  = Some {| m_user := Some "u"; m_password := Some "p:q";
            m_hostname := "host"; m_port := "5432"; m_database := "db" |}.
Proof. reflexivity. Qed.

Example retryable_errors :
  isConnectionError econnreset = true /\
  isConnectionError max_clients = true /\
  isConnectionError (error_of_message "Query timeout") = true /\
  isConnectionError not_initialized_error = false /\
  isConnectionError (auth_failure "postgres") = false.
Proof. repeat split. Qed.

(** ** Pool construction guard *)

Lemma truthy_Some_nonempty (h : string) :
  h <> "" -> truthy (Some h) = true.
Proof. destruct h; [congruence | reflexivity]. Qed.

Lemma deferred_symbolic (k : Consts) (c : PoolConfig) (h : string) :
  isSupabase k = true -> cfg_host c = Some h -> h <> "" ->
  is_ipv4_literal h = false -> deferred k c = true.
Proof.
  intros Hk Hh Hne Hip. unfold deferred, host_is_symbolic.
  rewrite Hk, Hh, (truthy_Some_nonempty h Hne). simpl. now rewrite Hip.
Qed.

Lemma getPostgresPool_deferred (k : Consts) (g : Globals) :
  postgresPool g = None -> deferred k (postgresConfig g) = true ->
  getPostgresPool k g = (inl not_initialized_error, g).
Proof.
  intros Hp Hd. unfold getPostgresPool, bind, get. simpl.
  now rewrite Hp, Hd.
Qed.

Lemma getPostgresPool_existing (k : Consts) (g : Globals) (p : Pool) :
  postgresPool g = Some p -> getPostgresPool k g = (inr p, g).
Proof.
  intros Hp. unfold getPostgresPool, bind, get. simpl. now rewrite Hp.
Qed.

Lemma getPostgresPool_eager (k : Consts) (g : Globals) :
  postgresPool g = None -> deferred k (postgresConfig g) = false ->
  getPostgresPool k g =
    (inr (setupPoolHandlers (new_Pool (postgresConfig g))),
     with_pool (Some (setupPoolHandlers (new_Pool (postgresConfig g)))) g).
Proof.
  intros Hp Hd. unfold getPostgresPool, bind, get. simpl.
  now rewrite Hp, Hd.
Qed.


Lemma getPostgresPool_available (k : Consts) (g : Globals) :
  pool_available k g ->
  exists p g',
    getPostgresPool k g = (inr p, g') /\ postgresPool g' = Some p /\
    postgresConfig g' = postgresConfig g /\ poolStats g' = poolStats g /\
    connectionQueue g' = connectionQueue g /\ activeQueries g' = activeQueries g.
Proof.
  intros Hav. destruct (postgresPool g) as [p|] eqn:Hp.
  - exists p, g. rewrite (getPostgresPool_existing k g p Hp).
    repeat split; auto.
  - eexists _, _. rewrite (getPostgresPool_eager k g Hp (Hav Hp)).
    repeat split; auto.
Qed.

(** C9 (as the module behaves). The guard looks at the [host] field of
    [postgresConfig]: for a Supabase target whose [host] field is a
    symbolic name (non-empty and not an IPv4 literal), [getPostgresPool]
    called while no pool exists throws the "pool not initialized" error
    and leaves the state as it was, so no pool is constructed; in every
    other case, a configuration without [host] field included, it
    returns a pool, which is the one stored in [postgresPool] afterwards
    (the existing one, or one it has just built from [postgresConfig]). *)
Theorem getPostgresPool_guard (k : Consts) (g : Globals) :
  (forall h, isSupabase k = true -> cfg_host (postgresConfig g) = Some h ->
             h <> "" -> is_ipv4_literal h = false -> postgresPool g = None ->
     getPostgresPool k g = (inl not_initialized_error, g) /\
     message not_initialized_error =
       Some "PostgreSQL pool not initialized. Call initializePostgresPool() first for Supabase.") /\
  (~ (postgresPool g = None /\ deferred k (postgresConfig g) = true) ->
     exists p g',
       getPostgresPool k g = (inr p, g') /\ postgresPool g' = Some p /\
       (forall p0, postgresPool g = Some p0 -> p = p0 /\ g' = g) /\
       (postgresPool g = None ->
          p = setupPoolHandlers (new_Pool (postgresConfig g)) /\
          g' = with_pool (Some p) g)).
Proof.
  split.
  - intros h Hk Hh Hne Hip Hp. split; [|reflexivity].
    apply getPostgresPool_deferred; [assumption|].
    now apply (deferred_symbolic k _ h).
  - intros Hn. destruct (postgresPool g) as [p|] eqn:Hp.
    + exists p, g. rewrite (getPostgresPool_existing k g p Hp).
      repeat split; try assumption; try congruence.
      all: intros; congruence.
    + destruct (deferred k (postgresConfig g)) eqn:Hd; [exfalso; auto|].
      eexists _, _. rewrite (getPostgresPool_eager k g Hp Hd).
      split; [reflexivity|]. split; [reflexivity|]. split.
      * intros p0 H0. congruence.
      * intros _. split; reflexivity.
Qed.

(** The guard at work: a Supabase host name before resolution, and the
    same target once its host is an address. *)
Lemma getPostgresPool_guard_witness :
  fst (getPostgresPool supabase_consts (supabase_globals "db.abc.supabase.co"))
    = inl not_initialized_error /\
  exists p, fst (getPostgresPool supabase_consts (supabase_globals "10.0.0.7")) = inr p.
Proof.
  split.
  - destruct (proj1 (getPostgresPool_guard supabase_consts
                       (supabase_globals "db.abc.supabase.co"))
                "db.abc.supabase.co") as [-> _]; try reflexivity. discriminate.
  - destruct (proj2 (getPostgresPool_guard supabase_consts (supabase_globals "10.0.0.7")))
      as (p & g' & -> & _).
    + intros [Hnone _]. discriminate Hnone.
    + now exists p.
Defined.

(** C9, counterexample. A Supabase target whose URI names the user
    without a password is not decomposed: the configuration keeps the
    URI as [connectionString] and has no [host] field.  The host of the
    target is a symbolic name and no address has been resolved, yet the
    pool is built when the module loads and [getPostgresPool] returns it
    instead of throwing. *)
Lemma connection_string_target_is_not_deferred :
  exists url g p,
    isSupabase (consts_of passwordless_env) = true /\
    new_URL passwordless_runtime
      (clean_connection_string (default "" (POSTGRES_URL passwordless_env))) = Some url /\
    hostname url = "db.abc.supabase.co" /\
    is_ipv4_literal (hostname url) = false /\
    loaded passwordless_runtime passwordless_env = Some g /\
    cfg_host (postgresConfig g) = None /\
    cfg_connectionString (postgresConfig g)
      = Some "postgresql://postgres@db.abc.supabase.co:5432/postgres" /\
    postgresPool g = Some p /\
    options p = postgresConfig g /\
    getPostgresPool (consts_of passwordless_env) g = (inr p, g).
Proof.
  eexists _, _, _. repeat split; vm_compute; reflexivity.
Qed.

(** ** Pool statistics *)


Lemma updatePoolStats_deferred (k : Consts) (l : Live) (g : Globals) :
  postgresPool g = None -> deferred k (postgresConfig g) = true ->
  updatePoolStats k l g = (inl not_initialized_error, g).
Proof.
  intros Hp Hd. unfold updatePoolStats, bind.
  now rewrite (getPostgresPool_deferred k g Hp Hd).
Qed.

Lemma updatePoolStats_available (k : Consts) (l : Live) (g : Globals) :
  pool_available k g ->
  exists g',
    updatePoolStats k l g = (inr tt, g') /\ is_Some (postgresPool g') /\
    postgresConfig g' = postgresConfig g /\
    poolStats g' = refreshed k l (poolStats g) /\
    connectionQueue g' = connectionQueue g /\ activeQueries g' = activeQueries g.
Proof.
  intros Hav.
  destruct (getPostgresPool_available k g Hav) as (p & g1 & Hget & Hp & Hc & Hs & Hq & Ha).
  exists (with_stats (refreshed k l (poolStats g1)) g1).
  unfold updatePoolStats, bind, modify. rewrite Hget. simpl.
  repeat split; try assumption; try (now rewrite <- Hs); eauto.
Qed.

(** C6 (as the module behaves). [getPoolStats] throws the "pool not
    initialized" error exactly when no pool exists and construction is
    deferred (Supabase target, symbolic host); in every other state it
    returns a snapshot: a copy of the refreshed [poolStats], with the live
    counters, the unchanged error history and
    [isHealthy = total > 0 && idle >= MIN_POOL_SIZE]. *)
Theorem getPoolStats_outcome (k : Consts) (l : Live) (g : Globals) :
  (postgresPool g = None /\ deferred k (postgresConfig g) = true /\
   getPoolStats k l g = (inl not_initialized_error, g))
  \/
  (~ (postgresPool g = None /\ deferred k (postgresConfig g) = true) /\
   exists g',
     getPoolStats k l g = (inr (refreshed k l (poolStats g)), g') /\
     poolStats g' = refreshed k l (poolStats g) /\
     is_Some (postgresPool g')).
Proof.
  destruct (postgresPool g) as [p|] eqn:Hp;
    [|destruct (deferred k (postgresConfig g)) eqn:Hd].
  - right. split; [intros [? _]; discriminate|].
    destruct (updatePoolStats_available k l g) as (g' & Hu & Hsome & _ & Hs & _).
    { intros Hnone. congruence. }
    exists g'. unfold getPoolStats, bind, get, ret. rewrite Hu, Hs. auto.
  - left. repeat split; try assumption.
    unfold getPoolStats, bind. now rewrite (updatePoolStats_deferred k l g Hp Hd).
  - right. split; [intros [_ ?]; discriminate|].
    destruct (updatePoolStats_available k l g) as (g' & Hu & Hsome & _ & Hs & _).
    { intros _. assumption. }
    exists g'. unfold getPoolStats, bind, get, ret. rewrite Hu, Hs. auto.
Qed.


(** C6, counterexample. Right after the module has loaded for a Supabase
    host name, no pool exists yet and [getPoolStats] throws instead of
    returning a snapshot. *)
Lemma getPoolStats_throws_before_init :
  exists g,
    loaded rejecting_runtime supabase_host_env = Some g /\
    forall l, getPoolStats (consts_of supabase_host_env) l g
              = (inl not_initialized_error, g).
Proof.
  eexists. split; [reflexivity|]. intros l. reflexivity.
Qed.

(** ** Backoff *)

(** C3. A retryable failure of attempt [i] (counted from 1) that is not
    the last attempt, be it a rejected query or the timer of the race,
    suspends the call for
    [min (base * 2^(i-1)) 15000] milliseconds, where [base] is 3000 when
    the message contains "MaxClients" and 1000 otherwise, so the base of
    a quota-exhaustion error is strictly the larger. *)
Theorem backoff_delay (k : Consts) (l : Live) (o : RaceOutcome) (t : Task)
  (g : Globals) (i : Z) (e : JsError) :
  1 <= i < retries t -> pc t = AtRace (i - 1) ->
  race_error o = Some e -> isConnectionError e = true ->
  (exists g' evs,
     resume k l o t g =
       (g', at_pc (AtBackoff (i - 1) e) (with_lastErr e t),
        evs ++ [EvBackoff (i - 1)
                  (Z.min ((if includes (or_else (message e) "") "MaxClients"
                           then 3000 else 1000) * 2 ^ (i - 1)) 15000)])%list) /\
  (forall quota generic,
     includes (or_else (message quota) "") "MaxClients" = true ->
     includes (or_else (message generic) "") "MaxClients" = false ->
     baseWaitTime generic < baseWaitTime quota).
Proof.
  intros Hi Hpc Hout Hconn. split.
  - unfold resume. rewrite Hpc.
    destruct (finally_clause k (i - 1) g) as [g' evs] eqn:Hfin.
    exists g', evs.
    assert (emit evs (catch_clause (i - 1) e t g') =
            (g', at_pc (AtBackoff (i - 1) e) (with_lastErr e t),
             (evs ++ [EvBackoff (i - 1) (waitTime e (i - 1))])%list)) as Hcatch.
    { unfold emit, catch_clause. rewrite Hconn. simpl.
      destruct (Z.eqb_spec (i - 1) (retries t - 1)) as [Heq|_]; [lia|].
      reflexivity. }
    destruct o as [r|e'|]; simpl in Hout; [discriminate| |];
      inversion Hout; subst; exact Hcatch.
  - intros quota generic Hq Hg. unfold baseWaitTime. rewrite Hq, Hg. lia.
Qed.

Lemma backoff_delay_witness :
  exists g' evs,
    resume supabase_consts calm (Rejected max_clients)
      (mkTask 3 30000 None (AtRace 1)) (supabase_globals "10.0.0.7") =
      (g', at_pc (AtBackoff 1 max_clients)
             (with_lastErr max_clients (mkTask 3 30000 None (AtRace 1))),
       evs ++ [EvBackoff 1 6000])%list.
Proof.
  exact (proj1 (backoff_delay supabase_consts calm (Rejected max_clients)
                  (mkTask 3 30000 None (AtRace 1))
                  (supabase_globals "10.0.0.7") 2 max_clients
                  ltac:(simpl; lia) eq_refl eq_refl eq_refl)).
Defined.

(** ** Configuration resolution *)

Lemma resolve_after_throw (rt : Runtime) (cs : string) :
  structured_parse rt cs = None -> resolve_urlMatch rt cs = match_connection cs.
Proof. intros H. unfold resolve_urlMatch. now rewrite H. Qed.

Lemma resolve_structured (rt : Runtime) (cs : string) (m : option UrlMatch) :
  structured_parse rt cs = Some m -> resolve_urlMatch rt cs = m.
Proof. intros H. unfold resolve_urlMatch. now rewrite H. Qed.

(** C7 (as the module behaves). Configuration resolution never fails:
    every environment yields a configuration.  The structured parse is
    tried first and the pattern is consulted only when the structured
    parse throws: when it does not throw, [urlMatch] is what it left,
    even [null].  A URI that neither decomposes is kept whole as the
    [connectionString] of a configuration that has no host, port,
    database, user or password field. *)
Theorem postgresConfig_resolution (rt : Runtime) (env : ProcessEnv) :
  (exists c, postgresConfig_of rt env = Resolved c) /\
  (forall cs, structured_parse rt cs = None ->
     resolve_urlMatch rt cs = match_connection cs) /\
  (forall cs m, structured_parse rt cs = Some m -> resolve_urlMatch rt cs = m) /\
  (forall raw, POSTGRES_URL env = Some raw -> raw <> "" -> malformed rt raw ->
     exists c,
       postgresConfig_of rt env = Resolved c /\
       cfg_connectionString c =
         Some (replace_first (clean_connection_string raw) ":6543/" ":5432/") /\
       cfg_host c = None /\ cfg_port c = None /\ cfg_database c = None /\
       cfg_user c = None /\ cfg_password c = None).
Proof.
  repeat split.
  - unfold postgresConfig_of.
    destruct (truthy (POSTGRES_URL env)); [|eauto].
    destruct (resolve_urlMatch rt _); [destruct (isSupabase _)|]; eauto.
  - apply resolve_after_throw.
  - apply resolve_structured.
  - intros raw Hurl Hne [Hs Hm].
    eexists. unfold postgresConfig_of. rewrite Hurl.
    rewrite (truthy_Some_nonempty raw Hne). simpl.
    rewrite (resolve_after_throw rt _ Hs), Hm.
    repeat split.
Qed.

Lemma postgresConfig_resolution_witness :
  exists c,
    postgresConfig_of rejecting_runtime broken_url_env = Resolved c /\
    cfg_connectionString c = Some "not a uri" /\ cfg_host c = None.
Proof.
  destruct (proj2 (proj2 (proj2 (postgresConfig_resolution rejecting_runtime broken_url_env)))
              "not a uri" eq_refl ltac:(discriminate) (conj eq_refl eq_refl))
    as (c & Hc & Hcs & Hhost & _).
  exists c. auto.
Defined.

(** C7, counterexample. A [POSTGRES_URL] that no parser accepts does not
    yield a configuration error: the module builds a configuration around
    the raw string. *)
Lemma malformed_uri_is_accepted :
  malformed rejecting_runtime "not a uri" /\
  postgresConfig_of rejecting_runtime broken_url_env =
    Resolved (config_of_string (consts_of broken_url_env) broken_url_env "not a uri") /\
  ~ (forall rt env raw,
       POSTGRES_URL env = Some raw -> malformed rt raw ->
       postgresConfig_of rt env = ConfigError).
Proof.
  split; [split; reflexivity|]. split; [reflexivity|].
  intros H.
  specialize (H rejecting_runtime broken_url_env "not a uri" eq_refl
                (conj eq_refl eq_refl)).
  discriminate H.
Qed.

(** ** Address resolution and the configuration object *)

Lemma host_rewritten_refl (c : PoolConfig) : host_rewritten c c.
Proof. now left. Qed.

Lemma host_rewritten_set (c : PoolConfig) (h : string) :
  host_rewritten c (set_host h c).
Proof. right. now exists h. Qed.

Lemma host_rewritten_trans (a b c : PoolConfig) :
  host_rewritten a b -> host_rewritten b c -> host_rewritten a c.
Proof.
  intros [->|[h ->]] [->|[h' ->]].
  - now left.
  - right. now exists h'.
  - right. now exists h.
  - right. exists h'. reflexivity.
Qed.

(** What [initializePostgresPool] leaves behind. *)
Lemma initializePostgresPool_effect (k : Consts) (dns : Dns) (g : Globals) :
  exists p g',
    initializePostgresPool k dns g = (inr p, g') /\
    host_rewritten (postgresConfig g) (postgresConfig g') /\
    p = setupPoolHandlers (new_Pool (postgresConfig g')) /\
    postgresPool g' = Some p /\
    poolStats g' = poolStats g /\ connectionQueue g' = connectionQueue g /\
    activeQueries g' = activeQueries g.
Proof.
  unfold initializePostgresPool, bind, get, modify, ret. simpl.
  destruct (deferred k (postgresConfig g)); simpl.
  - destruct (lookup dns _) as [e|result]; simpl.
    + eexists _, _. split; [reflexivity|]. simpl.
      repeat split; auto using host_rewritten_refl.
    + destruct (family result =? 4); simpl.
      * eexists _, _. split; [reflexivity|]. simpl.
        repeat split; auto using host_rewritten_set.
      * destruct (lookup4 dns _) as [e|r4]; simpl.
        -- eexists _, _. split; [reflexivity|]. simpl.
           repeat split; auto using host_rewritten_refl.
        -- eexists _, _. split; [reflexivity|]. simpl.
           repeat split; auto using host_rewritten_set.
  - eexists _, _. split; [reflexivity|]. simpl.
    repeat split; auto using host_rewritten_refl.
Qed.

Lemma first_connection_config (k : Consts) (dns : Dns) (pr : Probes) (g : Globals) :
  host_rewritten (postgresConfig g) (postgresConfig (snd (first_connection k dns pr g))).
Proof.
  unfold first_connection, bind, get. simpl.
  destruct (isSupabase k && negb (bool_decide (is_Some (postgresPool g)))).
  - destruct (initializePostgresPool_effect k dns g)
      as (p & g' & -> & Hc & _ & Hp & _).
    unfold modify. simpl.
    destruct (first_probe pr); exact Hc.
  - unfold ret. simpl.
    destruct (getPostgresPool k g) as [[e|p] g'] eqn:Hget.
    + simpl. unfold getPostgresPool, bind, get in Hget. simpl in Hget.
      destruct (postgresPool g); [discriminate|].
      destruct (deferred k (postgresConfig g)); [|discriminate].
      inversion Hget; subst. apply host_rewritten_refl.
    + assert (postgresConfig g' = postgresConfig g) as Hc.
      { unfold getPostgresPool, bind, get in Hget. simpl in Hget.
        destruct (postgresPool g); [now inversion Hget|].
        destruct (deferred k (postgresConfig g)); [discriminate|].
        now inversion Hget. }
      destruct (first_probe pr); simpl; rewrite Hc; apply host_rewritten_refl.
Qed.

Lemma retry_with_ipv4_config (dns : Dns) (pr : Probes) (g : Globals) :
  host_rewritten (postgresConfig g) (postgresConfig (snd (retry_with_ipv4 dns pr g))).
Proof.
  unfold retry_with_ipv4, bind, get, modify, ret, throw. simpl.
  destruct (resolveHostnameToIPv4 dns _) as [[|a s]|]; simpl;
    try apply host_rewritten_refl.
  destruct (postgresPool g), (end_old_pool pr), (second_probe pr); simpl;
    apply host_rewritten_set.
Qed.

Lemma initializePostgresPool_resolves (k : Consts) (dns : Dns) (g : Globals) :
  exists p g',
    initializePostgresPool k dns g = (inr p, g') /\
    host_resolved k dns (postgresConfig g) (postgresConfig g') /\
    postgresPool g' = Some p /\ options p = postgresConfig g'.
Proof.
  unfold initializePostgresPool, bind, get, modify, ret. simpl.
  destruct (deferred k (postgresConfig g)) eqn:Hdef; simpl.
  - destruct (lookup dns _) as [e|result] eqn:Hlook; simpl.
    + eexists _, _. split; [reflexivity|]. simpl. split; [|split; reflexivity].
      right. split; [|reflexivity]. right.
      intros a [(r & H & _)|(r & r4 & H & _)]; congruence.
    + destruct (family result =? 4) eqn:Hfam; simpl.
      * eexists _, _. split; [reflexivity|]. simpl. split; [|split; reflexivity].
        left. split; [exact Hdef|]. exists (address result). split; [|reflexivity].
        left. exists result. repeat split; [exact Hlook|]. now apply Z.eqb_eq.
      * apply Z.eqb_neq in Hfam.
        destruct (lookup4 dns _) as [e|r4] eqn:Hlook4; simpl.
        -- eexists _, _. split; [reflexivity|]. simpl. split; [|split; reflexivity].
           right. split; [|reflexivity]. right.
           intros a [(r & H & Hf & _)|(r & r4 & _ & _ & H4 & _)]; congruence.
        -- eexists _, _. split; [reflexivity|]. simpl. split; [|split; reflexivity].
           left. split; [exact Hdef|]. exists (address r4). split; [|reflexivity].
           right. exists result, r4. repeat split; assumption.
  - eexists _, _. split; [reflexivity|]. simpl. split; [|split; reflexivity].
    right. split; [now left | reflexivity].
Qed.

Lemma first_connection_resolves (k : Consts) (dns : Dns) (pr : Probes) (g : Globals) :
  exists r g1,
    first_connection k dns pr g = (r, g1) /\
    if isSupabase k && negb (bool_decide (is_Some (postgresPool g)))
    then host_resolved k dns (postgresConfig g) (postgresConfig g1)
    else postgresConfig g1 = postgresConfig g.
Proof.
  unfold first_connection, bind, get. simpl.
  destruct (isSupabase k && negb (bool_decide (is_Some (postgresPool g)))).
  - destruct (initializePostgresPool_resolves k dns g) as (p & g' & -> & Hc & _).
    unfold modify. simpl.
    destruct (first_probe pr); eexists _, _; (split; [reflexivity | exact Hc]).
  - unfold ret. simpl.
    destruct (getPostgresPool k g) as [[e|p] g'] eqn:Hget.
    + eexists _, _. split; [reflexivity|].
      unfold getPostgresPool, bind, get in Hget. simpl in Hget.
      destruct (postgresPool g); [discriminate|].
      destruct (deferred k (postgresConfig g)); [|discriminate].
      now inversion Hget.
    + assert (postgresConfig g' = postgresConfig g) as Hc.
      { unfold getPostgresPool, bind, get in Hget. simpl in Hget.
        destruct (postgresPool g); [now inversion Hget|].
        destruct (deferred k (postgresConfig g)); [discriminate|].
        now inversion Hget. }
      destruct (first_probe pr); eexists _, _; (split; [reflexivity | exact Hc]).
Qed.

(** The tips only write to the log. *)
Lemma log_tips_state (error : JsError) (g : Globals) :
  snd ((log_tips error;;; ret false) g) = g.
Proof.
  unfold log_tips, bind, ret, throw.
  destruct (bool_decide _); [reflexivity|].
  destruct (bool_decide _); [reflexivity|].
  now destruct (message error).
Qed.

(** The state that [testPostgresConnection] leaves: that of its [try]
    block, or that of the inner [try] of its [catch] clause. *)
Lemma testPostgresConnection_state (k : Consts) (dns dns2 : Dns) (pr : Probes)
  (g : Globals) :
  snd (testPostgresConnection k dns dns2 pr g) =
  match first_connection k dns pr g with
  | (inl error, g1) =>
      if bool_decide (code error = Some "ENETUNREACH") && deferred k (postgresConfig g1)
      then snd (retry_with_ipv4 dns2 pr g1)
      else g1
  | (inr _, g1) => g1
  end.
Proof.
  unfold testPostgresConnection.
  destruct (first_connection k dns pr g) as [[error|u] g1]; [|reflexivity].
  destruct (bool_decide _ && deferred k (postgresConfig g1)).
  - destruct (retry_with_ipv4 dns2 pr g1) as [[e|[|]] g2]; simpl;
      try reflexivity; apply log_tips_state.
  - apply log_tips_state.
Qed.

(** The inner [try] of the [catch] clause writes the address it found. *)
Lemma retry_with_ipv4_writes (dns : Dns) (pr : Probes) (g : Globals) (a : ascii)
  (s : string) :
  resolveHostnameToIPv4 dns (default "" (cfg_host (postgresConfig g))) = Some (String a s) ->
  postgresConfig (snd (retry_with_ipv4 dns pr g)) = set_host (String a s) (postgresConfig g) /\
  (postgresPool g = None \/ end_old_pool pr = None ->
   postgresPool (snd (retry_with_ipv4 dns pr g)) =
     Some (setupPoolHandlers (new_Pool (set_host (String a s) (postgresConfig g))))).
Proof.
  intros Hres. unfold retry_with_ipv4, bind, get, modify, ret, throw. simpl.
  rewrite Hres. simpl. split.
  - destruct (postgresPool g), (end_old_pool pr), (second_probe pr); reflexivity.
  - intros [Hnone | Hend].
    + rewrite Hnone. destruct (second_probe pr); reflexivity.
    + rewrite Hend. destruct (postgresPool g), (second_probe pr); reflexivity.
Qed.

(** Without an address it leaves the state as it is. *)
Lemma retry_with_ipv4_keeps (dns : Dns) (pr : Probes) (g : Globals) :
  (forall a s, resolveHostnameToIPv4 dns (default "" (cfg_host (postgresConfig g)))
               <> Some (String a s)) ->
  snd (retry_with_ipv4 dns pr g) = g.
Proof.
  intros Hres. unfold retry_with_ipv4, bind, get, ret. simpl.
  destruct (resolveHostnameToIPv4 dns _) as [[|a s]|]; try reflexivity.
  now destruct (Hres a s).
Qed.

(** C8 (as the module behaves). There is one configuration object and
    address resolution writes into it.
    - [initializePostgresPool] overwrites [host] with the IPv4 answer of
      its lookups when the target is deferred and there is such an
      answer, and leaves the object as it is otherwise; every other
      field stays, and the pool it builds is constructed from the object
      after the write.
    - The [try] block of [testPostgresConnection] does the same when it
      initialises the pool and leaves the object alone when it does not.
    - When that block throws ENETUNREACH for a target that is still
      deferred and [resolveHostnameToIPv4] finds an address, the [catch]
      clause overwrites [host] with that address and (unless ending the
      old pool throws) builds the new pool from the object after the
      write; in every other case it leaves the object as the [try] block
      left it. *)
Theorem resolution_writes_host_in_place (k : Consts) (dns dns2 : Dns)
  (pr : Probes) (g : Globals) :
  (exists p g',
     initializePostgresPool k dns g = (inr p, g') /\
     host_resolved k dns (postgresConfig g) (postgresConfig g') /\
     postgresPool g' = Some p /\ options p = postgresConfig g') /\
  (exists r g1,
     first_connection k dns pr g = (r, g1) /\
     (if isSupabase k && negb (bool_decide (is_Some (postgresPool g)))
      then host_resolved k dns (postgresConfig g) (postgresConfig g1)
      else postgresConfig g1 = postgresConfig g) /\
     ((exists error a s,
         r = inl error /\ code error = Some "ENETUNREACH" /\
         deferred k (postgresConfig g1) = true /\
         resolveHostnameToIPv4 dns2 (default "" (cfg_host (postgresConfig g1)))
           = Some (String a s) /\
         postgresConfig (snd (testPostgresConnection k dns dns2 pr g))
           = set_host (String a s) (postgresConfig g1) /\
         (postgresPool g1 = None \/ end_old_pool pr = None ->
          postgresPool (snd (testPostgresConnection k dns dns2 pr g)) =
            Some (setupPoolHandlers
                    (new_Pool (set_host (String a s) (postgresConfig g1))))))
      \/
      ((forall error a s,
          r = inl error -> code error = Some "ENETUNREACH" ->
          deferred k (postgresConfig g1) = true ->
          resolveHostnameToIPv4 dns2 (default "" (cfg_host (postgresConfig g1)))
            <> Some (String a s)) /\
       snd (testPostgresConnection k dns dns2 pr g) = g1))).
Proof.
  split; [apply initializePostgresPool_resolves|].
  destruct (first_connection_resolves k dns pr g) as (r & g1 & Hfirst & Hc1).
  exists r, g1. split; [exact Hfirst|]. split; [exact Hc1|].
  rewrite testPostgresConnection_state, Hfirst.
  destruct r as [error|u]; [|right; split; [intros; discriminate | reflexivity]].
  destruct (bool_decide (code error = Some "ENETUNREACH")) eqn:Hcode; simpl.
  - apply bool_decide_eq_true in Hcode.
    destruct (deferred k (postgresConfig g1)) eqn:Hdef.
    + destruct (resolveHostnameToIPv4 dns2 (default "" (cfg_host (postgresConfig g1))))
        as [[|a s]|] eqn:Hres.
      * right. split; [intros; congruence|].
        apply retry_with_ipv4_keeps. intros; congruence.
      * left. exists error, a, s.
        destruct (retry_with_ipv4_writes dns2 pr g1 a s Hres) as [Hw Hp].
        repeat split; assumption.
      * right. split; [intros; congruence|].
        apply retry_with_ipv4_keeps. intros; congruence.
    + right. split; [intros; congruence | reflexivity].
  - apply bool_decide_eq_false in Hcode.
    right. split; [|reflexivity].
    intros e a s He Hc. inversion He; subst. contradiction.
Qed.

Lemma resolution_writes_host_in_place_witness :
  exists p g',
    initializePostgresPool supabase_consts dns_ipv6_then_ipv4
      (supabase_globals "db.abc.supabase.co") = (inr p, g') /\
    host_resolved supabase_consts dns_ipv6_then_ipv4
      (postgresConfig (supabase_globals "db.abc.supabase.co")) (postgresConfig g') /\
    postgresPool g' = Some p /\ options p = postgresConfig g'.
Proof.
  exact (proj1 (resolution_writes_host_in_place supabase_consts dns_ipv6_then_ipv4
                  dns_down (mkProbes (Some enetunreach) None None)
                  (supabase_globals "db.abc.supabase.co"))).
Defined.

(** C8, counterexample. The host of the configuration object does change:
    [initializePostgresPool] overwrites it with the address that the
    lookup returned, and so does the ENETUNREACH path of
    [testPostgresConnection] after a first resolution that failed. *)
Lemma config_host_is_overwritten :
  cfg_host (postgresConfig (supabase_globals "db.abc.supabase.co"))
    = Some "db.abc.supabase.co" /\
  cfg_host (postgresConfig
              (snd (initializePostgresPool supabase_consts (dns_ipv4 "203.0.113.5")
                      (supabase_globals "db.abc.supabase.co"))))
    = Some "203.0.113.5" /\
  cfg_host (postgresConfig
              (snd (testPostgresConnection supabase_consts dns_down
                      (dns_ipv4 "203.0.113.5")
                      (mkProbes (Some enetunreach) None None)
                      (supabase_globals "db.abc.supabase.co"))))
    = Some "203.0.113.5".
Proof. repeat split. Qed.

(** ** The admission gate *)

(** C1, the run that breaks the cap. With [MAX_CONCURRENT_QUERIES = 1],
    the gate is tested once, before the loop, and the counter goes up
    later, inside the loop: a caller that retries after its backoff, or
    that waited for the empty pool, goes on without meeting the gate
    again, and [activeQueries] reaches 2 with two queries in their
    race. *)
Theorem admission_cap_overrun :
  MAX_CONCURRENT_QUERIES supabase_consts = 1 /\
  (exists s,
     sys_run supabase_consts (system_init (supabase_globals "10.0.0.7"))
       overrun_after_backoff = Some s /\
     activeQueries (globals s) = 2 /\ racing (tasks s) = 2) /\
  (exists s,
     sys_run supabase_consts (system_init (supabase_globals "10.0.0.7"))
       overrun_at_startup = Some s /\
     activeQueries (globals s) = 2 /\ racing (tasks s) = 2).
Proof.
  split; [reflexivity|].
  split; eexists; (split; [vm_compute; reflexivity|]); split; vm_compute; reflexivity.
Qed.

(** *** What the synchronous helpers leave alone *)

Lemma getPostgresPool_frame (k : Consts) (g : Globals) :
  connectionQueue (snd (getPostgresPool k g)) = connectionQueue g /\
  activeQueries (snd (getPostgresPool k g)) = activeQueries g /\
  poolStats (snd (getPostgresPool k g)) = poolStats g /\
  postgresConfig (snd (getPostgresPool k g)) = postgresConfig g.
Proof.
  unfold getPostgresPool, bind, get, ret, throw, modify. simpl.
  destruct (postgresPool g); [auto|].
  destruct (deferred k (postgresConfig g)); auto.
Qed.

Lemma updatePoolStats_frame (k : Consts) (l : Live) (g : Globals) :
  connectionQueue (snd (updatePoolStats k l g)) = connectionQueue g /\
  activeQueries (snd (updatePoolStats k l g)) = activeQueries g /\
  errors (poolStats (snd (updatePoolStats k l g))) = errors (poolStats g) /\
  postgresConfig (snd (updatePoolStats k l g)) = postgresConfig g.
Proof.
  unfold updatePoolStats, bind, modify.
  pose proof (getPostgresPool_frame k g) as (Hq & Ha & Hs & Hc).
  destruct (getPostgresPool k g) as [[e|p] g']; simpl in *.
  - rewrite Hs. auto.
  - rewrite Hs. auto.
Qed.

Lemma refresh_frame (k : Consts) (l : Live) (g : Globals) :
  connectionQueue (snd ((updatePoolStats k l;;; getPostgresPool k) g)) = connectionQueue g /\
  activeQueries (snd ((updatePoolStats k l;;; getPostgresPool k) g)) = activeQueries g /\
  errors (poolStats (snd ((updatePoolStats k l;;; getPostgresPool k) g)))
    = errors (poolStats g).
Proof.
  assert ((updatePoolStats k l;;; getPostgresPool k) g =
          match updatePoolStats k l g with
          | (inr _, g') => getPostgresPool k g'
          | (inl e, g') => (inl e, g')
          end) as -> by reflexivity.
  pose proof (updatePoolStats_frame k l g) as (Hq & Ha & He & _).
  destruct (updatePoolStats k l g) as [[e|u] g1]; simpl in *; [auto|].
  pose proof (getPostgresPool_frame k g1) as (Hq' & Ha' & Hs' & _).
  destruct (getPostgresPool k g1) as [r g2]; simpl in *.
  rewrite Hq', Ha', Hs'. auto.
Qed.

(** *** Segments that do not touch the queue *)


Lemma quiet_catch_clause (i : Z) (e : JsError) (t : Task) (g g0 : Globals) :
  connectionQueue g = connectionQueue g0 -> quiet g0 (catch_clause i e t g).
Proof.
  intros H. unfold catch_clause.
  destruct (isConnectionError e && negb _); split; simpl; auto.
Qed.

Lemma quiet_begin_query (i : Z) (t : Task) (g g0 : Globals) :
  connectionQueue g = connectionQueue g0 -> quiet g0 (begin_query i t g).
Proof. intros H. split; simpl; auto. Qed.

Lemma quiet_after_full_wait (i : Z) (l : Live) (t : Task) (g g0 : Globals) :
  connectionQueue g = connectionQueue g0 -> quiet g0 (after_full_wait i l t g).
Proof.
  intros H. unfold after_full_wait.
  destruct ((totalCount l =? 0) && (i =? 0)); [split; simpl; auto|].
  now apply quiet_begin_query.
Qed.

Lemma quiet_after_idle_wait (k : Consts) (i : Z) (l : Live) (t : Task) (g g0 : Globals) :
  connectionQueue g = connectionQueue g0 -> quiet g0 (after_idle_wait k i l t g).
Proof.
  intros H. unfold after_idle_wait.
  destruct (geb_num _ _); [split; simpl; auto|].
  now apply quiet_after_full_wait.
Qed.

Lemma quiet_loop_body (k : Consts) (i : Z) (l : Live) (t : Task) (g g0 : Globals) :
  connectionQueue g = connectionQueue g0 -> quiet g0 (loop_body k i l t g).
Proof.
  intros H. unfold loop_body.
  pose proof (refresh_frame k l g) as (Hq & _).
  destruct ((updatePoolStats k l;;; getPostgresPool k) g) as [[e|p] g']; simpl in Hq.
  - apply quiet_catch_clause. congruence.
  - destruct (isSupabase k).
    + destruct ((0 <? totalCount l) && (idleCount l =? 0)).
      * split; simpl; [congruence | auto].
      * apply quiet_after_idle_wait. congruence.
    + apply quiet_after_full_wait. congruence.
Qed.

Lemma quiet_loop (k : Consts) (i : Z) (l : Live) (t : Task) (g g0 : Globals) :
  connectionQueue g = connectionQueue g0 -> quiet g0 (loop k i l t g).
Proof.
  intros H. unfold loop. destruct (i <? retries t).
  - now apply quiet_loop_body.
  - split; simpl; auto.
Qed.















(** ** One call on its own: attempts, backoff and the error counter *)

Section Alone.

Variable k : Consts.
Variable live : nat -> Live.
Variable outcome : Z -> RaceOutcome.

Lemma advances_refl (n : nat) (st : Step) : advances k live outcome 0 n st st.
Proof. intros fuel. simpl. now rewrite Nat.add_0_r. Qed.

Lemma advances_trans (m1 m2 n : nat) (a b c : Step) :
  advances k live outcome m1 n a b ->
  advances k live outcome m2 (n + m1) b c ->
  advances k live outcome (m1 + m2) n a c.
Proof.
  intros H1 H2 fuel. rewrite <- Nat.add_assoc, H1, H2. now rewrite Nat.add_assoc.
Qed.

Lemma advances_step (n : nat) (g : Globals) (t : Task) (evs : list Event) :
  settled (pc t) = false ->
  advances k live outcome 1 n (g, t, evs)
    (emit evs (resume k (live n) (outcome (attempt_index (pc t))) t g)).
Proof. intros H fuel. simpl. rewrite H. now rewrite Nat.add_1_r. Qed.

Lemma run_alone_settled (fuel n : nat) (g : Globals) (t : Task) (evs : list Event) :
  settled (pc t) = true -> run_alone k live outcome fuel n (g, t, evs) = (g, t, evs).
Proof. destruct fuel; simpl; [reflexivity|]. now intros ->. Qed.

Lemma advances_settled (m n fuel : nat) (st : Step) (g : Globals) (t : Task)
  (evs : list Event) :
  advances k live outcome m n st (g, t, evs) -> settled (pc t) = true ->
  (m <= fuel)%nat -> run_alone k live outcome fuel n st = (g, t, evs).
Proof.
  intros Hadv Hset Hle. replace fuel with (m + (fuel - m))%nat by lia.
  rewrite Hadv. now apply run_alone_settled.
Qed.

Lemma silent_nil : silent [].
Proof. repeat split. Qed.

Lemma backoffs_app (a b : list Event) : backoffs (a ++ b) = (backoffs a ++ backoffs b)%list.
Proof. apply omap_app. Qed.

Lemma attempts_app (a b : list Event) : attempts (a ++ b) = (attempts a ++ attempts b)%list.
Proof. apply omap_app. Qed.

Lemma error_increments_app (a b : list Event) :
  error_increments (a ++ b) = error_increments a + error_increments b.
Proof. unfold error_increments. rewrite omap_app, length_app. lia. Qed.

Lemma silent_app (a b : list Event) : silent a -> silent b -> silent (a ++ b).
Proof.
  intros (Ha1 & Ha2 & Ha3) (Hb1 & Hb2 & Hb3). unfold silent.
  rewrite backoffs_app, attempts_app, error_increments_app, Ha1, Ha2, Ha3, Hb1, Hb2, Hb3.
  auto.
Qed.

Lemma silent_sleep (ms : Z) : silent [EvSleep ms].
Proof. repeat split. Qed.

(** From the third test on pool pressure, the race of attempt [i]
    starts after at most one more segment. *)
Lemma race_after_full_wait (n : nat) (i : Z) (l : Live) (t : Task) (g : Globals)
  (evs0 : list Event) :
  is_Some (postgresPool g) ->
  exists m g' sl,
    (m <= 1)%nat /\
    advances k live outcome m n (emit evs0 (after_full_wait i l t g))
      (g', at_pc (AtRace i) t, (evs0 ++ sl ++ [EvBegin i (timeout t)])%list) /\
    silent sl /\ errors (poolStats g') = errors (poolStats g) /\
    is_Some (postgresPool g').
Proof.
  intros Hpool. unfold after_full_wait.
  destruct ((totalCount l =? 0) && (i =? 0)).
  - exists 1%nat, (with_active (activeQueries g + 1) g), [EvSleep 500].
    split; [lia|]. split; [|auto using silent_sleep].
    intros fuel. simpl. rewrite Nat.add_1_r. now rewrite <- !app_assoc.
  - exists 0%nat, (with_active (activeQueries g + 1) g), [].
    split; [lia|]. split; [apply advances_refl | auto using silent_nil].
Qed.

Lemma race_after_idle_wait (n : nat) (i : Z) (l : Live) (t : Task) (g : Globals)
  (evs0 : list Event) :
  is_Some (postgresPool g) ->
  exists m g' sl,
    (m <= 2)%nat /\
    advances k live outcome m n (emit evs0 (after_idle_wait k i l t g))
      (g', at_pc (AtRace i) t, (evs0 ++ sl ++ [EvBegin i (timeout t)])%list) /\
    silent sl /\ errors (poolStats g') = errors (poolStats g) /\
    is_Some (postgresPool g').
Proof.
  intros Hpool. unfold after_idle_wait.
  destruct (geb_num (totalCount l) (POOL_SIZE k)).
  - destruct (race_after_full_wait (n + 1) i (live n) (at_pc (AtFullWait i) t) g
                (evs0 ++ [EvSleep (1000 + i * 300)]) Hpool)
      as (m & g' & sl & Hm & Hadv & Hsl & He & Hp).
    exists (1 + m)%nat, g', ([EvSleep (1000 + i * 300)] ++ sl)%list.
    split; [lia|]. split.
    + intros fuel.
      transitivity (run_alone k live outcome (m + fuel) (n + 1)
                      (emit (evs0 ++ [EvSleep (1000 + i * 300)])
                         (after_full_wait i (live n) (at_pc (AtFullWait i) t) g))).
      { simpl. now rewrite Nat.add_1_r. }
      rewrite Hadv. replace (n + 1 + m)%nat with (n + (1 + m))%nat by lia.
      rewrite <- !app_assoc. reflexivity.
    + split; [apply silent_app; auto using silent_sleep | auto].
  - destruct (race_after_full_wait n i l t g evs0 Hpool)
      as (m & g' & sl & Hm & Hadv & Hrest).
    exists m, g', sl. split; [lia | auto].
Qed.

Lemma refresh_available (l : Live) (g : Globals) :
  pool_available k g ->
  exists p g1,
    (updatePoolStats k l;;; getPostgresPool k) g = (inr p, g1) /\
    is_Some (postgresPool g1) /\
    errors (poolStats g1) = errors (poolStats g).
Proof.
  intros Hav.
  destruct (updatePoolStats_available k l g Hav) as (g1 & Hu & [p Hp] & _ & Hs & _).
  exists p, g1.
  assert ((updatePoolStats k l;;; getPostgresPool k) g =
          match updatePoolStats k l g with
          | (inr _, g') => getPostgresPool k g'
          | (inl e, g') => (inl e, g')
          end) as -> by reflexivity.
  rewrite Hu, (getPostgresPool_existing k g1 p Hp), Hs. eauto.
Qed.

(** Attempt [i] reaches its race: from the head of the loop, at most
    three waits on pool pressure come first. *)
Lemma race_from_loop (n : nat) (i : Z) (l : Live) (t : Task) (g : Globals)
  (evs0 : list Event) :
  i < retries t -> pool_available k g ->
  exists m g' sl,
    (m <= 3)%nat /\
    advances k live outcome m n (emit evs0 (loop k i l t g))
      (g', at_pc (AtRace i) t, (evs0 ++ sl ++ [EvBegin i (timeout t)])%list) /\
    silent sl /\ errors (poolStats g') = errors (poolStats g) /\
    is_Some (postgresPool g').
Proof.
  intros Hi Hav. unfold loop.
  destruct (Z.ltb_spec i (retries t)) as [_|]; [|lia].
  unfold loop_body.
  destruct (refresh_available l g Hav) as (p & g1 & -> & Hpool & He).
  destruct (isSupabase k).
  - destruct ((0 <? totalCount l) && (idleCount l =? 0)).
    + destruct (race_after_idle_wait (n + 1) i (live n) (at_pc (AtIdleWait i) t) g1
                  (evs0 ++ [EvSleep (500 + i * 200)]) Hpool)
        as (m & g' & sl & Hm & Hadv & Hsl & He' & Hp).
      exists (1 + m)%nat, g', ([EvSleep (500 + i * 200)] ++ sl)%list.
      split; [lia|]. split.
      * intros fuel.
        transitivity (run_alone k live outcome (m + fuel) (n + 1)
                        (emit (evs0 ++ [EvSleep (500 + i * 200)])
                           (after_idle_wait k i (live n) (at_pc (AtIdleWait i) t) g1))).
        { simpl. now rewrite Nat.add_1_r. }
        rewrite Hadv. replace (n + 1 + m)%nat with (n + (1 + m))%nat by lia.
        rewrite <- !app_assoc. reflexivity.
      * split; [apply silent_app; auto using silent_sleep|].
        split; [congruence | assumption].
    + destruct (race_after_idle_wait n i l t g1 evs0 Hpool)
        as (m & g' & sl & Hm & Hadv & Hsl & He' & Hp).
      exists m, g', sl. split; [lia|]. repeat split; try apply Hsl; auto. congruence.
  - destruct (race_after_full_wait n i l t g1 evs0 Hpool)
      as (m & g' & sl & Hm & Hadv & Hsl & He' & Hp).
    exists m, g', sl. split; [lia|]. repeat split; try apply Hsl; auto. congruence.
Qed.

Lemma finally_frame (i : Z) (g : Globals) :
  errors (poolStats (fst (finally_clause k i g))) = errors (poolStats g) /\
  postgresPool (fst (finally_clause k i g)) = postgresPool g /\
  postgresConfig (fst (finally_clause k i g)) = postgresConfig g /\
  silent (snd (finally_clause k i g)).
Proof.
  unfold finally_clause. simpl.
  destruct (connectionQueue g); [repeat split|].
  destruct (activeQueries g - 1 <? MAX_CONCURRENT_QUERIES k); repeat split.
Qed.

(** The race of attempt [i] is won by the query. *)
Lemma race_fulfilled (n : nat) (i : Z) (t : Task) (g : Globals) (evs : list Event)
  (r : QueryResult) :
  pc t = AtRace i -> outcome i = Fulfilled r ->
  exists g' fin,
    advances k live outcome 1 n (g, t, evs) (g', at_pc (Returned r) t, (evs ++ fin)%list) /\
    silent fin /\ errors (poolStats g') = errors (poolStats g).
Proof.
  intros Hpc Hout.
  pose proof (finally_frame i g) as (He & _ & _ & Hsl).
  destruct (finally_clause k i g) as [g' fin] eqn:Hfin.
  exists g', fin. split; [|auto].
  intros fuel. simpl. rewrite Hpc. simpl. rewrite Hout.
  unfold resume. rewrite Hpc, Hfin. simpl. now rewrite Nat.add_1_r.
Qed.

(** The race of attempt [i] fails and the error is thrown to the
    caller: it is not retryable, or the attempt was the last. *)
Lemma race_thrown (n : nat) (i : Z) (t : Task) (g : Globals) (evs : list Event)
  (e : JsError) :
  pc t = AtRace i -> race_error (outcome i) = Some e ->
  isConnectionError e = false \/ i = retries t - 1 ->
  exists g' fin,
    advances k live outcome 1 n (g, t, evs)
      (g', at_pc (Thrown e) (with_lastErr e t), (evs ++ fin ++ [EvError])%list) /\
    silent fin /\ errors (poolStats g') = errors (poolStats g) + 1.
Proof.
  intros Hpc Hout Hwhy.
  pose proof (finally_frame i g) as (He & _ & _ & Hsl).
  destruct (finally_clause k i g) as [g' fin] eqn:Hfin. simpl in He, Hsl.
  exists (record_error e g'), fin. split; [|split; [assumption | simpl; lia]].
  intros fuel. simpl. rewrite Hpc. simpl.
  unfold resume. rewrite Hpc, Hfin.
  assert (isConnectionError e && negb (i =? retries (with_lastErr e t) - 1) = false)
    as Hcond.
  { destruct Hwhy as [-> | ->]; [reflexivity|]. simpl.
    rewrite Z.eqb_refl. apply andb_false_r. }
  destruct (outcome i) as [r|e'|]; simpl in Hout; [discriminate| |];
    inversion Hout; subst; unfold catch_clause; rewrite Hcond; simpl;
    now rewrite Nat.add_1_r.
Qed.

(** The race of attempt [i] fails with a retryable error and the
    attempt is not the last: the call backs off, then counts the error
    and is at the head of the loop for attempt [i + 1]. *)
Lemma race_backoff (n : nat) (i : Z) (t : Task) (g : Globals) (evs : list Event)
  (e : JsError) :
  pc t = AtRace i -> race_error (outcome i) = Some e ->
  isConnectionError e = true -> i <> retries t - 1 ->
  is_Some (postgresPool g) ->
  exists g' evs',
    advances k live outcome 2 n (g, t, evs)
      (emit (evs ++ evs')
         (loop k (i + 1) (live (n + 1)) (at_pc (AtBackoff i e) (with_lastErr e t)) g')) /\
    backoffs evs' = [waitTime e i] /\ attempts evs' = [] /\
    error_increments evs' = 1 /\
    errors (poolStats g') = errors (poolStats g) + 1 /\
    pool_available k g'.
Proof.
  intros Hpc Hout Hconn Hnotlast Hpool.
  pose proof (finally_frame i g) as (He & Hp & _ & Hb & Ha & Hc).
  destruct (finally_clause k i g) as [g1 fin] eqn:Hfin. simpl in He, Hp, Hb, Ha, Hc.
  assert (pool_available k (record_error e g1)) as Hav.
  { intros Hnone. simpl in Hnone. rewrite Hp in Hnone.
    destruct Hpool as [p Hsome]. congruence. }
  destruct (updatePoolStats_available k (live (n + 1)) (record_error e g1) Hav)
    as (g2 & Hu & Hsome & _ & Hs & _).
  exists g2, (fin ++ [EvBackoff i (waitTime e i)] ++ [EvError])%list.
  split; [|split; [|split; [|split; [|split]]]].
  - intros fuel.
    assert (isConnectionError e && negb (i =? retries (with_lastErr e t) - 1) = true)
      as Hcond.
    { rewrite Hconn. simpl. destruct (Z.eqb_spec i (retries t - 1)); [lia | reflexivity]. }
    transitivity (run_alone k live outcome (1 + fuel) (n + 1)
                    (g1, at_pc (AtBackoff i e) (with_lastErr e t),
                     (evs ++ fin ++ [EvBackoff i (waitTime e i)])%list)).
    { simpl. rewrite Hpc. simpl. unfold resume. rewrite Hpc, Hfin.
      destruct (outcome i) as [r|e'|]; simpl in Hout; [discriminate| |];
        inversion Hout; subst; unfold catch_clause; rewrite Hcond; simpl;
        now rewrite Nat.add_1_r. }
    simpl. unfold resume. simpl. rewrite Hu.
    replace (S (n + 1)) with (n + 2)%nat by lia.
    f_equal. unfold emit.
    destruct (loop k (i + 1) (live (n + 1)) _ g2) as [[g3 t3] evs3].
    now rewrite <- !app_assoc.
  - rewrite !backoffs_app, Hb. reflexivity.
  - rewrite !attempts_app, Ha. reflexivity.
  - rewrite !error_increments_app, Hc. reflexivity.
  - rewrite Hs. simpl. lia.
  - intros Hnone. destruct Hsome as [p Hp2]. congruence.
Qed.

Lemma seqZ_succ (i : Z) (len : nat) :
  seqZ i (Z.of_nat (S len)) = i :: seqZ (i + 1) (Z.of_nat len).
Proof.
  rewrite seqZ_cons by lia. f_equal. f_equal; lia.
Qed.

Lemma seqZ_snoc (i n : Z) :
  0 <= n -> seqZ i (n + 1) = (seqZ i n ++ [i + n])%list.
Proof.
  intros Hn. rewrite seqZ_app by lia. f_equal.
Qed.

(** [len] attempts in a row, from attempt [i] on, fail with retryable
    errors and none of them is the last attempt: the call comes to the
    head of the loop for attempt [i + len], having backed off once per
    failure and counted one error per failure. *)
Lemma failures_chain (err : Z -> JsError) (len : nat) :
  forall (n : nat) (i : Z) (l : Live) (t : Task) (g : Globals) (evs0 : list Event),
    i + Z.of_nat len < retries t -> pool_available k g ->
    (forall x, i <= x < i + Z.of_nat len ->
       race_error (outcome x) = Some (err x) /\ isConnectionError (err x) = true) ->
    exists m l' t' g' evs',
      (m <= 5 * len)%nat /\
      advances k live outcome m n (emit evs0 (loop k i l t g))
        (emit (evs0 ++ evs') (loop k (i + Z.of_nat len) l' t' g')) /\
      retries t' = retries t /\ timeout t' = timeout t /\
      pool_available k g' /\
      errors (poolStats g') = errors (poolStats g) + Z.of_nat len /\
      backoffs evs' = (fun x => waitTime (err x) x) <$> seqZ i (Z.of_nat len) /\
      attempts evs' = (fun x => (x, timeout t)) <$> seqZ i (Z.of_nat len) /\
      error_increments evs' = Z.of_nat len.
Proof.
  induction len as [|len IH]; intros n i l t g evs0 Hlt Hav Hfail.
  - exists 0%nat, l, t, g, []. split; [lia|]. split.
    + rewrite app_nil_r. replace (i + Z.of_nat 0) with i by lia. apply advances_refl.
    + repeat split; auto; simpl; lia.
  - destruct (race_from_loop n i l t g evs0 ltac:(lia) Hav)
      as (m1 & g1 & sl & Hm1 & Hadv1 & (Hb1 & Ha1 & Hc1) & He1 & Hp1).
    destruct (Hfail i ltac:(lia)) as [Hout Hconn].
    destruct (race_backoff (n + m1) i (at_pc (AtRace i) t) g1
                (evs0 ++ sl ++ [EvBegin i (timeout t)]) (err i)
                eq_refl Hout Hconn ltac:(simpl; lia) Hp1)
      as (g2 & evs2 & Hadv2 & Hb2 & Ha2 & Hc2 & He2 & Hav2).
    destruct (IH (n + m1 + 2)%nat (i + 1) (live (n + m1 + 1))
                (at_pc (AtBackoff i (err i)) (with_lastErr (err i) (at_pc (AtRace i) t)))
                g2 ((evs0 ++ sl ++ [EvBegin i (timeout t)]) ++ evs2)%list
                ltac:(simpl; lia) Hav2)
      as (m3 & l' & t' & g' & evs3 & Hm3 & Hadv3 & Hr & Ht & Hav' & He' & Hb3 & Ha3 & Hc3).
    { intros x Hx. apply Hfail. lia. }
    exists (m1 + 2 + m3)%nat, l', t', g',
      (sl ++ [EvBegin i (timeout t)] ++ evs2 ++ evs3)%list.
    split; [lia|]. split.
    + replace (i + Z.of_nat (S len)) with (i + 1 + Z.of_nat len) by lia.
      replace (evs0 ++ sl ++ [EvBegin i (timeout t)] ++ evs2 ++ evs3)%list
        with (((evs0 ++ sl ++ [EvBegin i (timeout t)]) ++ evs2) ++ evs3)%list
        by (now rewrite <- !app_assoc).
      replace (n + m1 + 2)%nat with (n + (m1 + 2))%nat in Hadv3 by lia.
      eapply advances_trans; [|exact Hadv3].
      eapply advances_trans; [exact Hadv1 | exact Hadv2].
    + split; [exact Hr|]. split; [exact Ht|]. split; [exact Hav'|].
      split; [rewrite He', He2, He1; lia|].
      rewrite seqZ_succ, !fmap_cons.
      rewrite !backoffs_app, !attempts_app, !error_increments_app.
      rewrite Hb1, Hb2, Hb3, Ha1, Ha2, Ha3, Hc1, Hc2, Hc3.
      simpl backoffs. simpl attempts.
      repeat split; simpl; try reflexivity. unfold error_increments. simpl. lia.
Qed.

(** After [kk - 1] retryable failures the attempt of index [kk - 1]
    succeeds. *)
Lemma success_after_failures (err : Z -> JsError) (kk : Z) (r : QueryResult)
  (n : nat) (l : Live) (t : Task) (g : Globals) (evs0 : list Event) :
  1 <= kk <= retries t -> pool_available k g ->
  (forall x, 0 <= x < kk - 1 ->
     race_error (outcome x) = Some (err x) /\ isConnectionError (err x) = true) ->
  outcome (kk - 1) = Fulfilled r ->
  exists m g' t' evs',
    (m <= 5 * Z.to_nat kk)%nat /\
    advances k live outcome m n (emit evs0 (loop k 0 l t g)) (g', t', (evs0 ++ evs')%list) /\
    pc t' = Returned r /\
    backoffs evs' = (fun x => waitTime (err x) x) <$> seqZ 0 (kk - 1) /\
    attempts evs' = (fun x => (x, timeout t)) <$> seqZ 0 kk /\
    error_increments evs' = kk - 1 /\
    errors (poolStats g') = errors (poolStats g) + (kk - 1).
Proof.
  intros Hkk Hav Hfail Hok.
  destruct (failures_chain err (Z.to_nat (kk - 1)) n 0 l t g evs0
              ltac:(lia) Hav)
    as (m1 & l1 & t1 & g1 & evs1 & Hm1 & Hadv1 & Hr & Ht & Hav1 & He1 & Hb1 & Ha1 & Hc1).
  { intros x Hx. apply Hfail. lia. }
  rewrite Z2Nat.id in * by lia.
  replace (0 + (kk - 1)) with (kk - 1) in Hadv1 by lia.
  destruct (race_from_loop (n + m1) (kk - 1) l1 t1 g1 (evs0 ++ evs1) ltac:(lia) Hav1)
    as (m2 & g2 & sl & Hm2 & Hadv2 & (Hb2 & Ha2 & Hc2) & He2 & Hp2).
  destruct (race_fulfilled (n + m1 + m2) (kk - 1) (at_pc (AtRace (kk - 1)) t1) g2
              ((evs0 ++ evs1) ++ sl ++ [EvBegin (kk - 1) (timeout t1)]) r eq_refl Hok)
    as (g3 & fin & Hadv3 & (Hb3 & Ha3 & Hc3) & He3).
  exists (m1 + m2 + 1)%nat, g3, (at_pc (Returned r) (at_pc (AtRace (kk - 1)) t1)),
    (evs1 ++ sl ++ [EvBegin (kk - 1) (timeout t1)] ++ fin)%list.
  split; [lia|]. split.
  - replace (evs0 ++ evs1 ++ sl ++ [EvBegin (kk - 1) (timeout t1)] ++ fin)%list
      with (((evs0 ++ evs1) ++ sl ++ [EvBegin (kk - 1) (timeout t1)]) ++ fin)%list
      by (now rewrite <- !app_assoc).
    replace (n + m1 + m2)%nat with (n + (m1 + m2))%nat in Hadv3 by lia.
    eapply advances_trans; [|exact Hadv3].
    eapply advances_trans; [exact Hadv1 | exact Hadv2].
  - split; [reflexivity|].
    rewrite !backoffs_app, !attempts_app, !error_increments_app.
    rewrite Hb1, Hb2, Hb3, Ha1, Ha2, Ha3, Hc1, Hc2, Hc3, He3, He2, He1, Ht.
    assert (seqZ 0 kk = (seqZ 0 (kk - 1) ++ [kk - 1])%list) as ->.
    { replace kk with (kk - 1 + 1) at 1 by lia. now rewrite seqZ_snoc by lia. }
    rewrite fmap_app.
    repeat split; simpl; rewrite ?app_nil_r; try reflexivity; try lia.
    change (error_increments [EvBegin (kk - 1) (timeout t)]) with 0. lia.
Qed.

(** Attempt [i] fails and its error goes to the caller. *)
Lemma attempt_thrown (e : JsError) (i : Z) (n : nat) (l : Live) (t : Task)
  (g : Globals) (evs0 : list Event) :
  i < retries t -> pool_available k g ->
  race_error (outcome i) = Some e ->
  isConnectionError e = false \/ i = retries t - 1 ->
  exists m g' t' evs',
    (m <= 4)%nat /\
    advances k live outcome m n (emit evs0 (loop k i l t g)) (g', t', (evs0 ++ evs')%list) /\
    pc t' = Thrown e /\
    backoffs evs' = [] /\ attempts evs' = [(i, timeout t)] /\
    error_increments evs' = 1 /\
    errors (poolStats g') = errors (poolStats g) + 1.
Proof.
  intros Hi Hav Hout Hwhy.
  destruct (race_from_loop n i l t g evs0 Hi Hav)
    as (m2 & g2 & sl & Hm2 & Hadv2 & (Hb2 & Ha2 & Hc2) & He2 & Hp2).
  destruct (race_thrown (n + m2) i (at_pc (AtRace i) t) g2
              (evs0 ++ sl ++ [EvBegin i (timeout t)]) e eq_refl Hout Hwhy)
    as (g3 & fin & Hadv3 & (Hb3 & Ha3 & Hc3) & He3).
  exists (m2 + 1)%nat, g3, (at_pc (Thrown e) (with_lastErr e (at_pc (AtRace i) t))),
    (sl ++ [EvBegin i (timeout t)] ++ fin ++ [EvError])%list.
  split; [lia|]. split.
  - replace (evs0 ++ sl ++ [EvBegin i (timeout t)] ++ fin ++ [EvError])%list
      with ((evs0 ++ sl ++ [EvBegin i (timeout t)]) ++ fin ++ [EvError])%list
      by (now rewrite <- !app_assoc).
    eapply advances_trans; [exact Hadv2 | exact Hadv3].
  - split; [reflexivity|].
    rewrite !backoffs_app, !attempts_app, !error_increments_app.
    rewrite Hb2, Hb3, Ha2, Ha3, Hc2, Hc3, He3, He2.
    repeat split; simpl; try reflexivity.
Qed.

(** Every attempt fails with a retryable error. *)
Lemma all_attempts_fail (err : Z -> JsError) (n : nat) (l : Live) (t : Task)
  (g : Globals) (evs0 : list Event) :
  1 <= retries t -> pool_available k g ->
  (forall x, 0 <= x < retries t ->
     race_error (outcome x) = Some (err x) /\ isConnectionError (err x) = true) ->
  exists m g' t' evs',
    (m <= 5 * Z.to_nat (retries t))%nat /\
    advances k live outcome m n (emit evs0 (loop k 0 l t g)) (g', t', (evs0 ++ evs')%list) /\
    pc t' = Thrown (err (retries t - 1)) /\
    backoffs evs' = (fun x => waitTime (err x) x) <$> seqZ 0 (retries t - 1) /\
    attempts evs' = (fun x => (x, timeout t)) <$> seqZ 0 (retries t) /\
    error_increments evs' = retries t /\
    errors (poolStats g') = errors (poolStats g) + retries t.
Proof.
  intros HR Hav Hfail.
  destruct (failures_chain err (Z.to_nat (retries t - 1)) n 0 l t g evs0
              ltac:(lia) Hav)
    as (m1 & l1 & t1 & g1 & evs1 & Hm1 & Hadv1 & Hr & Ht & Hav1 & He1 & Hb1 & Ha1 & Hc1).
  { intros x Hx. apply Hfail. lia. }
  rewrite Z2Nat.id in * by lia.
  replace (0 + (retries t - 1)) with (retries t - 1) in Hadv1 by lia.
  destruct (attempt_thrown (err (retries t - 1)) (retries t - 1) (n + m1) l1 t1 g1
              (evs0 ++ evs1) ltac:(lia) Hav1 (proj1 (Hfail (retries t - 1) ltac:(lia)))
              ltac:(right; lia))
    as (m2 & g2 & t2 & evs2 & Hm2 & Hadv2 & Hpc & Hb2 & Ha2 & Hc2 & He2).
  exists (m1 + m2)%nat, g2, t2, (evs1 ++ evs2)%list.
  split; [lia|]. split.
  - rewrite app_assoc. eapply advances_trans; [exact Hadv1 | exact Hadv2].
  - split; [exact Hpc|].
    rewrite !backoffs_app, !attempts_app, !error_increments_app.
    rewrite Hb1, Hb2, Ha1, Ha2, Hc1, Hc2, He2, He1, Ht.
    assert (seqZ 0 (retries t) = (seqZ 0 (retries t - 1) ++ [retries t - 1])%list) as ->.
    { replace (retries t) with (retries t - 1 + 1) at 1 by lia.
      now rewrite seqZ_snoc by lia. }
    rewrite fmap_app.
    repeat split; simpl; rewrite ?app_nil_r; try reflexivity; try lia.
Qed.

End Alone.

Lemma call_passes (k : Consts) (me : TaskId) (r to : Z) (l : Live) (g : Globals) :
  gate_open k g ->
  queryWithRetry k me r to l g = emit [EvPass] (loop k 0 l (entering k r to) g).
Proof.
  unfold gate_open, queryWithRetry. intros ->. reflexivity.
Qed.

(** Every call is admitted at once or queued: the gate is open, or the
    call appends the caller to the queue and suspends it there. *)
Lemma call_passes_or_queues (k : Consts) (me : TaskId) (r to : Z) (l : Live)
  (g0 : Globals) :
  admits k AtOnce g0 \/
  (admits k (FromQueue g0) g0 /\
   queryWithRetry k me r to l g0 =
     (with_queue (connectionQueue g0 ++ [me])%list g0,
      at_pc AtQueue (entering k r to), [EvEnqueue])).
Proof.
  unfold admits, gate_open, queryWithRetry.
  destruct (isSupabase k && (MAX_CONCURRENT_QUERIES k <=? activeQueries g0)).
  - right. split; [discriminate | reflexivity].
  - now left.
Qed.

(** However a call is admitted, it then runs its loop from the first
    attempt, in the state it finds. *)
Lemma admitted_enters (k : Consts) (me : TaskId) (r to : Z) (l : Live)
  (a : Admission) (g : Globals) :
  admits k a g ->
  exists ev,
    (ev = EvPass \/ ev = EvEnqueue) /\
    admitted k me r to l a g = emit [ev] (loop k 0 l (entering k r to) g).
Proof.
  destruct a as [|g0]; simpl; intros Hgate.
  - exists EvPass. split; [now left|]. now apply call_passes.
  - exists EvEnqueue. split; [now right|].
    unfold gate_open in Hgate. unfold queryWithRetry.
    destruct (isSupabase k && (MAX_CONCURRENT_QUERIES k <=? activeQueries g0));
      [reflexivity | now destruct Hgate].
Qed.

Lemma admission_is_silent (ev : Event) (evs : list Event) :
  ev = EvPass \/ ev = EvEnqueue ->
  backoffs ([ev] ++ evs) = backoffs evs /\
  attempts ([ev] ++ evs) = attempts evs /\
  error_increments ([ev] ++ evs) = error_increments evs.
Proof. intros [-> | ->]; repeat split. Qed.

Lemma not_available (k : Consts) (g : Globals) :
  ~ pool_available k g ->
  postgresPool g = None /\ deferred k (postgresConfig g) = true.
Proof.
  unfold pool_available. intros Hn.
  destruct (postgresPool g) as [p|]; [destruct Hn; discriminate|].
  destruct (deferred k (postgresConfig g)); [now split|].
  destruct Hn. reflexivity.
Qed.

Lemma pool_available_or_not (k : Consts) (g : Globals) :
  pool_available k g \/ ~ pool_available k g.
Proof.
  unfold pool_available.
  destruct (postgresPool g) as [p|]; [left; discriminate|].
  destruct (deferred k (postgresConfig g)); [right | left]; auto.
  intros H. specialize (H eq_refl). discriminate.
Qed.

(** Without a pool that can be handed out, the loop throws at the head of
    its first pass, before any attempt. *)
Lemma loop_not_initialized (k : Consts) (i : Z) (l : Live) (t : Task) (g : Globals) :
  ~ pool_available k g -> i < retries t ->
  loop k i l t g =
    (record_error not_initialized_error g,
     at_pc (Thrown not_initialized_error) (with_lastErr not_initialized_error t),
     [EvError]).
Proof.
  intros Hn Hi. destruct (not_available k g Hn) as [Hnone Hdef].
  unfold loop. destruct (Z.ltb_spec i (retries t)); [|lia].
  unfold loop_body.
  assert ((updatePoolStats k l;;; getPostgresPool k) g = (inl not_initialized_error, g)) as ->.
  { assert ((updatePoolStats k l;;; getPostgresPool k) g =
            match updatePoolStats k l g with
            | (inr _, g') => getPostgresPool k g'
            | (inl e, g') => (inl e, g')
            end) as -> by reflexivity.
    now rewrite (updatePoolStats_deferred k l g Hnone Hdef). }
  reflexivity.
Qed.

Lemma baseWaitTime_pos (e : JsError) : 0 < baseWaitTime e.
Proof. unfold baseWaitTime. destruct (includes _ _); lia. Qed.

Lemma waitTime_grows (e e' : JsError) (i : Z) :
  0 <= i -> baseWaitTime e <= baseWaitTime e' -> waitTime e i <= waitTime e' (i + 1).
Proof.
  intros Hi Hbase. unfold waitTime.
  pose proof (baseWaitTime_pos e) as Hpos.
  assert (0 < 2 ^ i) as Hpow by (apply Z.pow_pos_nonneg; lia).
  rewrite Z.pow_add_r by lia. change (2 ^ 1) with 2.
  apply Z.min_le_compat_r. nia.
Qed.

Lemma backoff_sequence_nondecreasing (err : Z -> JsError) (len : Z) :
  (forall x, 0 <= x < len - 1 -> baseWaitTime (err x) <= baseWaitTime (err (x + 1))) ->
  nondecreasing ((fun x => waitTime (err x) x) <$> seqZ 0 len).
Proof.
  intros Hbase j a b Ha Hb.
  rewrite list_lookup_fmap in Ha, Hb.
  destruct (seqZ 0 len !! j) as [x|] eqn:Hx; [|discriminate].
  destruct (seqZ 0 len !! S j) as [y|] eqn:Hy; [|discriminate].
  apply lookup_seqZ in Hx as [-> Hj]. apply lookup_seqZ in Hy as [-> HSj].
  simpl in Ha, Hb. inversion Ha; inversion Hb; subst.
  replace (0 + Z.of_nat (S j)) with (0 + Z.of_nat j + 1) by lia.
  apply waitTime_grows; [lia|]. apply Hbase. lia.
Qed.

(** C2 (as the module behaves). Take a call of [queryWithRetry],
    admitted at once or queued and later resolved, and let [g] be the
    state in which it enters its loop and [R] the number of attempts it
    works with ([retries], or [min retries 3] on Supabase).
    When the pool is available in [g]:
    - if attempts 1 to [kk - 1] fail with retryable errors and attempt
      [kk <= R] succeeds, the call returns the result of attempt [kk]
      after exactly [kk - 1] backoff waits, the wait after attempt [i]
      being [waitTime] of that attempt's error, and the error counter
      goes up by exactly [kk - 1]; the waits never decrease when the
      bases of successive errors do not decrease (in particular when all
      the failures are of one class);
    - if all [R >= 1] attempts fail with retryable errors, the call
      throws the error of the last attempt after [R - 1] backoff waits
      and the error counter goes up by exactly [R].
    When the pool is not available in [g] there is no attempt to speak
    of: the call throws the "pool not initialized" error at once. *)
Theorem retry_until_success_or_exhaustion (k : Consts) (live : nat -> Live)
  (outcome : Z -> RaceOutcome) (me : TaskId) (retries0 timeout0 : Z)
  (a : Admission) (g : Globals) (err : Z -> JsError) :
  admits k a g ->
  (pool_available k g ->
   (forall kk r,
      1 <= kk <= effective_retries k retries0 ->
      (forall x, 0 <= x < kk - 1 ->
         race_error (outcome x) = Some (err x) /\ isConnectionError (err x) = true) ->
      outcome (kk - 1) = Fulfilled r ->
      exists m g' t' evs,
        (forall fuel, (m <= fuel)%nat ->
           run_alone k live outcome fuel 1
             (admitted k me retries0 timeout0 (live 0%nat) a g)
           = (g', t', evs)) /\
        pc t' = Returned r /\
        backoffs evs = (fun x => waitTime (err x) x) <$> seqZ 0 (kk - 1) /\
        attempts evs = (fun x => (x, effective_timeout k timeout0)) <$> seqZ 0 kk /\
        Z.of_nat (length (backoffs evs)) = kk - 1 /\
        error_increments evs = kk - 1 /\
        errors (poolStats g') = errors (poolStats g) + (kk - 1) /\
        ((forall x, 0 <= x < kk - 2 -> baseWaitTime (err x) <= baseWaitTime (err (x + 1))) ->
         nondecreasing (backoffs evs))) /\
   (1 <= effective_retries k retries0 ->
    (forall x, 0 <= x < effective_retries k retries0 ->
       race_error (outcome x) = Some (err x) /\ isConnectionError (err x) = true) ->
    exists m g' t' evs,
      (forall fuel, (m <= fuel)%nat ->
         run_alone k live outcome fuel 1
           (admitted k me retries0 timeout0 (live 0%nat) a g)
         = (g', t', evs)) /\
      pc t' = Thrown (err (effective_retries k retries0 - 1)) /\
      attempts evs =
        (fun x => (x, effective_timeout k timeout0))
          <$> seqZ 0 (effective_retries k retries0) /\
      Z.of_nat (length (backoffs evs)) = effective_retries k retries0 - 1 /\
      error_increments evs = effective_retries k retries0 /\
      errors (poolStats g') = errors (poolStats g) + effective_retries k retries0)) /\
  (~ pool_available k g -> 1 <= effective_retries k retries0 ->
   exists g' t' evs,
     (forall fuel,
        run_alone k live outcome fuel 1
          (admitted k me retries0 timeout0 (live 0%nat) a g)
        = (g', t', evs)) /\
     pc t' = Thrown not_initialized_error /\
     attempts evs = [] /\ backoffs evs = []).
Proof.
  intros Hgate.
  destruct (admitted_enters k me retries0 timeout0 (live 0%nat) a g Hgate)
    as (ev & Hev & ->).
  split; [intros Hav; split|].
  - intros kk r Hkk Hfail Hok.
    destruct (success_after_failures k live outcome err kk r 1 (live 0%nat)
                (entering k retries0 timeout0) g [ev] Hkk Hav Hfail Hok)
      as (m & g' & t' & evs' & _ & Hadv & Hpc & Hb & Ha & Hc & He).
    exists m, g', t', ([ev] ++ evs')%list.
    split.
    { intros fuel Hfuel. apply (advances_settled k live outcome m 1 fuel _ g' t' _ Hadv);
        [now rewrite Hpc | assumption]. }
    split; [exact Hpc|].
    destruct (admission_is_silent ev evs' Hev) as (-> & -> & ->).
    rewrite Hb, length_fmap, length_seqZ.
    repeat split; try assumption; try lia.
    intros Hbase. apply backoff_sequence_nondecreasing.
    intros x Hx. apply Hbase. lia.
  - intros HR Hfail.
    destruct (all_attempts_fail k live outcome err 1 (live 0%nat)
                (entering k retries0 timeout0) g [ev] HR Hav Hfail)
      as (m & g' & t' & evs' & _ & Hadv & Hpc & Hb & Ha & Hc & He).
    exists m, g', t', ([ev] ++ evs')%list.
    split.
    { intros fuel Hfuel. apply (advances_settled k live outcome m 1 fuel _ g' t' _ Hadv);
        [now rewrite Hpc | assumption]. }
    split; [exact Hpc|].
    destruct (admission_is_silent ev evs' Hev) as (-> & -> & ->).
    rewrite Hb, length_fmap, length_seqZ.
    simpl in *. repeat split; try assumption; try lia.
  - intros Hn HR.
    rewrite (loop_not_initialized k 0 (live 0%nat) (entering k retries0 timeout0) g Hn
             ltac:(simpl; lia)).
    eexists _, _, _. split.
    { intros fuel. apply run_alone_settled. reflexivity. }
    destruct Hev as [-> | ->]; repeat split.
Qed.

Lemma sample_pool_available : pool_available supabase_consts (supabase_globals "10.0.0.7").
Proof. intros H. discriminate H. Qed.

Lemma retry_until_success_or_exhaustion_witness :
  exists m g' t' evs,
    (forall fuel, (m <= fuel)%nat ->
       run_alone supabase_consts (fun _ => calm) fails_once fuel 1
         (admitted supabase_consts 1%nat 3 30000 calm (FromQueue one_in_flight)
            (supabase_globals "10.0.0.7"))
       = (g', t', evs)) /\
    pc t' = Returned (Rows []) /\
    backoffs evs = [1000] /\
    attempts evs = [(0, 30000); (1, 30000)] /\
    errors (poolStats g') = 1.
Proof.
  destruct (proj1 (proj1 (retry_until_success_or_exhaustion supabase_consts (fun _ => calm)
                     fails_once 1%nat 3 30000 (FromQueue one_in_flight)
                     (supabase_globals "10.0.0.7")
                     (fun _ => econnreset) ltac:(vm_compute; discriminate))
                    sample_pool_available)
              2 (Rows []))
    as (m & g' & t' & evs & Hrun & Hpc & Hb & Ha & _ & _ & He & _).
  - change (1 <= 2 <= 3). lia.
  - intros x Hx. assert (x = 0) as -> by lia. split; reflexivity.
  - reflexivity.
  - exists m, g', t', evs. repeat split; assumption.
Defined.

(** C2, counterexample. The waits need not grow: the base is chosen from
    the error of each attempt, so a quota error (wait 3000 ms) followed
    by a connection reset (wait 2000 ms) gives a second wait that is
    shorter than the first, both errors being retryable and the third
    attempt succeeding. *)
Lemma backoff_waits_can_decrease :
  isConnectionError max_clients = true /\
  isConnectionError econnreset = true /\
  pc (sample_run quota_then_reset).1.2 = Returned (Rows []) /\
  backoffs (sample_run quota_then_reset).2 = [3000; 2000] /\
  ~ nondecreasing (backoffs (sample_run quota_then_reset).2).
Proof.
  split; [reflexivity|]. split; [reflexivity|].
  split; [vm_compute; reflexivity|].
  assert (backoffs (sample_run quota_then_reset).2 = [3000; 2000]) as Hb
    by (vm_compute; reflexivity).
  split; [exact Hb|]. rewrite Hb. intros Hmono.
  specialize (Hmono 0%nat 3000 2000 eq_refl eq_refl). lia.
Qed.

(** ** Errors that are not retried *)

Lemma auth_code_not_retryable (e : JsError) :
  code e = Some "28P01" -> retryable_wording (or_else (message e) "") = false ->
  isConnectionError e = false.
Proof.
  intros Hcode Hmsg. unfold isConnectionError. rewrite Hcode.
  unfold retryable_wording in Hmsg. simpl. exact Hmsg.
Qed.

(** C4 (as the module behaves). Take a call with at least one attempt
    to make, admitted at once or queued and later resolved.  When its
    first attempt is refused with code 28P01 and a message that contains
    none of the retryable fragments, the call makes exactly one attempt,
    waits for no backoff and throws that error, whatever [retries] is.
    (A first attempt is made exactly when the pool is available in the
    state in which the call enters its loop; otherwise the call throws
    the "pool not initialized" error without an attempt.) *)
Theorem auth_failure_is_not_retried (k : Consts) (live : nat -> Live)
  (outcome : Z -> RaceOutcome) (me : TaskId) (retries0 timeout0 : Z)
  (a : Admission) (g : Globals) (e : JsError) :
  admits k a g ->
  1 <= effective_retries k retries0 ->
  code e = Some "28P01" -> retryable_wording (or_else (message e) "") = false ->
  outcome 0 = Rejected e ->
  exists m g' t' evs,
    (forall fuel, (m <= fuel)%nat ->
       run_alone k live outcome fuel 1 (admitted k me retries0 timeout0 (live 0%nat) a g)
       = (g', t', evs)) /\
    backoffs evs = [] /\
    error_increments evs = 1 /\
    errors (poolStats g') = errors (poolStats g) + 1 /\
    (pool_available k g ->
     pc t' = Thrown e /\ attempts evs = [(0, effective_timeout k timeout0)]) /\
    (~ pool_available k g ->
     pc t' = Thrown not_initialized_error /\ attempts evs = []).
Proof.
  intros Hgate HR Hcode Hmsg Hout.
  destruct (admitted_enters k me retries0 timeout0 (live 0%nat) a g Hgate)
    as (ev & Hev & ->).
  destruct (pool_available_or_not k g) as [Hav | Hn].
  - destruct (attempt_thrown k live outcome e 0 1 (live 0%nat)
                (entering k retries0 timeout0) g [ev])
      as (m & g' & t' & evs' & _ & Hadv & Hpc & Hb & Ha & Hc & He).
    + simpl. lia.
    + exact Hav.
    + now rewrite Hout.
    + left. now apply auth_code_not_retryable.
    + exists m, g', t', ([ev] ++ evs')%list.
      split.
      { intros fuel Hfuel.
        apply (advances_settled k live outcome m 1 fuel _ g' t' _ Hadv);
          [now rewrite Hpc | assumption]. }
      destruct (admission_is_silent ev evs' Hev) as (-> & -> & ->).
      split; [exact Hb|]. split; [exact Hc|]. split; [exact He|]. split.
      * intros _. split; assumption.
      * intros Hn. now destruct Hn.
  - rewrite (loop_not_initialized k 0 (live 0%nat) (entering k retries0 timeout0) g Hn
               ltac:(simpl; lia)).
    exists 0%nat. eexists _, _, _. split.
    { intros fuel _. apply run_alone_settled. reflexivity. }
    split; [now destruct Hev as [-> | ->]|].
    split; [now destruct Hev as [-> | ->]|].
    split; [reflexivity|]. split.
    + intros Hav. now destruct Hn.
    + intros _. split; [reflexivity|]. now destruct Hev as [-> | ->].
Qed.

Lemma auth_failure_is_not_retried_witness :
  exists m g' t' evs,
    (forall fuel, (m <= fuel)%nat ->
       run_alone supabase_consts (fun _ => calm) (always_rejected (auth_failure "postgres"))
         fuel 1
         (admitted supabase_consts 1%nat 3 30000 calm (FromQueue one_in_flight)
            (supabase_globals "10.0.0.7"))
       = (g', t', evs)) /\
    pc t' = Thrown (auth_failure "postgres") /\
    attempts evs = [(0, 30000)] /\ backoffs evs = [].
Proof.
  destruct (auth_failure_is_not_retried supabase_consts (fun _ => calm)
              (always_rejected (auth_failure "postgres")) 1%nat 3 30000
              (FromQueue one_in_flight)
              (supabase_globals "10.0.0.7") (auth_failure "postgres")
              ltac:(vm_compute; discriminate) ltac:(change (1 <= 3); lia)
              eq_refl eq_refl eq_refl)
    as (m & g' & t' & evs & Hrun & Hb & _ & _ & Hav & _).
  destruct (Hav sample_pool_available) as [Hpc Ha].
  exists m, g', t', evs. repeat split; assumption.
Defined.

(** C4, counterexample. Retrying is decided by the wording of the
    message as well as by the code: a password rejection (code 28P01)
    for a role whose name contains "timeout" is classified as a
    connection error, and the call makes all three attempts, with two
    backoff waits, before it throws. *)
Lemma auth_failure_can_be_retried :
  code (auth_failure "timeout_svc") = Some "28P01" /\
  isConnectionError (auth_failure "timeout_svc") = true /\
  pc (sample_run (always_rejected (auth_failure "timeout_svc"))).1.2
    = Thrown (auth_failure "timeout_svc") /\
  attempts (sample_run (always_rejected (auth_failure "timeout_svc"))).2
    = [(0, 30000); (1, 30000); (2, 30000)] /\
  backoffs (sample_run (always_rejected (auth_failure "timeout_svc"))).2
    = [1000; 2000].
Proof. repeat split; vm_compute; reflexivity. Qed.

(** ** The clamping of the arguments *)

Lemma keeps_locals_emit (t : Task) (evs : list Event) (st : Step) :
  keeps_locals t st -> keeps_locals t (emit evs st).
Proof. destruct st as [[g' t'] evs']. exact id. Qed.

Lemma keeps_locals_catch_clause (i : Z) (e : JsError) (t : Task) (g : Globals) :
  keeps_locals t (catch_clause i e t g).
Proof. unfold catch_clause. destruct (_ && _); split; reflexivity. Qed.

Lemma keeps_locals_after_full_wait (i : Z) (l : Live) (t : Task) (g : Globals) :
  keeps_locals t (after_full_wait i l t g).
Proof. unfold after_full_wait. destruct (_ && _); split; reflexivity. Qed.

Lemma keeps_locals_after_idle_wait (k : Consts) (i : Z) (l : Live) (t : Task)
  (g : Globals) :
  keeps_locals t (after_idle_wait k i l t g).
Proof.
  unfold after_idle_wait. destruct (geb_num _ _); [split; reflexivity|].
  apply keeps_locals_after_full_wait.
Qed.

Lemma keeps_locals_loop (k : Consts) (i : Z) (l : Live) (t : Task) (g : Globals) :
  keeps_locals t (loop k i l t g).
Proof.
  unfold loop. destruct (i <? retries t); [|split; reflexivity].
  unfold loop_body.
  destruct ((updatePoolStats k l;;; getPostgresPool k) g) as [[e|p] g'].
  - apply keeps_locals_catch_clause.
  - destruct (isSupabase k).
    + destruct (_ && _); [split; reflexivity|]. apply keeps_locals_after_idle_wait.
    + apply keeps_locals_after_full_wait.
Qed.

Lemma keeps_locals_resume (k : Consts) (l : Live) (o : RaceOutcome) (t : Task)
  (g : Globals) :
  keeps_locals t (resume k l o t g).
Proof.
  unfold resume. destruct (pc t) as [| |i|i|i|i|i e|r|e].
  - split; reflexivity.
  - apply keeps_locals_loop.
  - apply keeps_locals_after_idle_wait.
  - apply keeps_locals_after_full_wait.
  - split; reflexivity.
  - destruct (finally_clause k i g) as [g' evs].
    destruct o; [split; reflexivity| |];
      apply keeps_locals_emit, keeps_locals_catch_clause.
  - destruct (updatePoolStats k l (record_error e g)) as [[e'|u] g'].
    + split; reflexivity.
    + apply keeps_locals_emit, keeps_locals_loop.
  - split; reflexivity.
  - split; reflexivity.
Qed.

Lemma keeps_locals_call (k : Consts) (me : TaskId) (r to : Z) (l : Live) (g : Globals) :
  keeps_locals (entering k r to) (queryWithRetry k me r to l g).
Proof.
  unfold queryWithRetry.
  destruct (isSupabase k && _).
  - split; reflexivity.
  - apply keeps_locals_emit. apply (keeps_locals_loop k 0 l (entering k r to) g).
Qed.

(** C10. On a Supabase target the call works with [min retries 3] and
    [min timeout 30000] whatever the caller passed: these are its locals
    after the call and every later segment keeps them; the call behaves
    as the call with the clamped arguments; and when every attempt fails
    with a retryable error, the attempts made are exactly those of
    index 0 to [min retries 3 - 1], each racing a timer of
    [min timeout 30000] milliseconds. *)
Theorem supabase_clamps_retries_and_timeout (k : Consts) (live : nat -> Live)
  (outcome : Z -> RaceOutcome) (me : TaskId) (retries0 timeout0 : Z) (g : Globals)
  (err : Z -> JsError) :
  isSupabase k = true ->
  (forall l,
     retries (queryWithRetry k me retries0 timeout0 l g).1.2 = Z.min retries0 3 /\
     timeout (queryWithRetry k me retries0 timeout0 l g).1.2 = Z.min timeout0 30000) /\
  (forall l o t g', keeps_locals t (resume k l o t g')) /\
  (forall l,
     queryWithRetry k me retries0 timeout0 l g =
     queryWithRetry k me (Z.min retries0 3) (Z.min timeout0 30000) l g) /\
  (gate_open k g -> pool_available k g ->
   (forall x, 0 <= x < Z.min retries0 3 ->
      race_error (outcome x) = Some (err x) /\ isConnectionError (err x) = true) ->
   exists m g' t' evs,
     (forall fuel, (m <= fuel)%nat ->
        run_alone k live outcome fuel 1 (queryWithRetry k me retries0 timeout0 (live 0%nat) g)
        = (g', t', evs)) /\
     settled (pc t') = true /\
     attempts evs = (fun x => (x, Z.min timeout0 30000)) <$> seqZ 0 (Z.min retries0 3)).
Proof.
  intros Hk.
  assert (effective_retries k retries0 = Z.min retries0 3) as HR
    by (unfold effective_retries; now rewrite Hk).
  assert (effective_timeout k timeout0 = Z.min timeout0 30000) as HT
    by (unfold effective_timeout; now rewrite Hk).
  split; [|split; [|split]].
  - intros l. destruct (keeps_locals_call k me retries0 timeout0 l g) as [-> ->].
    simpl. now rewrite HR, HT.
  - intros l o t g'. apply keeps_locals_resume.
  - intros l. unfold queryWithRetry. rewrite Hk.
    replace (Z.min (Z.min retries0 3) 3) with (Z.min retries0 3) by lia.
    replace (Z.min (Z.min timeout0 30000) 30000) with (Z.min timeout0 30000) by lia.
    reflexivity.
  - intros Hgate Hav Hfail.
    rewrite (call_passes k me retries0 timeout0 (live 0%nat) g Hgate).
    destruct (Z_lt_le_dec 0 (Z.min retries0 3)) as [Hpos | Hnone].
    + destruct (all_attempts_fail k live outcome err 1 (live 0%nat)
                  (entering k retries0 timeout0) g [EvPass])
        as (m & g' & t' & evs' & _ & Hadv & Hpc & _ & Ha & _).
      * simpl. lia.
      * exact Hav.
      * simpl. rewrite HR. exact Hfail.
      * exists m, g', t', ([EvPass] ++ evs')%list.
        split.
        { intros fuel Hfuel.
          apply (advances_settled k live outcome m 1 fuel _ g' t' _ Hadv);
            [now rewrite Hpc | assumption]. }
        split; [now rewrite Hpc|].
        change (attempts ([EvPass] ++ evs')) with (attempts evs').
        rewrite Ha. simpl. now rewrite HR, HT.
    + eexists 0%nat, _, _, _. split.
      { intros fuel _. unfold loop. simpl retries. rewrite HR.
        destruct (Z.ltb_spec 0 (Z.min retries0 3)) as [|_]; [lia|].
        apply run_alone_settled. reflexivity. }
      split; [reflexivity|]. now rewrite seqZ_nil by lia.
Qed.

Lemma supabase_clamps_retries_and_timeout_witness :
  retries (queryWithRetry supabase_consts 1%nat 10 120000 calm
             (supabase_globals "10.0.0.7")).1.2 = 3 /\
  timeout (queryWithRetry supabase_consts 1%nat 10 120000 calm
             (supabase_globals "10.0.0.7")).1.2 = 30000.
Proof.
  exact (proj1 (supabase_clamps_retries_and_timeout supabase_consts (fun _ => calm)
                  always_reset 1%nat 10 120000 (supabase_globals "10.0.0.7")
                  (fun _ => econnreset) eq_refl) calm).
Defined.

(** * Further properties of the module *)

(** ** Detection of the target and of address literals *)

Lemma prefix_app_weaken (p q s : string) :
  String.prefix (p ++ q) s = true -> String.prefix p s = true.
Proof.
  revert s. induction p as [|a p IH]; intros s H; [now destruct s|].
  destruct s as [|b s]; simpl in *; [discriminate|].
  destruct (Ascii.ascii_dec a b); [now apply IH | discriminate].
Qed.

Lemma includes_weaken (s p q : string) :
  includes s (p ++ q) = true -> includes s p = true.
Proof.
  induction s as [|a s IH]; cbn [includes]; intros H.
  - apply orb_true_iff in H as [H|H]; [|discriminate].
    apply prefix_app_weaken in H. now rewrite H.
  - apply orb_true_iff in H as [H|H].
    + apply prefix_app_weaken in H. now rewrite H.
    + rewrite (IH H). apply orb_true_r.
Qed.

Lemma includes_empty_string (sub : string) :
  sub <> "" -> includes "" sub = false.
Proof. destruct sub; [congruence | reflexivity]. Qed.

Lemma env_test_mentions (o : option string) :
  env_test o mentions_supabase = includes (default "" o) "supabase.co".
Proof.
  unfold env_test, mentions_supabase.
  assert (forall s, includes s "supabase.co" || includes s "supabase.com"
                    = includes s "supabase.co") as Hsame.
  { intros s. destruct (includes s "supabase.co") eqn:Hco; [reflexivity|].
    destruct (includes s "supabase.com") eqn:Hcom; [|reflexivity].
    apply (includes_weaken s "supabase.co" "m") in Hcom. congruence. }
  rewrite Hsame. destruct o as [[|a s]|]; reflexivity.
Qed.

(** X1. A target is taken for Supabase exactly when [POSTGRES_URL] or
    [POSTGRES_HOST] contains "supabase.co": the tests for "supabase.com"
    and for the variables being set never change the answer. *)
Theorem isSupabase_is_one_substring_test (env : ProcessEnv) :
  isSupabase_of env =
  includes (default "" (POSTGRES_URL env)) "supabase.co" ||
  includes (default "" (POSTGRES_HOST env)) "supabase.co".
Proof. unfold isSupabase_of. now rewrite !env_test_mentions. Qed.

Lemma split_on_cons (sep : ascii) (s : string) :
  exists seg segs, split_on sep s = seg :: segs.
Proof.
  induction s as [|a s (seg & segs & IH)]; simpl; [eauto|].
  destruct (Ascii.eqb a sep); [eauto|]. rewrite IH. eauto.
Qed.

(** Splitting, then joining, gives the string back. *)
Lemma join_split (sep : ascii) (s : string) :
  join_with sep (split_on sep s) = s.
Proof.
  induction s as [|a s IH]; [reflexivity|].
  destruct (split_on_cons sep s) as (seg & segs & Hs).
  cbn [split_on]. rewrite Hs in *.
  destruct (Ascii.eqb_spec a sep) as [->|Hne].
  - change (join_with sep ("" :: seg :: segs))
      with (String sep (join_with sep (seg :: segs))).
    now rewrite IH.
  - destruct segs as [|seg' segs].
    + simpl in *. now rewrite IH.
    + change (join_with sep (String a seg :: seg' :: segs))
        with (String a (seg ++ String sep (join_with sep (seg' :: segs)))).
      change (join_with sep (seg :: seg' :: segs))
        with (seg ++ String sep (join_with sep (seg' :: segs))) in IH.
      now rewrite IH.
Qed.

Lemma all_chars_app (p : ascii -> bool) (a b : string) :
  all_chars p (a ++ b) = all_chars p a && all_chars p b.
Proof.
  induction a as [|c a IH]; simpl; [reflexivity|]. rewrite IH. apply andb_assoc.
Qed.

(** A segment without the separator is not split. *)
Lemma split_on_segment (sep : ascii) (seg rest : string) :
  all_chars (fun a => negb (Ascii.eqb a sep)) seg = true ->
  split_on sep (seg ++ String sep rest) = seg :: split_on sep rest /\
  split_on sep seg = [seg].
Proof.
  induction seg as [|a seg IH]; simpl; intros H.
  - now rewrite Ascii.eqb_refl.
  - apply andb_true_iff in H as [Ha Hseg]. apply negb_true_iff in Ha. rewrite Ha.
    destruct (IH Hseg) as [-> ->]. auto.
Qed.

Lemma digits_have_no_dot (s : string) :
  all_chars is_digit s = true ->
  all_chars (fun a => negb (Ascii.eqb a ".")) s = true.
Proof.
  induction s as [|a s IH]; simpl; [reflexivity|]. intros H.
  apply andb_true_iff in H as [Ha Hs]. rewrite (IH Hs), andb_true_r.
  apply negb_true_iff. destruct (Ascii.eqb_spec a "."); [subst; discriminate | reflexivity].
Qed.

Lemma digits1_all (s : string) : digits1 s = true -> all_chars is_digit s = true.
Proof. destruct s; [discriminate | exact id]. Qed.

(** X2. The address test accepts exactly the strings made of four
    non-empty runs of decimal digits separated by three dots; it does
    not look at the value of a run. *)
Theorem is_ipv4_literal_dotted_quad (host : string) :
  is_ipv4_literal host = true <->
  exists a b c d,
    digits1 a = true /\ digits1 b = true /\ digits1 c = true /\ digits1 d = true /\
    host = a ++ "." ++ b ++ "." ++ c ++ "." ++ d.
Proof.
  split.
  - unfold is_ipv4_literal. intros H.
    pose proof (join_split "." host) as Hjoin.
    destruct (split_on "." host) as [|a [|b [|c [|d [|e rest]]]]]; try discriminate.
    apply andb_true_iff in H as [H Hd]. apply andb_true_iff in H as [H Hc].
    apply andb_true_iff in H as [Ha Hb].
    exists a, b, c, d. repeat split; try assumption.
    simpl in Hjoin. now rewrite <- Hjoin.
  - intros (a & b & c & d & Ha & Hb & Hc & Hd & ->).
    unfold is_ipv4_literal.
    pose proof (digits_have_no_dot a (digits1_all a Ha)) as Na.
    pose proof (digits_have_no_dot b (digits1_all b Hb)) as Nb.
    pose proof (digits_have_no_dot c (digits1_all c Hc)) as Nc.
    pose proof (digits_have_no_dot d (digits1_all d Hd)) as Nd.
    change (a ++ "." ++ b ++ "." ++ c ++ "." ++ d)
      with (a ++ String "." (b ++ String "." (c ++ String "." d))).
    rewrite (proj1 (split_on_segment "." a _ Na)).
    rewrite (proj1 (split_on_segment "." b _ Nb)).
    rewrite (proj1 (split_on_segment "." c _ Nc)).
    rewrite (proj2 (split_on_segment "." d "" Nd)).
    now rewrite Ha, Hb, Hc, Hd.
Qed.

Lemma prefix_all_chars (p : ascii -> bool) (sub s : string) :
  String.prefix sub s = true -> all_chars p s = true -> all_chars p sub = true.
Proof.
  revert s. induction sub as [|a sub IH]; intros s Hpre Hall; [reflexivity|].
  destruct s as [|b s]; simpl in *; [discriminate|].
  destruct (Ascii.ascii_dec a b) as [->|]; [|discriminate].
  apply andb_true_iff in Hall as [Hb Hs]. rewrite Hb. simpl. now apply (IH s).
Qed.

Lemma includes_all_chars (p : ascii -> bool) (s sub : string) :
  includes s sub = true -> all_chars p s = true -> all_chars p sub = true.
Proof.
  induction s as [|a s IH]; cbn [includes]; intros Hinc Hall.
  - apply orb_true_iff in Hinc as [H|H]; [|discriminate].
    now apply (prefix_all_chars p sub "").
  - apply orb_true_iff in Hinc as [H|H].
    + now apply (prefix_all_chars p sub (String a s)).
    + simpl in Hall. apply andb_true_iff in Hall as [_ Hs]. now apply IH.
Qed.

Lemma digits_are_digit_or_dot (s : string) :
  digits1 s = true -> all_chars digit_or_dot s = true.
Proof.
  intros H. apply digits1_all in H.
  induction s as [|a s IH]; [reflexivity|]. simpl in *.
  apply andb_true_iff in H as [Ha Hs]. unfold digit_or_dot at 1.
  now rewrite Ha, (IH Hs).
Qed.

Lemma ipv4_literal_chars (host : string) :
  is_ipv4_literal host = true -> all_chars digit_or_dot host = true.
Proof.
  unfold is_ipv4_literal. intros H.
  pose proof (join_split "." host) as Hjoin.
  destruct (split_on "." host) as [|a [|b [|c [|d [|e rest]]]]]; try discriminate.
  apply andb_true_iff in H as [H Hd]. apply andb_true_iff in H as [H Hc].
  apply andb_true_iff in H as [Ha Hb].
  rewrite <- Hjoin. simpl.
  change (a ++ String "." (b ++ String "." (c ++ String "." d)))
    with (a ++ "." ++ b ++ "." ++ c ++ "." ++ d).
  rewrite !all_chars_app.
  rewrite (digits_are_digit_or_dot a Ha), (digits_are_digit_or_dot b Hb),
    (digits_are_digit_or_dot c Hc), (digits_are_digit_or_dot d Hd).
  reflexivity.
Qed.

(** A host name that contains "supabase.co" is no address literal. *)
Lemma supabase_name_is_symbolic (h : string) :
  includes h "supabase.co" = true -> is_ipv4_literal h = false.
Proof.
  intros Hinc. destruct (is_ipv4_literal h) eqn:Hip; [|reflexivity].
  apply ipv4_literal_chars in Hip.
  pose proof (includes_all_chars digit_or_dot h "supabase.co" Hinc Hip) as Habs.
  discriminate Habs.
Qed.

(** The pool is built when the module loads unless construction is
    deferred: the test at load is the negation of the guard. *)
Lemma module_init_pool (k : Consts) (c : PoolConfig) :
  postgresPool (module_init k c) =
  if deferred k c then None else Some (setupPoolHandlers (new_Pool c)).
Proof.
  unfold module_init, deferred, host_is_symbolic. simpl.
  destruct (isSupabase k), (truthy (cfg_host c)),
    (is_ipv4_literal (default "" (cfg_host c))); reflexivity.
Qed.

(** X3. A Supabase target that is named through [POSTGRES_HOST] (no
    [POSTGRES_URL]) always starts without a pool: when the module has
    loaded, [postgresPool] is empty, the host is the name as configured,
    and [getPoolStats] throws the "pool not initialized" error until the
    pool is initialised. *)
Theorem supabase_host_starts_without_pool (rt : Runtime) (env : ProcessEnv)
  (h : string) :
  truthy (POSTGRES_URL env) = false ->
  POSTGRES_HOST env = Some h -> includes h "supabase.co" = true ->
  exists g,
    loaded rt env = Some g /\
    isSupabase (consts_of env) = true /\
    postgresPool g = None /\
    cfg_host (postgresConfig g) = Some h /\
    forall l, getPoolStats (consts_of env) l g = (inl not_initialized_error, g).
Proof.
  intros Hurl Hhost Hinc.
  assert (h <> "") as Hne.
  { intros ->. discriminate Hinc. }
  assert (isSupabase_of env = true) as Hsupa.
  { unfold isSupabase_of. rewrite (env_test_mentions (POSTGRES_HOST env)), Hhost.
    simpl. rewrite Hinc. apply orb_true_r. }
  assert (isSupabase (consts_of env) = true) as Hk.
  { unfold consts_of. now rewrite Hsupa. }
  assert (or_else (Some h) "localhost" = h) as Hor.
  { destruct h; [congruence | reflexivity]. }
  unfold loaded, postgresConfig_of. rewrite Hurl.
  eexists. split; [reflexivity|].
  assert (deferred (consts_of env) (config_of_params (consts_of env) env) = true) as Hdef.
  { apply (deferred_symbolic _ _ h); try assumption.
    - simpl. now rewrite Hhost, Hor.
    - now apply supabase_name_is_symbolic. }
  assert (postgresPool (module_init (consts_of env) (config_of_params (consts_of env) env))
          = None) as Hnone.
  { now rewrite module_init_pool, Hdef. }
  split; [exact Hk|]. split; [exact Hnone|]. split.
  - simpl. now rewrite Hhost, Hor.
  - intros l. unfold getPoolStats, bind.
    now rewrite (updatePoolStats_deferred _ l _ Hnone Hdef).
Qed.

Lemma supabase_host_starts_without_pool_witness :
  exists g,
    loaded rejecting_runtime supabase_host_env = Some g /\
    postgresPool g = None /\
    cfg_host (postgresConfig g) = Some "db.abc.supabase.co".
Proof.
  destruct (supabase_host_starts_without_pool rejecting_runtime supabase_host_env
              "db.abc.supabase.co" eq_refl eq_refl eq_refl)
    as (g & Hload & _ & Hnone & Hhost & _).
  exists g. auto.
Defined.

(** ** The configuration that resolution produces *)

Lemma supabase_host_pool_size (env : ProcessEnv) :
  env_test (POSTGRES_HOST env) mentions_supabase = true ->
  POOL_SIZE (consts_of env) = parseInt (or_else (POSTGRES_POOL_SIZE env) "2") /\
  MIN_POOL_SIZE (consts_of env) = parseInt (or_else (POSTGRES_MIN_POOL_SIZE env) "0").
Proof.
  intros H. unfold consts_of, isSupabase_of. rewrite H, orb_true_r. auto.
Qed.

(** X4. Whatever the environment, the pool limits written into the
    configuration are the module constants: [max] is [POOL_SIZE] and
    [min] is [MIN_POOL_SIZE], also on the path that computes them again
    for a Supabase host; so the pressure test of [queryWithRetry]
    compares the pool with the limit the pool was built with. *)
Theorem config_limits_are_the_constants (rt : Runtime) (env : ProcessEnv)
  (c : PoolConfig) :
  postgresConfig_of rt env = Resolved c ->
  cfg_max c = POOL_SIZE (consts_of env) /\ cfg_min c = MIN_POOL_SIZE (consts_of env).
Proof.
  unfold postgresConfig_of. intros H.
  destruct (truthy (POSTGRES_URL env)).
  - destruct (resolve_urlMatch rt _); [destruct (isSupabase _)|];
      inversion H; subst; auto.
  - inversion H; subst. simpl.
    destruct (env_test (POSTGRES_HOST env) mentions_supabase) eqn:Hh; [|auto].
    destruct (supabase_host_pool_size env Hh) as [-> ->]. auto.
Qed.

Lemma config_limits_are_the_constants_witness :
  cfg_max (config_of_params (consts_of supabase_host_env) supabase_host_env) = Num 2 /\
  cfg_min (config_of_params (consts_of supabase_host_env) supabase_host_env) = Num 0.
Proof.
  exact (config_limits_are_the_constants rejecting_runtime supabase_host_env _ eq_refl).
Defined.

(** X5. A configuration names its target in exactly one way: it has a
    [host] (with a port) and no [connectionString], or a
    [connectionString] and no [host]; the second happens exactly when
    [POSTGRES_URL] is set and the target is not Supabase or the URI did
    not decompose. *)
Theorem config_names_target_one_way (rt : Runtime) (env : ProcessEnv)
  (c : PoolConfig) :
  postgresConfig_of rt env = Resolved c ->
  (is_Some (cfg_host c) /\ is_Some (cfg_port c) /\ cfg_connectionString c = None /\
   (truthy (POSTGRES_URL env) = true ->
      isSupabase (consts_of env) = true /\
      is_Some (resolve_urlMatch rt
                 (clean_connection_string (default "" (POSTGRES_URL env)))) /\
      cfg_port c = Some (Num 5432)))
  \/
  (cfg_host c = None /\ cfg_port c = None /\ is_Some (cfg_connectionString c) /\
   truthy (POSTGRES_URL env) = true /\
   (isSupabase (consts_of env) = false \/
    resolve_urlMatch rt (clean_connection_string (default "" (POSTGRES_URL env))) = None)).
Proof.
  unfold postgresConfig_of. intros H.
  destruct (truthy (POSTGRES_URL env)) eqn:Hurl.
  - destruct (resolve_urlMatch rt _) as [m|] eqn:Hm;
      [destruct (isSupabase (consts_of env)) eqn:Hk|]; inversion H; subst.
    + left. simpl. repeat split; eauto.
    + right. simpl. repeat split; eauto.
    + right. simpl. repeat split; eauto.
  - inversion H; subst. left. simpl. repeat split; eauto; try discriminate.
Qed.

Lemma config_names_target_one_way_witness :
  cfg_host (config_of_string (consts_of broken_url_env) broken_url_env "not a uri") = None /\
  is_Some (cfg_connectionString
             (config_of_string (consts_of broken_url_env) broken_url_env "not a uri")).
Proof.
  destruct (config_names_target_one_way rejecting_runtime broken_url_env _ eq_refl)
    as [(Hhost & _) | (Hhost & _ & Hcs & _)].
  - destruct Hhost as [x Hx]. discriminate Hx.
  - split; assumption.
Defined.

(** ** What the helpers and the callbacks leave alone *)

Lemma pool_steady_refl (k : Consts) (g : Globals) : pool_steady k g g.
Proof. repeat split; auto; simpl; lia. Qed.

Lemma pool_steady_trans (k : Consts) (a b c : Globals) :
  pool_steady k a b -> pool_steady k b c -> pool_steady k a c.
Proof.
  intros (Hc1 & He1 & Hp1 & Hn1) (Hc2 & He2 & Hp2 & Hn2).
  repeat split.
  - congruence.
  - lia.
  - intros p Hp. eauto.
  - intros Hnone Hdef. apply Hn2; [now apply Hn1 | now rewrite Hc1].
Qed.

Lemma steady_refl (k : Consts) (g : Globals) : steady k g g.
Proof. split; [apply pool_steady_refl | auto]. Qed.

Lemma steady_trans (k : Consts) (a b c : Globals) :
  steady k a b -> steady k b c -> steady k a c.
Proof.
  intros (H1 & Hq1 & Ha1) (H2 & Hq2 & Ha2).
  split; [exact (pool_steady_trans k a b c H1 H2) | split; congruence].
Qed.

Lemma steady_getPostgresPool (k : Consts) (g : Globals) :
  steady k g (snd (getPostgresPool k g)).
Proof.
  unfold getPostgresPool, bind, get, ret, throw, modify. simpl.
  destruct (postgresPool g) as [p|] eqn:Hp; [apply steady_refl|].
  destruct (deferred k (postgresConfig g)) eqn:Hd; [apply steady_refl|].
  simpl. repeat split; auto; simpl; try lia; intros; congruence.
Qed.

Lemma steady_record_error (k : Consts) (e : JsError) (g : Globals) :
  steady k g (record_error e g).
Proof. repeat split; auto. simpl. lia. Qed.

Lemma steady_updatePoolStats (k : Consts) (l : Live) (g : Globals) :
  steady k g (snd (updatePoolStats k l g)).
Proof.
  unfold updatePoolStats, bind, modify.
  pose proof (steady_getPostgresPool k g) as H.
  destruct (getPostgresPool k g) as [[e|p] g']; simpl in *; [exact H|].
  apply (steady_trans k g g' _ H). repeat split; auto. simpl. lia.
Qed.

Lemma steady_on_pool_error (k : Consts) (l : Live) (e : JsError) (g : Globals) :
  steady k g (snd (on_pool_error k l e g)).
Proof.
  unfold on_pool_error, bind, modify. simpl.
  pose proof (steady_updatePoolStats k l (record_error e g)) as H.
  destruct (updatePoolStats k l (record_error e g)) as [r g']; simpl in *.
  exact (steady_trans k _ _ _ (steady_record_error k e g) H).
Qed.

Lemma steady_listener (k : Consts) (l : Live) (ev : PoolEvent) (g : Globals) :
  steady k g (snd (listener k l ev g)).
Proof.
  destruct ev; [apply steady_on_pool_error | apply steady_updatePoolStats
               | apply steady_updatePoolStats].
Qed.

Lemma steady_each_listener (k : Consts) (n : nat) (h : Sync unit) :
  (forall g, steady k g (snd (h g))) ->
  forall g, steady k g (snd (each_listener n h g)).
Proof.
  intros Hh. induction n as [|n IH]; intros g; [apply steady_refl|].
  simpl. unfold bind. specialize (Hh g).
  destruct (h g) as [[e|u] g']; simpl in *; [exact Hh|].
  exact (steady_trans k _ _ _ Hh (IH g')).
Qed.

Lemma steady_pool_emits (k : Consts) (l : Live) (ev : PoolEvent) (g : Globals) :
  steady k g (snd (pool_emits k l ev g)).
Proof.
  unfold pool_emits, bind, get. simpl.
  destruct (postgresPool g) as [p|]; [|apply steady_refl].
  apply steady_each_listener. apply steady_listener.
Qed.

Lemma steady_on_pool_connect (k : Consts) (l : Live) (o : option JsError) (g : Globals) :
  steady k g (snd (on_pool_connect k l o g)).
Proof.
  unfold on_pool_connect. destruct o as [e|]; [apply steady_record_error|].
  pose proof (steady_updatePoolStats k l g) as H.
  destruct (updatePoolStats k l g) as [[e|u] g']; simpl in *; [|exact H].
  exact (steady_trans k _ _ _ H (steady_record_error k e g')).
Qed.

(** *** The segments of a call *)

Lemma pool_steady_catch_clause (k : Consts) (i : Z) (e : JsError) (t : Task) (g : Globals) :
  pool_steady k g (catch_clause i e t g).1.1.
Proof.
  unfold catch_clause. destruct (_ && _); simpl; [apply pool_steady_refl|].
  apply (steady_record_error k e g).
Qed.

Lemma pool_steady_active (k : Consts) (n : Z) (g : Globals) :
  pool_steady k g (with_active n g).
Proof. repeat split; auto; simpl; lia. Qed.

Lemma pool_steady_after_full_wait (k : Consts) (i : Z) (l : Live) (t : Task) (g : Globals) :
  pool_steady k g (after_full_wait i l t g).1.1.
Proof.
  unfold after_full_wait. destruct (_ && _); simpl;
    [apply pool_steady_refl | apply pool_steady_active].
Qed.

Lemma pool_steady_after_idle_wait (k : Consts) (i : Z) (l : Live) (t : Task) (g : Globals) :
  pool_steady k g (after_idle_wait k i l t g).1.1.
Proof.
  unfold after_idle_wait. destruct (geb_num _ _); simpl;
    [apply pool_steady_refl | apply pool_steady_after_full_wait].
Qed.

Lemma steady_refresh (k : Consts) (l : Live) (g : Globals) :
  steady k g (snd ((updatePoolStats k l;;; getPostgresPool k) g)).
Proof.
  assert ((updatePoolStats k l;;; getPostgresPool k) g =
          match updatePoolStats k l g with
          | (inr _, g') => getPostgresPool k g'
          | (inl e, g') => (inl e, g')
          end) as -> by reflexivity.
  pose proof (steady_updatePoolStats k l g) as H.
  destruct (updatePoolStats k l g) as [[e|u] g']; simpl in *; [exact H|].
  exact (steady_trans k _ _ _ H (steady_getPostgresPool k g')).
Qed.

Lemma pool_steady_loop (k : Consts) (i : Z) (l : Live) (t : Task) (g : Globals) :
  pool_steady k g (loop k i l t g).1.1.
Proof.
  unfold loop. destruct (i <? retries t); [|apply pool_steady_refl].
  unfold loop_body.
  pose proof (steady_refresh k l g) as [H _].
  destruct ((updatePoolStats k l;;; getPostgresPool k) g) as [[e|p] g']; simpl in H.
  - exact (pool_steady_trans k _ _ _ H (pool_steady_catch_clause k i e t g')).
  - destruct (isSupabase k).
    + destruct (_ && _); [exact H|].
      exact (pool_steady_trans k _ _ _ H (pool_steady_after_idle_wait k i l t g')).
    + exact (pool_steady_trans k _ _ _ H (pool_steady_after_full_wait k i l t g')).
Qed.

Lemma pool_steady_finally (k : Consts) (i : Z) (g : Globals) :
  pool_steady k g (finally_clause k i g).1.
Proof.
  unfold finally_clause. simpl. destruct (connectionQueue g); [apply pool_steady_active|].
  destruct (_ <? _); simpl; repeat split; auto; simpl; lia.
Qed.

Lemma emit_globals (evs : list Event) (st : Step) : (emit evs st).1.1 = st.1.1.
Proof. now destruct st as [[g t] e]. Qed.

Lemma emit_task (evs : list Event) (st : Step) : (emit evs st).1.2 = st.1.2.
Proof. now destruct st as [[g t] e]. Qed.

Lemma emit_events (evs : list Event) (st : Step) : (emit evs st).2 = (evs ++ st.2)%list.
Proof. now destruct st as [[g t] e]. Qed.

Lemma pool_steady_resume (k : Consts) (l : Live) (o : RaceOutcome) (t : Task) (g : Globals) :
  pool_steady k g (resume k l o t g).1.1.
Proof.
  unfold resume. destruct (pc t) as [| |i|i|i|i|i e|r|e]; simpl;
    try apply pool_steady_refl.
  - apply pool_steady_loop.
  - apply pool_steady_after_idle_wait.
  - apply pool_steady_after_full_wait.
  - apply pool_steady_active.
  - pose proof (pool_steady_finally k i g) as H.
    destruct (finally_clause k i g) as [g' evs]. simpl in H.
    destruct o; [exact H| |]; rewrite emit_globals;
      exact (pool_steady_trans k _ _ _ H (pool_steady_catch_clause k i _ t g')).
  - pose proof (steady_updatePoolStats k l (record_error e g)) as [H _].
    pose proof (steady_record_error k e g) as [H0 _].
    destruct (updatePoolStats k l (record_error e g)) as [[e'|u] g']; simpl in H.
    + exact (pool_steady_trans k _ _ _ H0 H).
    + rewrite emit_globals.
      exact (pool_steady_trans k _ _ _ (pool_steady_trans k _ _ _ H0 H)
               (pool_steady_loop k (i + 1) l t g')).
Qed.

Lemma pool_steady_call (k : Consts) (me : TaskId) (r to : Z) (l : Live) (g : Globals) :
  pool_steady k g (queryWithRetry k me r to l g).1.1.
Proof.
  unfold queryWithRetry. destruct (isSupabase k && _).
  - simpl. repeat split; auto; simpl; lia.
  - rewrite emit_globals. apply pool_steady_loop.
Qed.

(** ** The event loop with the pool's events: what never changes *)

Lemma commit_globals (s : System) (me : TaskId) (st : Step) :
  globals (commit s me st) = st.1.1.
Proof. now destruct st as [[g t] evs]. Qed.

Lemma sys_step_pool_steady (k : Consts) (s s' : System) (lab : Label) :
  sys_step k s lab = Some s' -> pool_steady k (globals s) (globals s').
Proof.
  destruct lab as [me r to l | me l o]; simpl.
  - destruct (tasks s !! me); [discriminate|]. intros H; inversion H; subst.
    rewrite commit_globals. apply pool_steady_call.
  - destruct (tasks s !! me) as [t|]; [|discriminate].
    destruct (runnable (pc t)); [|discriminate]. intros H; inversion H; subst.
    rewrite commit_globals. apply pool_steady_resume.
Qed.

Lemma after_callback_steady (k : Consts) (s s' : System) (r : (JsError + unit) * Globals) :
  steady k (globals s) (snd r) -> after_callback s r = Some s' ->
  steady k (globals s) (globals s') /\ tasks s' = tasks s /\ trace s' = trace s.
Proof.
  destruct r as [[e|u] g]; simpl; [discriminate|].
  intros H Heq. inversion Heq; subst. auto.
Qed.

(** A callback of the pool or of the timer touches the globals only as
    a helper does, and no call. *)
Lemma callback_steady (k : Consts) (s s' : System) (h : Happening) :
  (forall lab, h <> Turn lab) -> world_step k s h = Some s' ->
  steady k (globals s) (globals s') /\ tasks s' = tasks s /\ trace s' = trace s.
Proof.
  intros Hnot. destruct h as [lab|ev l|o l|l]; simpl.
  - now destruct (Hnot lab).
  - apply after_callback_steady, steady_pool_emits.
  - apply after_callback_steady, steady_on_pool_connect.
  - apply after_callback_steady, steady_updatePoolStats.
Qed.

Lemma world_step_pool_steady (k : Consts) (s s' : System) (h : Happening) :
  world_step k s h = Some s' -> pool_steady k (globals s) (globals s').
Proof.
  destruct h as [lab|ev l|o l|l]; intros H.
  - now apply (sys_step_pool_steady k s s' lab).
  - now apply (callback_steady k s s' (Emitted ev l)).
  - now apply (callback_steady k s s' (Connected o l)).
  - now apply (callback_steady k s s' (Tick l)).
Qed.

Lemma world_run_pool_steady (k : Consts) (hs : list Happening) (s s' : System) :
  world_run k s hs = Some s' -> pool_steady k (globals s) (globals s').
Proof.
  revert s. induction hs as [|h hs IH]; intros s Hrun; simpl in Hrun.
  - inversion Hrun; subst. apply pool_steady_refl.
  - destruct (world_step k s h) as [s1|] eqn:Hstep; [|discriminate].
    exact (pool_steady_trans k _ _ _ (world_step_pool_steady k s s1 h Hstep) (IH s1 Hrun)).
Qed.

(** X6. After the module has loaded, calls of [queryWithRetry], the
    listeners of the pool and the health check never build a pool and
    never change the configuration: whatever runs on the event loop,
    [postgresPool] and [postgresConfig] are what they were at load.  So
    the branch of [getPostgresPool] that constructs a pool is never
    taken after load, and a deferred target has no pool until
    [initializePostgresPool] or [testPostgresConnection] runs. *)
Theorem nothing_builds_the_pool_after_load (k : Consts) (c : PoolConfig)
  (hs : list Happening) (s : System) :
  world_run k (system_init (module_init k c)) hs = Some s ->
  postgresPool (globals s) = postgresPool (module_init k c) /\
  postgresConfig (globals s) = c /\
  snd (getPostgresPool k (globals s)) = globals s.
Proof.
  intros Hrun.
  destruct (world_run_pool_steady k hs _ s Hrun) as (Hc & _ & Hsome & Hnone).
  simpl globals in *.
  assert (postgresPool (globals s) = postgresPool (module_init k c)) as Hpool.
  { pose proof (module_init_pool k c) as Hinit.
    destruct (deferred k c) eqn:Hd.
    - rewrite Hinit. apply Hnone; [exact Hinit | exact Hd].
    - rewrite Hinit. apply Hsome. exact Hinit. }
  split; [exact Hpool|]. split; [exact Hc|].
  unfold getPostgresPool, bind, get, ret, throw. simpl.
  rewrite Hpool, Hc, module_init_pool.
  change (postgresConfig (module_init k c)) with c.
  destruct (deferred k c) eqn:Hd; reflexivity.
Qed.

Lemma nothing_builds_the_pool_after_load_witness :
  exists s,
    world_run supabase_consts
      (system_init (module_init supabase_consts
                      (config_of_match supabase_consts (supabase_match "10.0.0.7"))))
      busy_morning = Some s /\
    postgresConfig (globals s) = config_of_match supabase_consts (supabase_match "10.0.0.7").
Proof.
  eexists. split; [vm_compute; reflexivity|].
  apply (nothing_builds_the_pool_after_load supabase_consts _ busy_morning).
  vm_compute; reflexivity.
Defined.

(** X7. The cumulative error counter never goes down: across any run
    of calls, pool events, ['connect'] continuations and health checks,
    [poolStats.errors] at the end is at least what it was at the start,
    although [updatePoolStats] replaces the [poolStats] object. *)
Theorem error_counter_never_decreases (k : Consts) (hs : list Happening)
  (s s' : System) :
  world_run k s hs = Some s' ->
  errors (poolStats (globals s)) <= errors (poolStats (globals s')).
Proof.
  intros Hrun. now destruct (world_run_pool_steady k hs s s' Hrun) as (_ & He & _).
Qed.

Lemma error_counter_never_decreases_witness :
  exists s',
    world_run supabase_consts (system_init (supabase_globals "10.0.0.7")) busy_morning
      = Some s' /\
    0 <= errors (poolStats (globals s')).
Proof.
  eexists. split; [vm_compute; reflexivity|].
  apply (error_counter_never_decreases supabase_consts busy_morning
           (system_init (supabase_globals "10.0.0.7"))).
  vm_compute; reflexivity.
Defined.

(** ** The counter of active queries is exact *)

Lemma race_count_true (t : Task) : Is_true (in_race t) -> race_count t = 1.
Proof. unfold race_count. now destruct (in_race t). Qed.

Lemma race_count_false (t : Task) : ~ Is_true (in_race t) -> race_count t = 0.
Proof. unfold race_count. destruct (in_race t); [intros H; now destruct H | reflexivity]. Qed.

Lemma racing_insert_fresh (ts : gmap TaskId Task) (me : TaskId) (t : Task) :
  ts !! me = None -> racing (<[me := t]> ts) = racing ts + race_count t.
Proof.
  intros Hfresh. unfold racing. rewrite map_filter_insert. case_decide as Hrace.
  - rewrite map_size_insert_None by (apply map_lookup_filter_None_2; now left).
    rewrite (race_count_true t Hrace). lia.
  - rewrite delete_id by assumption. rewrite (race_count_false t Hrace). lia.
Qed.

Lemma racing_delete (ts : gmap TaskId Task) (me : TaskId) (t0 : Task) :
  ts !! me = Some t0 -> racing (delete me ts) = racing ts - race_count t0.
Proof.
  intros Hme.
  pose proof (racing_insert_fresh (delete me ts) me t0 (lookup_delete_eq ts me)) as H.
  rewrite insert_delete_eq, (insert_id ts me t0 Hme) in H. lia.
Qed.

Lemma racing_insert_over (ts : gmap TaskId Task) (me : TaskId) (t0 t : Task) :
  ts !! me = Some t0 ->
  racing (<[me := t]> ts) = racing ts - race_count t0 + race_count t.
Proof.
  intros Hme. rewrite <- insert_delete_eq.
  rewrite (racing_insert_fresh (delete me ts) me t (lookup_delete_eq ts me)).
  now rewrite (racing_delete ts me t0 Hme).
Qed.

Lemma racing_wake (next : TaskId) (ts : gmap TaskId Task) :
  racing (wake next ts) = racing ts.
Proof.
  unfold wake. destruct (ts !! next) as [t|] eqn:Hnext.
  - assert (alter (fun t => match pc t with AtQueue => at_pc Woken t | _ => t end) next ts
            = <[next := match pc t with AtQueue => at_pc Woken t | _ => t end]> ts) as ->.
    { apply map_eq. intros j. destruct (decide (j = next)) as [->|Hne].
      - now rewrite lookup_alter_eq, lookup_insert_eq, Hnext.
      - now rewrite lookup_alter_ne, lookup_insert_ne by congruence. }
    rewrite (racing_insert_over ts next t _ Hnext).
    unfold race_count, in_race. destruct (pc t) eqn:Hpc; simpl; rewrite ?Hpc; lia.
  - assert (alter (fun t => match pc t with AtQueue => at_pc Woken t | _ => t end) next ts
            = ts) as ->; [|reflexivity].
    apply map_eq. intros j. destruct (decide (j = next)) as [->|Hne].
    + now rewrite lookup_alter_eq, Hnext.
    + now rewrite lookup_alter_ne by congruence.
Qed.

Lemma racing_apply_wakes (evs : list Event) (ts : gmap TaskId Task) :
  racing (apply_wakes evs ts) = racing ts.
Proof.
  unfold apply_wakes. revert ts. induction evs as [|e evs IH]; intros ts; [reflexivity|].
  simpl. rewrite IH. destruct e; try reflexivity. apply racing_wake.
Qed.

(** A segment of a call changes the counter by what the call changes
    of its being in a race. *)
Lemma count_catch_clause (i : Z) (e : JsError) (t : Task) (g : Globals) :
  activeQueries (catch_clause i e t g).1.1 = activeQueries g /\
  race_count (catch_clause i e t g).1.2 = 0.
Proof. unfold catch_clause. destruct (_ && _); split; reflexivity. Qed.

Lemma count_after_full_wait (i : Z) (l : Live) (t : Task) (g : Globals) :
  activeQueries (after_full_wait i l t g).1.1 =
  activeQueries g + race_count (after_full_wait i l t g).1.2.
Proof.
  unfold after_full_wait. destruct (_ && _); simpl; unfold race_count; simpl; lia.
Qed.

Lemma count_after_idle_wait (k : Consts) (i : Z) (l : Live) (t : Task) (g : Globals) :
  activeQueries (after_idle_wait k i l t g).1.1 =
  activeQueries g + race_count (after_idle_wait k i l t g).1.2.
Proof.
  unfold after_idle_wait. destruct (geb_num _ _); [unfold race_count; simpl; lia|].
  apply count_after_full_wait.
Qed.

Lemma count_loop (k : Consts) (i : Z) (l : Live) (t : Task) (g : Globals) :
  activeQueries (loop k i l t g).1.1 = activeQueries g + race_count (loop k i l t g).1.2.
Proof.
  unfold loop. destruct (i <? retries t); [|unfold race_count; simpl; lia].
  unfold loop_body.
  pose proof (steady_refresh k l g) as (_ & _ & Ha).
  destruct ((updatePoolStats k l;;; getPostgresPool k) g) as [[e|p] g']; simpl in Ha.
  - destruct (count_catch_clause i e t g') as [-> ->]. lia.
  - rewrite <- Ha. destruct (isSupabase k).
    + destruct (_ && _); [unfold race_count; simpl; lia|]. apply count_after_idle_wait.
    + apply count_after_full_wait.
Qed.

Lemma count_resume (k : Consts) (l : Live) (o : RaceOutcome) (t : Task) (g : Globals) :
  activeQueries (resume k l o t g).1.1 =
  activeQueries g - race_count t + race_count (resume k l o t g).1.2.
Proof.
  unfold resume, race_count at 1, in_race at 1.
  destruct (pc t) as [| |i|i|i|i|i e|r|e] eqn:Hpc.
  - simpl. unfold race_count, in_race. rewrite Hpc. lia.
  - rewrite (count_loop k 0 l t g). lia.
  - rewrite (count_after_idle_wait k i l t g). lia.
  - rewrite (count_after_full_wait i l t g). lia.
  - simpl. unfold race_count. simpl. lia.
  - assert (activeQueries (finally_clause k i g).1 = activeQueries g - 1) as Hfin.
    { unfold finally_clause. simpl. destruct (connectionQueue g); [reflexivity|].
      now destruct (_ <? _). }
    destruct (finally_clause k i g) as [g' evs]. simpl in Hfin.
    destruct o; [simpl; unfold race_count; simpl; lia| |];
      rewrite emit_globals, emit_task;
      match goal with
      | |- context [catch_clause i ?e t g'] =>
          destruct (count_catch_clause i e t g') as [-> ->]
      end; lia.
  - pose proof (steady_updatePoolStats k l (record_error e g)) as (_ & _ & Ha).
    destruct (updatePoolStats k l (record_error e g)) as [[e'|u] g']; simpl in Ha.
    + simpl. unfold race_count. simpl. lia.
    + rewrite emit_globals, emit_task, (count_loop k (i + 1) l t g'), Ha. simpl. lia.
  - simpl. unfold race_count, in_race. rewrite Hpc. lia.
  - simpl. unfold race_count, in_race. rewrite Hpc. lia.
Qed.

Lemma count_call (k : Consts) (me : TaskId) (r to : Z) (l : Live) (g : Globals) :
  activeQueries (queryWithRetry k me r to l g).1.1 =
  activeQueries g + race_count (queryWithRetry k me r to l g).1.2.
Proof.
  unfold queryWithRetry. destruct (isSupabase k && _).
  - simpl. unfold race_count. simpl. lia.
  - rewrite emit_globals, emit_task. apply count_loop.
Qed.

Lemma commit_tasks (s : System) (me : TaskId) (st : Step) :
  tasks (commit s me st) = apply_wakes st.2 (<[me := st.1.2]> (tasks s)).
Proof. now destruct st as [[g t] evs]. Qed.

Lemma world_step_count (k : Consts) (s s' : System) (h : Happening) :
  activeQueries (globals s) = racing (tasks s) ->
  world_step k s h = Some s' ->
  activeQueries (globals s') = racing (tasks s').
Proof.
  intros Hinv. destruct h as [[me r to l | me l o]|ev l|o l|l]; simpl.
  - destruct (tasks s !! me) eqn:Hme; [discriminate|]. intros H; inversion H; subst.
    rewrite commit_globals, commit_tasks, racing_apply_wakes.
    rewrite (racing_insert_fresh _ _ _ Hme), count_call. lia.
  - destruct (tasks s !! me) as [t|] eqn:Hme; [|discriminate].
    destruct (runnable (pc t)); [|discriminate]. intros H; inversion H; subst.
    rewrite commit_globals, commit_tasks, racing_apply_wakes.
    rewrite (racing_insert_over _ _ t _ Hme), count_resume. lia.
  - intros H.
    destruct (callback_steady k s s' (Emitted ev l) ltac:(discriminate) H)
      as ((_ & _ & Ha) & -> & _). congruence.
  - intros H.
    destruct (callback_steady k s s' (Connected o l) ltac:(discriminate) H)
      as ((_ & _ & Ha) & -> & _). congruence.
  - intros H.
    destruct (callback_steady k s s' (Tick l) ltac:(discriminate) H)
      as ((_ & _ & Ha) & -> & _). congruence.
Qed.

Lemma world_run_count (k : Consts) (hs : list Happening) (s s' : System) :
  activeQueries (globals s) = racing (tasks s) ->
  world_run k s hs = Some s' ->
  activeQueries (globals s') = racing (tasks s').
Proof.
  revert s. induction hs as [|h hs IH]; intros s Hinv Hrun; simpl in Hrun.
  - now inversion Hrun; subst.
  - destruct (world_step k s h) as [s1|] eqn:Hstep; [|discriminate].
    exact (IH s1 (world_step_count k s s1 h Hinv Hstep) Hrun).
Qed.

Lemma racing_none (ts : gmap TaskId Task) :
  (forall me t, ts !! me = Some t -> in_race t = false) -> racing ts = 0.
Proof.
  intros Hnone. unfold racing.
  assert (filter (fun p : TaskId * Task => Is_true (in_race p.2)) ts = ∅) as ->.
  { apply map_eq. intros j. rewrite lookup_empty.
    apply map_lookup_filter_None_2.
    destruct (ts !! j) as [t|] eqn:Hj; [right | now left].
    intros x Hx. inversion Hx; subst. simpl. now rewrite (Hnone j x Hj). }
  now rewrite map_size_empty.
Qed.

(** X8. [activeQueries] counts exactly the calls that are in their
    race: in every run of the event loop that starts with the counter at
    0 and no call in flight, the counter equals the number of calls
    suspended at [Promise.race], whether an attempt ended by a result, a
    rejection or the timer.  So it is never negative, and it is 0
    whenever no call is in a race. *)
Theorem active_counter_is_exact (k : Consts) (g : Globals) (hs : list Happening)
  (s : System) :
  activeQueries g = 0 ->
  world_run k (system_init g) hs = Some s ->
  activeQueries (globals s) = racing (tasks s) /\
  0 <= activeQueries (globals s) /\
  ((forall me t, tasks s !! me = Some t -> in_race t = false) ->
   activeQueries (globals s) = 0).
Proof.
  intros Hzero Hrun.
  assert (activeQueries (globals s) = racing (tasks s)) as Hexact.
  { apply (world_run_count k hs (system_init g) s); [|assumption].
    simpl. rewrite Hzero. reflexivity. }
  split; [exact Hexact|]. split.
  - rewrite Hexact. unfold racing. lia.
  - intros Hnone. rewrite Hexact. now apply racing_none.
Qed.

Lemma active_counter_is_exact_witness :
  exists s,
    world_run supabase_consts (system_init (supabase_globals "10.0.0.7")) busy_morning
      = Some s /\
    activeQueries (globals s) = racing (tasks s).
Proof.
  eexists. split; [vm_compute; reflexivity|].
  apply (active_counter_is_exact supabase_consts (supabase_globals "10.0.0.7")
           busy_morning); [reflexivity | vm_compute; reflexivity].
Defined.

(** ** The queue and the calls suspended at it *)

Lemma awake_catch_clause (i : Z) (e : JsError) (t : Task) (g : Globals) :
  pc (catch_clause i e t g).1.2 <> AtQueue.
Proof. unfold catch_clause. destruct (_ && _); discriminate. Qed.

Lemma awake_after_full_wait (i : Z) (l : Live) (t : Task) (g : Globals) :
  pc (after_full_wait i l t g).1.2 <> AtQueue.
Proof. unfold after_full_wait. destruct (_ && _); discriminate. Qed.

Lemma awake_after_idle_wait (k : Consts) (i : Z) (l : Live) (t : Task) (g : Globals) :
  pc (after_idle_wait k i l t g).1.2 <> AtQueue.
Proof.
  unfold after_idle_wait. destruct (geb_num _ _); [discriminate|].
  apply awake_after_full_wait.
Qed.

Lemma awake_loop (k : Consts) (i : Z) (l : Live) (t : Task) (g : Globals) :
  pc (loop k i l t g).1.2 <> AtQueue.
Proof.
  unfold loop. destruct (i <? retries t); [|discriminate].
  unfold loop_body.
  destruct ((updatePoolStats k l;;; getPostgresPool k) g) as [[e|p] g'].
  - apply awake_catch_clause.
  - destruct (isSupabase k).
    + destruct (_ && _); [discriminate|]. apply awake_after_idle_wait.
    + apply awake_after_full_wait.
Qed.

Lemma awake_resume (k : Consts) (l : Live) (o : RaceOutcome) (t : Task) (g : Globals) :
  runnable (pc t) = true -> pc (resume k l o t g).1.2 <> AtQueue.
Proof.
  unfold resume. destruct (pc t) as [| |i|i|i|i|i e|r|e]; try discriminate; intros _.
  - apply awake_loop.
  - apply awake_after_idle_wait.
  - apply awake_after_full_wait.
  - destruct (finally_clause k i g) as [g' evs].
    destruct o; [discriminate| |]; rewrite emit_task; apply awake_catch_clause.
  - destruct (updatePoolStats k l (record_error e g)) as [[e'|u] g']; [discriminate|].
    rewrite emit_task. apply awake_loop.
Qed.

Lemma apply_wakes_app (a b : list Event) (ts : gmap TaskId Task) :
  apply_wakes (a ++ b) ts = apply_wakes b (apply_wakes a ts).
Proof. unfold apply_wakes. apply foldl_app. Qed.

Lemma apply_wakes_none (evs : list Event) (ts : gmap TaskId Task) :
  admissions (map (pair 0%nat) evs) = [] -> apply_wakes evs ts = ts.
Proof.
  unfold apply_wakes. revert ts. induction evs as [|e evs IH]; intros ts H; [reflexivity|].
  destruct e; simpl in *; try (now apply IH). discriminate H.
Qed.

Lemma quiet_no_wakes (g : Globals) (st : Step) :
  quiet g st ->
  connectionQueue st.1.1 = connectionQueue g /\ forall ts, apply_wakes st.2 ts = ts.
Proof.
  intros [Hq Hev]. split; [exact Hq|]. intros ts.
  apply apply_wakes_none. apply (Hev 0%nat).
Qed.

(** What a call does to the queue when it arrives *)
Lemma call_queue_effect (k : Consts) (me : TaskId) (r to : Z) (l : Live) (g : Globals) :
  (forall ts, apply_wakes (queryWithRetry k me r to l g).2 ts = ts) /\
  ((pc (queryWithRetry k me r to l g).1.2 = AtQueue /\
    connectionQueue (queryWithRetry k me r to l g).1.1 = (connectionQueue g ++ [me])%list)
   \/
   (pc (queryWithRetry k me r to l g).1.2 <> AtQueue /\
    connectionQueue (queryWithRetry k me r to l g).1.1 = connectionQueue g)).
Proof.
  unfold queryWithRetry. destruct (isSupabase k && _).
  - split; [reflexivity|]. now left.
  - destruct (quiet_no_wakes g _ (quiet_loop k 0 l (entering k r to) g g eq_refl))
      as [Hq Hw].
    split.
    + intros ts. rewrite emit_events. exact (Hw ts).
    + right. rewrite emit_task, emit_globals. split; [apply awake_loop | exact Hq].
Qed.

(** What a segment does to the queue: nothing, or it takes the first
    caller off and resolves it. *)
Lemma resume_queue_effect (k : Consts) (l : Live) (o : RaceOutcome) (t : Task) (g : Globals) :
  (connectionQueue (resume k l o t g).1.1 = connectionQueue g /\
   forall ts, apply_wakes (resume k l o t g).2 ts = ts)
  \/
  (exists next,
     connectionQueue g = next :: connectionQueue (resume k l o t g).1.1 /\
     forall ts, apply_wakes (resume k l o t g).2 ts = wake next ts).
Proof.
  unfold resume. destruct (pc t) as [| |i|i|i|i|i e|r|e].
  - left. split; reflexivity.
  - left. apply quiet_no_wakes. now apply quiet_loop.
  - left. apply quiet_no_wakes. now apply quiet_after_idle_wait.
  - left. apply quiet_no_wakes. now apply quiet_after_full_wait.
  - left. split; reflexivity.
  - unfold finally_clause. simpl.
    destruct (connectionQueue g) as [|next rest] eqn:Hq.
    + left. destruct o; [split; [exact Hq | reflexivity]| |];
        rewrite emit_globals, emit_events;
        match goal with
        | |- context [catch_clause i ?e t ?g'] =>
            destruct (quiet_no_wakes g' _ (quiet_catch_clause i e t g' g' eq_refl))
              as [Hq' Hw]
        end;
        (split; [now rewrite Hq' | intros ts; rewrite apply_wakes_app; apply Hw]).
    + destruct (activeQueries g - 1 <? MAX_CONCURRENT_QUERIES k).
      * right. exists next.
        destruct o; [split; reflexivity| |];
          rewrite emit_globals, emit_events;
          match goal with
          | |- context [catch_clause i ?e t ?g'] =>
              destruct (quiet_no_wakes g' _ (quiet_catch_clause i e t g' g' eq_refl))
                as [Hq' Hw]
          end;
          (split; [now rewrite Hq' | intros ts; rewrite apply_wakes_app; apply Hw]).
      * left. destruct o; [split; [exact Hq | reflexivity]| |];
          rewrite emit_globals, emit_events;
          match goal with
          | |- context [catch_clause i ?e t ?g'] =>
              destruct (quiet_no_wakes g' _ (quiet_catch_clause i e t g' g' eq_refl))
                as [Hq' Hw]
          end;
          (split; [now rewrite Hq' | intros ts; rewrite apply_wakes_app; apply Hw]).
  - left.
    pose proof (steady_updatePoolStats k l (record_error e g)) as (_ & Hq & _).
    destruct (updatePoolStats k l (record_error e g)) as [[e'|u] g']; simpl in Hq.
    + split; [exact Hq | reflexivity].
    + rewrite emit_globals, emit_events.
      destruct (quiet_no_wakes g' _ (quiet_loop k (i + 1) l t g' g' eq_refl)) as [Hq' Hw].
      split; [now rewrite Hq' | intros ts; rewrite apply_wakes_app; apply Hw].
  - left. split; reflexivity.
  - left. split; reflexivity.
Qed.

Lemma queue_matches_insert_awake (q : list TaskId) (ts : gmap TaskId Task)
  (me : TaskId) (t' : Task) :
  me ∉ q -> pc t' <> AtQueue ->
  (forall x, x ∈ q <-> exists t, ts !! x = Some t /\ pc t = AtQueue) ->
  forall x, x ∈ q <-> exists t, <[me := t']> ts !! x = Some t /\ pc t = AtQueue.
Proof.
  intros Hme Hpc Hinv x. rewrite Hinv. destruct (decide (x = me)) as [->|Hne].
  - rewrite lookup_insert_eq. split.
    + intros Hin. apply Hinv in Hin. contradiction.
    + intros (t & Ht & Hq). inversion Ht; subst. contradiction.
  - now rewrite lookup_insert_ne by congruence.
Qed.

Lemma sys_step_queue_matches (k : Consts) (s s' : System) (lab : Label) :
  queue_matches_tasks s -> sys_step k s lab = Some s' -> queue_matches_tasks s'.
Proof.
  intros [Hnodup Hinv]. destruct lab as [me r to l | me l o]; simpl.
  - destruct (tasks s !! me) eqn:Hme; [discriminate|]. intros H; inversion H; subst.
    assert (me ∉ connectionQueue (globals s)) as Hfresh.
    { intros Hin. apply Hinv in Hin as (t & Ht & _). congruence. }
    unfold queue_matches_tasks. rewrite commit_globals, commit_tasks.
    destruct (call_queue_effect k me r to l (globals s))
      as [Hw [[Hpc Hq] | [Hpc Hq]]]; rewrite Hw, Hq.
    + split.
      * apply NoDup_app. split; [exact Hnodup|]. split; [|apply NoDup_singleton].
        intros x Hx Hx'. apply list_elem_of_singleton in Hx'. now subst.
      * intros x. rewrite elem_of_app, list_elem_of_singleton, Hinv.
        destruct (decide (x = me)) as [->|Hne].
        -- rewrite lookup_insert_eq. split; [eauto|]. now right.
        -- rewrite lookup_insert_ne by congruence. split; [|now left].
           intros [Hx|Hx]; [exact Hx | contradiction].
    + split; [exact Hnodup|]. now apply queue_matches_insert_awake.
  - destruct (tasks s !! me) as [t|] eqn:Hme; [|discriminate].
    destruct (runnable (pc t)) eqn:Hrun; [|discriminate]. intros H; inversion H; subst.
    assert (me ∉ connectionQueue (globals s)) as Hout.
    { intros Hin. apply Hinv in Hin as (t0 & Ht & Hq).
      rewrite Hme in Ht. inversion Ht; subst. now rewrite Hq in Hrun. }
    pose proof (awake_resume k l o t (globals s) Hrun) as Hawake.
    unfold queue_matches_tasks. rewrite commit_globals, commit_tasks.
    destruct (resume_queue_effect k l o t (globals s))
      as [[Hq Hw] | (next & Hq & Hw)]; rewrite Hw.
    + rewrite Hq. split; [exact Hnodup|]. now apply queue_matches_insert_awake.
    + rewrite Hq in Hnodup, Hinv, Hout.
      apply NoDup_cons in Hnodup as [Hnext Hnodup].
      split; [exact Hnodup|]. intros x. unfold wake.
      destruct (decide (x = next)) as [->|Hne].
      * rewrite lookup_alter_eq. split; [contradiction|].
        intros (t0 & Ht0 & Hq0).
        destruct (<[me := (resume k l o t (globals s)).1.2]> (tasks s) !! next)
          as [t1|]; [|discriminate].
        simpl in Ht0. inversion Ht0; subst.
        destruct (pc t1) eqn:Hp1; simpl in Hq0; congruence.
      * rewrite lookup_alter_ne by congruence.
        rewrite <- (queue_matches_insert_awake (next :: connectionQueue _) (tasks s) me
                      _ Hout Hawake Hinv x).
        rewrite elem_of_cons. split; [now right|]. intros [Hx|Hx]; [contradiction | exact Hx].
Qed.

Lemma world_step_queue_matches (k : Consts) (s s' : System) (h : Happening) :
  queue_matches_tasks s -> world_step k s h = Some s' -> queue_matches_tasks s'.
Proof.
  intros Hinv. destruct h as [lab|ev l|o l|l]; intros H.
  - now apply (sys_step_queue_matches k s s' lab).
  - destruct (callback_steady k s s' (Emitted ev l) ltac:(discriminate) H)
      as ((_ & Hq & _) & Ht & _).
    unfold queue_matches_tasks. now rewrite Hq, Ht.
  - destruct (callback_steady k s s' (Connected o l) ltac:(discriminate) H)
      as ((_ & Hq & _) & Ht & _).
    unfold queue_matches_tasks. now rewrite Hq, Ht.
  - destruct (callback_steady k s s' (Tick l) ltac:(discriminate) H)
      as ((_ & Hq & _) & Ht & _).
    unfold queue_matches_tasks. now rewrite Hq, Ht.
Qed.

Lemma world_run_queue_matches (k : Consts) (hs : list Happening) (s s' : System) :
  queue_matches_tasks s -> world_run k s hs = Some s' -> queue_matches_tasks s'.
Proof.
  revert s. induction hs as [|h hs IH]; intros s Hinv Hrun; simpl in Hrun.
  - now inversion Hrun; subst.
  - destruct (world_step k s h) as [s1|] eqn:Hstep; [|discriminate].
    exact (IH s1 (world_step_queue_matches k s s1 h Hinv Hstep) Hrun).
Qed.

(** X9. [connectionQueue] holds exactly the calls that are suspended
    at it, each once: in every run of the event loop that starts with an
    empty queue, a caller is in the queue if and only if it waits there.
    So a release never resolves a caller that is not waiting, no waiter
    is dropped from the queue without being resolved, and none is queued
    twice. *)
Theorem queue_holds_the_waiting_callers (k : Consts) (g : Globals)
  (hs : list Happening) (s : System) :
  connectionQueue g = [] ->
  world_run k (system_init g) hs = Some s ->
  NoDup (connectionQueue (globals s)) /\
  forall me,
    me ∈ connectionQueue (globals s) <->
    exists t, tasks s !! me = Some t /\ pc t = AtQueue.
Proof.
  intros Hempty Hrun.
  apply (world_run_queue_matches k hs (system_init g) s); [|assumption].
  split; simpl; rewrite Hempty; [apply NoDup_nil_2|].
  intros me. split; [intros Hin; now apply elem_of_nil in Hin|].
  intros (t & Ht & _). now rewrite lookup_empty in Ht.
Qed.

Lemma queue_holds_the_waiting_callers_witness :
  exists s,
    world_run supabase_consts (system_init (supabase_globals "10.0.0.7"))
      (map Turn late_arrival) = Some s /\
    NoDup (connectionQueue (globals s)).
Proof.
  eexists. split; [vm_compute; reflexivity|].
  apply (queue_holds_the_waiting_callers supabase_consts (supabase_globals "10.0.0.7")
           (map Turn late_arrival)); [reflexivity | vm_compute; reflexivity].
Defined.

(** ** Every call settles, within its attempts *)

Lemma lands_weaken (t : Task) (rk al bl rk' al' bl' : Z) (st : Step) :
  lands t rk al bl st -> rk <= rk' -> al <= al' -> bl <= bl' ->
  lands t rk' al' bl' st.
Proof.
  intros (Hw & Hr & Hq & Hk & Hrank & Ha & Hb & Hf) ? ? ?.
  repeat split; try assumption; lia.
Qed.

Lemma lands_emit (t : Task) (rk al bl : Z) (evs : list Event) (st : Step) :
  attempts evs = [] -> backoffs evs = [] ->
  lands t rk al bl st -> lands t rk al bl (emit evs st).
Proof.
  intros Ha Hb. unfold lands.
  rewrite emit_task, emit_events, attempts_app, backoffs_app, Ha, Hb. exact id.
Qed.

Lemma lands_catch_clause (i : Z) (e : JsError) (t : Task) (g : Globals) :
  0 <= i < retries t ->
  lands t (5 * (retries t - i) - 4) (retries t - i - 1) (retries t - i - 1)
    (catch_clause i e t g).
Proof.
  intros Hi. unfold catch_clause.
  destruct (isConnectionError e && negb (i =? retries (with_lastErr e t) - 1)) eqn:Hcond.
  - apply andb_true_iff in Hcond as [_ Hlast]. apply negb_true_iff in Hlast.
    apply Z.eqb_neq in Hlast. simpl in Hlast.
    unfold lands, well_placed, rank, attempts_left, backoffs_left. simpl.
    repeat split; try discriminate; try lia.
    apply Forall_singleton. exists e, i. split; [lia | reflexivity].
  - unfold lands, well_placed, rank, attempts_left, backoffs_left. simpl.
    repeat split; try discriminate; try lia. apply Forall_nil_2.
Qed.

Lemma lands_begin_query (i : Z) (t : Task) (g : Globals) :
  0 <= i < retries t ->
  lands t (5 * (retries t - i) - 3) (retries t - i) (retries t - i - 1)
    (begin_query i t g).
Proof.
  intros Hi. unfold lands, well_placed, rank, attempts_left, backoffs_left. simpl.
  repeat split; try discriminate; try lia. apply Forall_nil_2.
Qed.

Lemma lands_after_full_wait (i : Z) (l : Live) (t : Task) (g : Globals) :
  0 <= i < retries t ->
  lands t (5 * (retries t - i) - 2) (retries t - i) (retries t - i - 1)
    (after_full_wait i l t g).
Proof.
  intros Hi. unfold after_full_wait. destruct (_ && _).
  - unfold lands, well_placed, rank, attempts_left, backoffs_left. simpl.
    repeat split; try discriminate; try lia. apply Forall_nil_2.
  - apply (lands_weaken _ _ _ _ _ _ _ _ (lands_begin_query i t g Hi)); lia.
Qed.

Lemma lands_after_idle_wait (k : Consts) (i : Z) (l : Live) (t : Task) (g : Globals) :
  0 <= i < retries t ->
  lands t (5 * (retries t - i) - 1) (retries t - i) (retries t - i - 1)
    (after_idle_wait k i l t g).
Proof.
  intros Hi. unfold after_idle_wait. destruct (geb_num _ _).
  - unfold lands, well_placed, rank, attempts_left, backoffs_left. simpl.
    repeat split; try discriminate; try lia. apply Forall_nil_2.
  - apply (lands_weaken _ _ _ _ _ _ _ _ (lands_after_full_wait i l t g Hi)); lia.
Qed.

Lemma lands_loop (k : Consts) (i : Z) (l : Live) (t : Task) (g : Globals) :
  0 <= i ->
  lands t (5 * Z.max (retries t - i) 0) (Z.max (retries t - i) 0)
    (Z.max (retries t - i - 1) 0) (loop k i l t g).
Proof.
  intros Hi. unfold loop. destruct (Z.ltb_spec i (retries t)) as [Hlt|Hge].
  - unfold loop_body.
    destruct ((updatePoolStats k l;;; getPostgresPool k) g) as [[e|p] g'].
    + apply (lands_weaken _ _ _ _ _ _ _ _ (lands_catch_clause i e t g' ltac:(lia))); lia.
    + destruct (isSupabase k).
      * destruct (_ && _).
        -- unfold lands, well_placed, rank, attempts_left, backoffs_left. simpl.
           repeat split; try discriminate; try lia. apply Forall_nil_2.
        -- apply (lands_weaken _ _ _ _ _ _ _ _
                    (lands_after_idle_wait k i l t g' ltac:(lia))); lia.
      * apply (lands_weaken _ _ _ _ _ _ _ _
                 (lands_after_full_wait i l t g' ltac:(lia))); lia.
  - unfold lands, well_placed, rank, attempts_left, backoffs_left. simpl.
    repeat split; try discriminate; try lia. apply Forall_nil_2.
Qed.

(** A segment brings the call nearer to its end and spends its attempts
    and backoff waits out of what is left. *)
Lemma lands_resume (k : Consts) (l : Live) (o : RaceOutcome) (t : Task) (g : Globals) :
  well_placed t -> runnable (pc t) = true ->
  lands t (rank t - 1) (attempts_left t) (backoffs_left t) (resume k l o t g).
Proof.
  unfold well_placed, rank, attempts_left, backoffs_left, resume.
  destruct (pc t) as [| |i|i|i|i|i e|r|e]; try discriminate; intros Hw _.
  - apply (lands_weaken _ _ _ _ _ _ _ _ (lands_loop k 0 l t g ltac:(lia))); lia.
  - apply (lands_weaken _ _ _ _ _ _ _ _ (lands_after_idle_wait k i l t g Hw)); lia.
  - apply (lands_weaken _ _ _ _ _ _ _ _ (lands_after_full_wait i l t g Hw)); lia.
  - apply (lands_weaken _ _ _ _ _ _ _ _ (lands_begin_query i t g Hw)); lia.
  - pose proof (finally_frame k i g) as (_ & _ & _ & Hb & Ha & _).
    destruct (finally_clause k i g) as [g' evs]. simpl in Hb, Ha.
    destruct o.
    + unfold lands, well_placed, rank, attempts_left, backoffs_left. simpl.
      rewrite Ha, Hb. repeat split; try discriminate; try (simpl; lia). apply Forall_nil_2.
    + apply lands_emit; try assumption.
      apply (lands_weaken _ _ _ _ _ _ _ _ (lands_catch_clause i error t g' Hw)); lia.
    + apply lands_emit; try assumption.
      apply (lands_weaken _ _ _ _ _ _ _ _ (lands_catch_clause i _ t g' Hw)); lia.
  - destruct (updatePoolStats k l (record_error e g)) as [[e'|u] g'].
    + unfold lands, well_placed, rank, attempts_left, backoffs_left. simpl.
      repeat split; try discriminate; try lia. apply Forall_nil_2.
    + apply lands_emit; try reflexivity.
      apply (lands_weaken _ _ _ _ _ _ _ _ (lands_loop k (i + 1) l t g' ltac:(lia))); lia.
Qed.

Lemma rank_positive (t : Task) :
  well_placed t -> runnable (pc t) = true -> 1 <= rank t.
Proof.
  unfold well_placed, rank. destruct (pc t); try discriminate; intros; lia.
Qed.

Lemma settled_or_runnable (p : PC) :
  p <> AtQueue -> settled p = true \/ runnable p = true.
Proof. destruct p; auto; congruence. Qed.

Lemma left_nonnegative (t : Task) :
  well_placed t -> 0 <= attempts_left t /\ 0 <= backoffs_left t.
Proof.
  unfold well_placed, attempts_left, backoffs_left. destruct (pc t); intros; lia.
Qed.

(** With fuel for its rank, a call that runs alone settles, within the
    attempts and the backoff waits it has left. *)
Lemma run_alone_lands (k : Consts) (live : nat -> Live) (outcome : Z -> RaceOutcome)
  (fuel : nat) :
  forall (n : nat) (g : Globals) (t : Task) (evs : list Event),
    well_placed t -> pc t <> AtQueue -> rank t <= Z.of_nat fuel ->
    settled (pc (run_alone k live outcome fuel n (g, t, evs)).1.2) = true /\
    retries (run_alone k live outcome fuel n (g, t, evs)).1.2 = retries t /\
    Z.of_nat (length (attempts (run_alone k live outcome fuel n (g, t, evs)).2))
      <= Z.of_nat (length (attempts evs)) + attempts_left t /\
    Z.of_nat (length (backoffs (run_alone k live outcome fuel n (g, t, evs)).2))
      <= Z.of_nat (length (backoffs evs)) + backoffs_left t /\
    (Forall (backoff_of (retries t)) (backoffs evs) ->
     Forall (backoff_of (retries t))
       (backoffs (run_alone k live outcome fuel n (g, t, evs)).2)).
Proof.
  induction fuel as [|fuel IH]; intros n g t evs Hw Hq Hrank.
  - destruct (settled_or_runnable (pc t) Hq) as [Hs|Hr].
    + pose proof (left_nonnegative t Hw). simpl. repeat split; auto; lia.
    + pose proof (rank_positive t Hw Hr). lia.
  - destruct (settled_or_runnable (pc t) Hq) as [Hs|Hr].
    + rewrite (run_alone_settled k live outcome (S fuel) n g t evs Hs).
      pose proof (left_nonnegative t Hw). simpl. repeat split; auto; lia.
    + assert (settled (pc t) = false) as Hns by (destruct (pc t); auto; discriminate).
      simpl. rewrite Hns.
      pose proof (lands_resume k (live n) (outcome (attempt_index (pc t))) t g Hw Hr)
        as (Hw1 & Hr1 & Hq1 & _ & Hrank1 & Ha1 & Hb1 & Hf1).
      destruct (resume k (live n) (outcome (attempt_index (pc t))) t g)
        as [[g1 t1] evs1]. simpl in *.
      destruct (IH (S n) g1 t1 (evs ++ evs1)%list Hw1 Hq1 ltac:(lia))
        as (Hs2 & Hr2 & Ha2 & Hb2 & Hf2).
      rewrite attempts_app, backoffs_app, !length_app, Hr1 in *.
      repeat split; try assumption; try lia.
      intros Hf. apply Hf2. apply Forall_app. split; assumption.
Qed.

Lemma run_alone_more_fuel (k : Consts) (live : nat -> Live) (outcome : Z -> RaceOutcome)
  (fuel extra : nat) :
  forall (n : nat) (st : Step),
    settled (pc (run_alone k live outcome fuel n st).1.2) = true ->
    run_alone k live outcome (fuel + extra) n st = run_alone k live outcome fuel n st.
Proof.
  induction fuel as [|fuel IH]; intros n [[g t] evs] Hs.
  - simpl in *. now apply run_alone_settled.
  - simpl in *. destruct (settled (pc t)); [reflexivity|]. now apply IH.
Qed.

Lemma backoff_of_bounds (R w : Z) :
  backoff_of R w -> 1000 <= w <= 15000 /\ (R <= 3 -> w <= 6000).
Proof.
  intros (e & i & Hi & ->). unfold waitTime.
  assert (0 < 2 ^ i) as Hpow by (apply Z.pow_pos_nonneg; lia).
  assert (1000 <= baseWaitTime e <= 3000) as Hbase
    by (unfold baseWaitTime; destruct (includes _ _); lia).
  split; [split; [apply Z.min_glb; nia | apply Z.le_min_r]|].
  intros HR. assert (i = 0 \/ i = 1) as [-> | ->] by lia.
  - change (2 ^ 0) with 1. lia.
  - change (2 ^ 1) with 2. lia.
Qed.

(** X10. A call that is let through the gate always settles when it runs
    on its own, whatever the pool counters read and however each race
    ends: after at most [5 * max retries 0] further segments it has
    returned or thrown, having made at most [max retries 0] attempts and
    at most [max (retries - 1) 0] backoff waits, each between 1000 and
    15000 ms ([retries] being the clamped value).  On Supabase no
    backoff wait exceeds 6000 ms: with at most three attempts the
    15000 ms cap is never reached. *)
Theorem call_settles_within_its_attempts (k : Consts) (live : nat -> Live)
  (outcome : Z -> RaceOutcome) (me : TaskId) (retries0 timeout0 : Z) (g : Globals) :
  gate_open k g ->
  exists final,
    (forall fuel, (Z.to_nat (5 * Z.max (effective_retries k retries0) 0) <= fuel)%nat ->
       run_alone k live outcome fuel 1 (queryWithRetry k me retries0 timeout0 (live 0%nat) g)
       = final) /\
    settled (pc final.1.2) = true /\
    Z.of_nat (length (attempts final.2)) <= Z.max (effective_retries k retries0) 0 /\
    Z.of_nat (length (backoffs final.2)) <= Z.max (effective_retries k retries0 - 1) 0 /\
    Forall (fun w => 1000 <= w <= 15000) (backoffs final.2) /\
    (isSupabase k = true -> Forall (fun w => w <= 6000) (backoffs final.2)).
Proof.
  intros Hgate. rewrite (call_passes k me retries0 timeout0 (live 0%nat) g Hgate).
  pose proof (lands_loop k 0 (live 0%nat) (entering k retries0 timeout0) g ltac:(lia))
    as (Hw & Hr & Hq & _ & Hrank & Ha & Hb & Hf).
  destruct (loop k 0 (live 0%nat) (entering k retries0 timeout0) g) as [[g0 t0] evs0].
  simpl in Hw, Hr, Hq, Hrank, Ha, Hb, Hf. rewrite Z.sub_0_r in *.
  set (fuel0 := Z.to_nat (5 * Z.max (effective_retries k retries0) 0)).
  destruct (run_alone_lands k live outcome fuel0 1 g0 t0 ([EvPass] ++ evs0)%list Hw Hq)
    as (Hs & Hr' & Ha' & Hb' & Hf').
  { unfold fuel0. lia. }
  exists (run_alone k live outcome fuel0 1 (g0, t0, ([EvPass] ++ evs0)%list)).
  change (attempts ([EvPass] ++ evs0)) with (attempts evs0) in Ha'.
  change (backoffs ([EvPass] ++ evs0)) with (backoffs evs0) in Hb', Hf'.
  rewrite Hr in Hf'. specialize (Hf' Hf). simpl retries in Hf'.
  split; [|split; [exact Hs|split; [lia|split; [lia|split]]]].
  - intros fuel Hfuel. replace fuel with (fuel0 + (fuel - fuel0))%nat by lia.
    apply run_alone_more_fuel. exact Hs.
  - eapply Forall_impl; [exact Hf'|]. intros w Hwait.
    now apply (backoff_of_bounds _ w Hwait).
  - intros Hk. eapply Forall_impl; [exact Hf'|]. intros w Hwait.
    apply (backoff_of_bounds _ w Hwait).
    unfold effective_retries. rewrite Hk. lia.
Qed.

Lemma call_settles_within_its_attempts_witness :
  exists final,
    (forall fuel, (15 <= fuel)%nat ->
       run_alone supabase_consts (fun _ => calm) quota_then_reset fuel 1
         (queryWithRetry supabase_consts 1%nat 3 30000 calm (supabase_globals "10.0.0.7"))
       = final) /\
    settled (pc final.1.2) = true.
Proof.
  destruct (call_settles_within_its_attempts supabase_consts (fun _ => calm)
              quota_then_reset 1%nat 3 30000 (supabase_globals "10.0.0.7") eq_refl)
    as (final & Hrun & Hs & _).
  exists final. split; [exact Hrun | exact Hs].
Defined.

(** X11. With [retries] at most 0 no query is sent.  A call that is let
    through the gate throws [Error('Query failed after all retries')]
    in its first segment and leaves the globals as they are, the error
    counter included; a call that was queued does the same once it is
    resolved, and resolves no other waiter on its way out. *)
Theorem no_attempt_without_retries (k : Consts) (me : TaskId) (retries0 timeout0 : Z)
  (l : Live) (o : RaceOutcome) (g : Globals) :
  effective_retries k retries0 <= 0 ->
  (gate_open k g ->
   queryWithRetry k me retries0 timeout0 l g =
     (g, at_pc (Thrown (error_of_message "Query failed after all retries"))
           (entering k retries0 timeout0),
      [EvPass])) /\
  (forall g',
     resume k l o (at_pc Woken (entering k retries0 timeout0)) g' =
       (g', at_pc (Thrown (error_of_message "Query failed after all retries"))
              (entering k retries0 timeout0),
        [])).
Proof.
  intros HR. split.
  - intros Hgate. rewrite (call_passes k me retries0 timeout0 l g Hgate).
    unfold loop. simpl retries.
    destruct (Z.ltb_spec 0 (effective_retries k retries0)); [lia | reflexivity].
  - intros g'. unfold resume, loop. simpl.
    destruct (Z.ltb_spec 0 (effective_retries k retries0)); [lia | reflexivity].
Qed.

Lemma no_attempt_without_retries_witness :
  queryWithRetry supabase_consts 1%nat 0 30000 calm (supabase_globals "10.0.0.7") =
    (supabase_globals "10.0.0.7",
     at_pc (Thrown (error_of_message "Query failed after all retries"))
       (entering supabase_consts 0 30000),
     [EvPass]).
Proof.
  exact (proj1 (no_attempt_without_retries supabase_consts 1%nat 0 30000 calm TimerFired
                  (supabase_globals "10.0.0.7") ltac:(vm_compute; discriminate)) eq_refl).
Defined.

(** X12. Before the pool of a deferred target is initialised, a call
    that is let through the gate fails in its first segment: it throws
    the "pool not initialized" error without an attempt and without a
    backoff wait, however many retries it has, and counts one error. *)
Theorem call_before_initialization (k : Consts) (me : TaskId) (retries0 timeout0 : Z)
  (l : Live) (g : Globals) :
  gate_open k g -> postgresPool g = None -> deferred k (postgresConfig g) = true ->
  1 <= effective_retries k retries0 ->
  queryWithRetry k me retries0 timeout0 l g =
    (record_error not_initialized_error g,
     at_pc (Thrown not_initialized_error)
       (with_lastErr not_initialized_error (entering k retries0 timeout0)),
     [EvPass; EvError]).
Proof.
  intros Hgate Hnone Hdef HR.
  rewrite (call_passes k me retries0 timeout0 l g Hgate).
  unfold loop. simpl retries.
  destruct (Z.ltb_spec 0 (effective_retries k retries0)); [|lia].
  unfold loop_body.
  assert ((updatePoolStats k l;;; getPostgresPool k) g = (inl not_initialized_error, g)) as ->.
  { assert ((updatePoolStats k l;;; getPostgresPool k) g =
            match updatePoolStats k l g with
            | (inr _, g') => getPostgresPool k g'
            | (inl e, g') => (inl e, g')
            end) as -> by reflexivity.
    now rewrite (updatePoolStats_deferred k l g Hnone Hdef). }
  reflexivity.
Qed.

Lemma call_before_initialization_witness :
  queryWithRetry supabase_consts 1%nat 3 30000 empty_pool
    (supabase_globals "db.abc.supabase.co") =
    (record_error not_initialized_error (supabase_globals "db.abc.supabase.co"),
     at_pc (Thrown not_initialized_error)
       (with_lastErr not_initialized_error (entering supabase_consts 3 30000)),
     [EvPass; EvError]).
Proof.
  exact (call_before_initialization supabase_consts 1%nat 3 30000 empty_pool
           (supabase_globals "db.abc.supabase.co") eq_refl eq_refl eq_refl
           ltac:(vm_compute; discriminate)).
Defined.

(** ** Address resolution *)

(** X13. [resolveHostnameToIPv4] never makes an address up: an address it
    returns is the answer of the IPv4 lookup, or, when that lookup is
    rejected, the first IPv4 entry of the list of all addresses, or,
    when the list has none, the answer of the plain lookup if that is
    IPv4.  For a name with IPv6 records only it returns [null]. *)
Theorem resolved_address_comes_from_dns (dns : Dns) (hostname : string) :
  (forall a, resolveHostnameToIPv4 dns hostname = Some a ->
     (exists r, lookup4 dns hostname = inr r /\ address r = a) \/
     (exists e addrs r,
        lookup4 dns hostname = inl e /\ lookup_all dns hostname = inr addrs /\
        List.find (fun addr => family addr =? 4) addrs = Some r /\
        r ∈ addrs /\ family r = 4 /\ address r = a) \/
     (exists e addrs r,
        lookup4 dns hostname = inl e /\ lookup_all dns hostname = inr addrs /\
        (forall x, x ∈ addrs -> family x <> 4) /\
        lookup dns hostname = inr r /\ family r = 4 /\ address r = a)) /\
  ((exists e, lookup4 dns hostname = inl e) ->
   (forall addrs x, lookup_all dns hostname = inr addrs -> x ∈ addrs -> family x <> 4) ->
   (forall r, lookup dns hostname = inr r -> family r <> 4) ->
   resolveHostnameToIPv4 dns hostname = None).
Proof.
  unfold resolveHostnameToIPv4. split.
  - intros a H.
    destruct (lookup4 dns hostname) as [e|r]; [|left; exists r; split; congruence].
    right. destruct (lookup_all dns hostname) as [e'|addrs]; [discriminate|].
    destruct (List.find _ addrs) as [r|] eqn:Hfind.
    + left. exists e, addrs, r. apply List.find_some in Hfind as Hr. destruct Hr as [Hin Hfam].
      repeat split; try congruence.
      * now apply list_elem_of_In.
      * now apply Z.eqb_eq.
    + right. destruct (lookup dns hostname) as [e'|r]; [discriminate|].
      destruct (Z.eqb_spec (family r) 4) as [Hfam|]; [|discriminate].
      exists e, addrs, r. repeat split; try congruence.
      intros x Hx. apply list_elem_of_In in Hx.
      pose proof (List.find_none _ _ Hfind x Hx) as Hno. now apply Z.eqb_neq.
  - intros [e He] Hall Hany. rewrite He.
    destruct (lookup_all dns hostname) as [e'|addrs]; [reflexivity|].
    destruct (List.find _ addrs) as [r|] eqn:Hfind.
    + apply List.find_some in Hfind as [Hin Hfam].
      apply Z.eqb_eq in Hfam. apply list_elem_of_In in Hin.
      now destruct (Hall addrs r eq_refl Hin).
    + destruct (lookup dns hostname) as [e'|r]; [reflexivity|].
      destruct (Z.eqb_spec (family r) 4) as [Hfam|]; [|reflexivity].
      now destruct (Hany r eq_refl).
Qed.

Lemma resolved_address_comes_from_dns_witness :
  resolveHostnameToIPv4 dns_ipv6_only "db.abc.supabase.co" = None.
Proof.
  apply (proj2 (resolved_address_comes_from_dns dns_ipv6_only "db.abc.supabase.co")).
  - eexists. reflexivity.
  - intros addrs x Hall Hx. inversion Hall; subst.
    apply list_elem_of_singleton in Hx. subst. discriminate.
  - intros r Hr. inversion Hr; subst. discriminate.
Defined.

(** ** Initialisation and what follows it *)

(** X14. [initializePostgresPool] always leaves a usable pool, whatever
    the resolver answers: afterwards [getPostgresPool] returns the pool
    it built, which carries one set of listeners, and [getPoolStats]
    returns a snapshot.  When the first lookup is rejected the
    configuration is left as it was, so the pool is bound to the host
    name. *)
Theorem initialization_makes_the_pool_usable (k : Consts) (dns : Dns) (l : Live)
  (g : Globals) :
  exists p g1,
    initializePostgresPool k dns g = (inr p, g1) /\
    handlers p = 1%nat /\
    getPostgresPool k g1 = (inr p, g1) /\
    (exists g2, getPoolStats k l g1 = (inr (refreshed k l (poolStats g)), g2)) /\
    ((exists e, lookup dns (default "" (cfg_host (postgresConfig g))) = inl e) ->
     postgresConfig g1 = postgresConfig g /\ options p = postgresConfig g).
Proof.
  destruct (initializePostgresPool_effect k dns g)
    as (p & g1 & Hinit & Hc & Hp & Hpool & Hs & _).
  exists p, g1. split; [exact Hinit|]. split; [now subst p|].
  split; [now apply getPostgresPool_existing|]. split.
  - destruct (updatePoolStats_available k l g1) as (g2 & Hu & _ & _ & Hs2 & _).
    { intros Hnone. congruence. }
    exists g2. unfold getPoolStats, bind, get, ret. now rewrite Hu, Hs2, Hs.
  - intros [e He].
    assert (postgresConfig g1 = postgresConfig g) as Hsame.
    { revert Hinit. unfold initializePostgresPool, bind, get, modify, ret. simpl.
      destruct (deferred k (postgresConfig g)); simpl.
      - rewrite He. simpl. intros H; now inversion H.
      - intros H; now inversion H. }
    split; [exact Hsame|]. subst p. simpl. exact Hsame.
Qed.

Lemma initialization_makes_the_pool_usable_witness :
  exists p g1,
    initializePostgresPool supabase_consts dns_down (supabase_globals "db.abc.supabase.co")
      = (inr p, g1) /\
    cfg_host (options p) = Some "db.abc.supabase.co".
Proof.
  destruct (initialization_makes_the_pool_usable supabase_consts dns_down calm
              (supabase_globals "db.abc.supabase.co"))
    as (p & g1 & Hinit & _ & _ & _ & Hdown).
  exists p, g1. split; [exact Hinit|].
  destruct Hdown as [_ ->]; [eexists; reflexivity | reflexivity].
Defined.





(** ** The listeners of the pool *)

Lemma on_pool_error_counts (k : Consts) (l : Live) (e : JsError) (g : Globals) (p : Pool) :
  postgresPool g = Some p ->
  exists g',
    on_pool_error k l e g = (inr tt, g') /\ postgresPool g' = Some p /\
    errors (poolStats g') = errors (poolStats g) + 1 /\
    lastError (poolStats g') = Some e.
Proof.
  intros Hp. unfold on_pool_error, bind, modify. simpl.
  destruct (updatePoolStats_available k l (record_error e g))
    as (g' & Hu & _ & _ & Hs & _).
  { intros Hnone. simpl in Hnone. congruence. }
  exists g'. rewrite Hu. split; [reflexivity|].
  pose proof (steady_updatePoolStats k l (record_error e g)) as ((_ & _ & Hsome & _) & _).
  rewrite Hu in Hsome. simpl in Hsome.
  split; [now apply Hsome|]. now rewrite Hs.
Qed.

Lemma each_error_listener_counts (k : Consts) (l : Live) (e : JsError) (p : Pool) (n : nat) :
  forall g,
    postgresPool g = Some p ->
    exists g',
      each_listener n (on_pool_error k l e) g = (inr tt, g') /\
      postgresPool g' = Some p /\
      errors (poolStats g') = errors (poolStats g) + Z.of_nat n.
Proof.
  induction n as [|n IH]; intros g Hp.
  - exists g. repeat split; auto. lia.
  - destruct (on_pool_error_counts k l e g p Hp) as (g1 & H1 & Hp1 & He1 & _).
    destruct (IH g1 Hp1) as (g2 & H2 & Hp2 & He2).
    exists g2. simpl. unfold bind. rewrite H1, H2. repeat split; auto. lia.
Qed.

Lemma first_connection_registers_twice (k : Consts) (dns : Dns) (pr : Probes)
  (g : Globals) :
  isSupabase k = true -> postgresPool g = None -> first_probe pr = None ->
  exists p g1,
    first_connection k dns pr g = (inr tt, g1) /\
    postgresPool g1 = Some p /\ handlers p = 2%nat.
Proof.
  intros Hk Hnone Hok. unfold first_connection, bind, get. simpl.
  rewrite Hk, Hnone. simpl.
  destruct (initializePostgresPool_effect k dns g) as (p & g' & -> & _ & Hp & _).
  unfold modify. simpl. rewrite Hok. unfold ret.
  eexists _, _. split; [reflexivity|]. split; [reflexivity|]. now subst p.
Qed.

(** X16. An ['error'] event of the pool is counted once for every time
    [setupPoolHandlers] ran on the pool, and the last error recorded is
    that error.  A pool built when the module loads carries one set of
    listeners; a Supabase pool that [testPostgresConnection] initialises
    carries two, since [setupPoolHandlers] runs in
    [initializePostgresPool] and again after it: one error of that pool
    raises [poolStats.errors] by 2. *)
Theorem pool_error_counted_per_listener (k : Consts) (l : Live) (e : JsError) :
  (forall g p,
     postgresPool g = Some p ->
     exists g',
       pool_emits k l (PoolError e) g = (inr tt, g') /\
       errors (poolStats g') = errors (poolStats g) + Z.of_nat (handlers p)) /\
  (forall c p,
     postgresPool (module_init k c) = Some p -> handlers p = 1%nat) /\
  (forall dns dns2 pr g,
     isSupabase k = true -> postgresPool g = None -> first_probe pr = None ->
     exists g1 g2,
       testPostgresConnection k dns dns2 pr g = (inr true, g1) /\
       pool_emits k l (PoolError e) g1 = (inr tt, g2) /\
       errors (poolStats g2) = errors (poolStats g1) + 2).
Proof.
  split; [|split].
  - intros g p Hp. unfold pool_emits, bind, get. simpl. rewrite Hp.
    destruct (each_error_listener_counts k l e p (handlers p) g Hp) as (g' & H & _ & He).
    exists g'. split; assumption.
  - intros c p. rewrite module_init_pool. destruct (deferred k c); [discriminate|].
    intros H; inversion H; subst. reflexivity.
  - intros dns dns2 pr g Hk Hnone Hok.
    destruct (first_connection_registers_twice k dns pr g Hk Hnone Hok)
      as (p & g1 & Hfirst & Hp & Hh).
    destruct (each_error_listener_counts k l e p (handlers p) g1 Hp) as (g2 & H & _ & He).
    exists g1, g2. unfold testPostgresConnection. rewrite Hfirst.
    split; [reflexivity|]. split.
    + unfold pool_emits, bind, get. simpl. now rewrite Hp.
    + rewrite He, Hh. reflexivity.
Qed.

Lemma pool_error_counted_per_listener_witness :
  exists g1 g2,
    testPostgresConnection supabase_consts (dns_ipv4 "203.0.113.5") dns_down probes_ok
      (supabase_globals "db.abc.supabase.co") = (inr true, g1) /\
    pool_emits supabase_consts calm (PoolError econnreset) g1 = (inr tt, g2) /\
    errors (poolStats g2) = errors (poolStats g1) + 2.
Proof.
  exact (proj2 (proj2 (pool_error_counted_per_listener supabase_consts calm econnreset))
           (dns_ipv4 "203.0.113.5") dns_down probes_ok
           (supabase_globals "db.abc.supabase.co") eq_refl eq_refl eq_refl).
Defined.

(** X17. What the ['error'] listener of the pool logs as a connection
    error, [queryWithRetry] retries: the listener's test implies
    [isConnectionError].  The converse fails: an error with code XX000
    and no connection wording is retried by [queryWithRetry] and logged
    as unexpected by the listener. *)
Theorem listener_test_implies_retry_test :
  (forall e, listener_isConnectionError e = true -> isConnectionError e = true) /\
  isConnectionError internal_error = true /\
  listener_isConnectionError internal_error = false.
Proof.
  split; [|split; reflexivity].
  intros e. unfold listener_isConnectionError, isConnectionError.
  destruct (code e) as [[|c cs]|], (message e) as [[|m ms]|]; simpl;
    intros H;
    repeat match type of H with
           | (_ || _) = true => apply orb_true_iff in H as [H|H]
           end;
    try discriminate; rewrite H; rewrite ?orb_true_r; reflexivity.
Qed.

(** ** The health probe and the default export *)

(** X18. Before the pool of a deferred target is initialised,
    [checkPoolHealth] does not throw, unlike [getPoolStats]: it reports
    [healthy: false] with the "pool not initialized" message, without
    calling [queryWithRetry] and without counting an error. *)
Theorem health_check_before_initialization (k : Consts) (me : TaskId) (l : Live)
  (g : Globals) :
  postgresPool g = None -> deferred k (postgresConfig g) = true ->
  checkPoolHealth_call k me l g =
    inl (Unhealthy (poolStats g) (message not_initialized_error), g) /\
  getPoolStats k l g = (inl not_initialized_error, g).
Proof.
  intros Hnone Hdef. unfold checkPoolHealth_call, getPoolStats, bind.
  now rewrite (updatePoolStats_deferred k l g Hnone Hdef).
Qed.

Lemma health_check_before_initialization_witness :
  checkPoolHealth_call supabase_consts 1%nat calm (supabase_globals "db.abc.supabase.co") =
    inl (Unhealthy poolStats_init
           (Some "PostgreSQL pool not initialized. Call initializePostgresPool() first for Supabase."),
         supabase_globals "db.abc.supabase.co").
Proof.
  exact (proj1 (health_check_before_initialization supabase_consts 1%nat calm
                  (supabase_globals "db.abc.supabase.co") eq_refl eq_refl)).
Defined.

(** X19. With a pool and an open gate, [checkPoolHealth] always comes to
    a report: the probe it awaits settles after at most 10 segments with
    at most 2 attempts and 1 backoff wait, and the report is
    [healthy: true] exactly when the probe returned. *)
Theorem health_check_reports (k : Consts) (live : nat -> Live)
  (outcome : Z -> RaceOutcome) (me : TaskId) (g : Globals) :
  pool_available k g -> gate_open k g ->
  exists st final,
    checkPoolHealth_call k me (live 0%nat) g = inr st /\
    (forall fuel, (10 <= fuel)%nat -> run_alone k live outcome fuel 1 st = final) /\
    Z.of_nat (length (attempts final.2)) <= 2 /\
    Z.of_nat (length (backoffs final.2)) <= 1 /\
    ((exists r ts, pc final.1.2 = Returned (Rows r) /\
        checkPoolHealth_report final = Some (Healthy (poolStats final.1.1) ts)) \/
     (exists e, pc final.1.2 = Thrown e /\
        checkPoolHealth_report final = Some (Unhealthy (poolStats final.1.1) (message e)))).
Proof.
  intros Hav Hgate. unfold checkPoolHealth_call.
  destruct (updatePoolStats_available k (live 0%nat) g Hav)
    as (g0 & Hu & _ & _ & _ & _ & Ha0).
  rewrite Hu.
  assert (gate_open k g0) as Hgate0 by (unfold gate_open in *; now rewrite Ha0).
  exists (queryWithRetry k me 2 10000 (live 0%nat) g0),
         (run_alone k live outcome 10 1 (queryWithRetry k me 2 10000 (live 0%nat) g0)).
  split; [reflexivity|].
  rewrite (call_passes k me 2 10000 (live 0%nat) g0 Hgate0).
  assert (effective_retries k 2 = 2) as HR
    by (unfold effective_retries; destruct (isSupabase k); reflexivity).
  pose proof (lands_loop k 0 (live 0%nat) (entering k 2 10000) g0 ltac:(lia))
    as (Hw & Hr & Hq & _ & Hrank & Ha & Hb & _).
  destruct (loop k 0 (live 0%nat) (entering k 2 10000) g0) as [[g1 t1] evs1].
  simpl in Hw, Hr, Hq, Hrank, Ha, Hb. rewrite HR in *.
  change (emit [EvPass] (g1, t1, evs1)) with (g1, t1, ([EvPass] ++ evs1)%list).
  destruct (run_alone_lands k live outcome 10 1 g1 t1 ([EvPass] ++ evs1)%list Hw Hq)
    as (Hs & _ & Ha' & Hb' & _).
  { simpl in *. lia. }
  change (attempts ([EvPass] ++ evs1)) with (attempts evs1) in Ha'.
  change (backoffs ([EvPass] ++ evs1)) with (backoffs evs1) in Hb'.
  split.
  { intros fuel Hfuel. replace fuel with (10 + (fuel - 10))%nat by lia.
    apply run_alone_more_fuel. exact Hs. }
  split; [simpl in *; lia|]. split; [simpl in *; lia|].
  destruct (run_alone k live outcome 10 1 (g1, t1, ([EvPass] ++ evs1)%list))
    as [[gf tf] evf]. simpl in Hs |- *.
  destruct (pc tf) as [| |i|i|i|i|i e|[rows]|e]; try discriminate.
  - left. eauto.
  - right. eauto.
Qed.

Lemma health_check_reports_witness :
  exists st final,
    checkPoolHealth_call supabase_consts 1%nat calm (supabase_globals "10.0.0.7") = inr st /\
    (forall fuel, (10 <= fuel)%nat ->
       run_alone supabase_consts (fun _ => calm) always_reset fuel 1 st = final) /\
    Z.of_nat (length (attempts final.2)) <= 2.
Proof.
  destruct (health_check_reports supabase_consts (fun _ => calm) always_reset 1%nat
              (supabase_globals "10.0.0.7") sample_pool_available eq_refl)
    as (st & final & Hcall & Hrun & Ha & _).
  exists st, final. auto.
Defined.



(** ** The fallback pattern *)

Lemma append_assoc_s (a b c : string) : ((a ++ b) ++ c = a ++ (b ++ c))%string.
Proof.
  induction a as [|x a IH]; [reflexivity|].
  change (String x ((a ++ b) ++ c) = String x (a ++ (b ++ c)))%string.
  f_equal. exact IH.
Qed.

Lemma lit_sound (p s r : string) : lit p s = Some r -> s = (p ++ r)%string.
Proof.
  unfold lit. destruct (String.prefix p s) eqn:Hpre; [|discriminate].
  intros H; inversion H; subst; clear H. revert s Hpre.
  induction p as [|a p IH]; intros s Hpre; [reflexivity|].
  destruct s as [|b s]; simpl in *; [discriminate|].
  destruct (Ascii.ascii_dec a b) as [->|]; [|discriminate].
  change (String b s = String b (p ++ drop_chars (String.length p) s))%string.
  f_equal. now apply IH.
Qed.

(** A greedy run that matched took a non-empty prefix of characters of
    its class, and the rest of the pattern matched what follows. *)
Lemma plus_then_sound {A : Type} (c : ascii -> bool) (s : string) :
  forall (k : string -> string -> option A) (r : A),
    plus_then c k s = Some r ->
    exists cap rest,
      s = (cap ++ rest)%string /\ cap <> EmptyString /\ all_chars c cap = true /\
      k cap rest = Some r.
Proof.
  induction s as [|a s IH]; intros k r H; simpl in H; [discriminate|].
  destruct (c a) eqn:Hc; [|discriminate].
  destruct (plus_then c (fun cap rest => k (String a cap) rest) s) as [r0|] eqn:Hin.
  - inversion H; subst r0; clear H.
    destruct (IH _ _ Hin) as (cap & rest & -> & _ & Hall & Hk).
    exists (String a cap), rest. simpl. rewrite Hc, Hall. repeat split; auto; try discriminate.
  - exists (String a EmptyString), s. simpl. rewrite Hc. repeat split; auto; try discriminate.
Qed.

(** When nothing follows the run in the pattern, the run is the longest
    one: it stops at the end of the input or at a character outside the
    class. *)
Lemma plus_then_greedy {A : Type} (c : ascii -> bool) (s : string) :
  forall (f : string -> A) (r : A),
    plus_then c (fun cap _ => Some (f cap)) s = Some r ->
    exists cap rest,
      s = (cap ++ rest)%string /\ cap <> EmptyString /\ all_chars c cap = true /\
      r = f cap /\
      (rest = EmptyString \/ exists a rest', rest = String a rest' /\ c a = false).
Proof.
  induction s as [|a s IH]; intros f r H; simpl in H; [discriminate|].
  destruct (c a) eqn:Hc; [|discriminate].
  destruct (plus_then c (fun cap _ => Some (f (String a cap))) s) as [r0|] eqn:Hin.
  - inversion H; subst r0; clear H.
    destruct (IH (fun cap => f (String a cap)) r Hin) as (cap & rest & -> & _ & Hall & Hr & Hend).
    exists (String a cap), rest. simpl. rewrite Hc, Hall. repeat split; auto; try discriminate.
  - inversion H; subst r; clear H.
    exists (String a EmptyString), s. simpl. rewrite Hc. repeat split; auto; try discriminate.
    destruct s as [|b s]; [now left|]. right. exists b, s. split; [reflexivity|].
    simpl in Hin. destruct (c b); [|reflexivity].
    destruct (plus_then c (fun cap _ => Some (f (String a (String b cap)))) s); discriminate.
Qed.

Lemma match_target_sound (user pass : option string) (s : string) (m : UrlMatch) :
  match_target user pass s = Some m ->
  m_user m = user /\ m_password m = pass /\
  m_hostname m <> EmptyString /\ all_chars (is_not ":") (m_hostname m) = true /\
  digits1 (m_port m) = true /\
  m_database m <> EmptyString /\ all_chars (is_not "?") (m_database m) = true /\
  exists post,
    s = (m_hostname m ++ ":" ++ m_port m ++ "/" ++ m_database m ++ post)%string /\
    (post = EmptyString \/ String.prefix "?" post = true).
Proof.
  unfold match_target. intros H.
  apply plus_then_sound in H as (host & r1 & -> & Hhost & Hhostc & H).
  destruct (lit ":" r1) as [r2|] eqn:H1; [|discriminate]. simpl in H.
  apply lit_sound in H1 as ->.
  apply plus_then_sound in H as (digits & r3 & -> & Hdig & Hdigc & H).
  destruct (lit "/" r3) as [r4|] eqn:H3; [|discriminate]. simpl in H.
  apply lit_sound in H3 as ->.
  apply (plus_then_greedy (is_not "?") r4
           (fun db => {| m_user := user; m_password := pass; m_hostname := host;
                         m_port := digits; m_database := db |})) in H
    as (db & post & -> & Hdb & Hdbc & -> & Hend).
  simpl. repeat split; auto.
  - unfold digits1. destruct digits; [congruence|exact Hdigc].
  - exists post. split.
    + rewrite ?append_assoc_s. reflexivity.
    + destruct Hend as [->|(a & rest' & -> & Ha)]; [now left|]. right.
      unfold is_not in Ha. apply negb_false_iff, Ascii.eqb_eq in Ha. subst a.
      simpl. destruct (Ascii.ascii_dec "?" "?"); [now destruct rest'|congruence].
Qed.

Lemma match_authority_sound (s : string) (m : UrlMatch) :
  match_authority s = Some m ->
  (m_user m = None <-> m_password m = None) /\
  m_hostname m <> EmptyString /\ all_chars (is_not ":") (m_hostname m) = true /\
  digits1 (m_port m) = true /\
  m_database m <> EmptyString /\ all_chars (is_not "?") (m_database m) = true /\
  exists post,
    s = (credentials m ++ m_hostname m ++ ":" ++ m_port m ++ "/" ++ m_database m
           ++ post)%string /\
    (post = EmptyString \/ String.prefix "?" post = true).
Proof.
  unfold match_authority, orelse. intros H.
  match type of H with
  | match ?a with _ => _ end = _ => destruct a as [m0|] eqn:Hgroup
  end.
  - inversion H; subst m0; clear H.
    apply plus_then_sound in Hgroup as (user & r1 & -> & _ & _ & H).
    destruct (lit ":" r1) as [r2|] eqn:H1; [|discriminate]. simpl in H.
    apply lit_sound in H1 as ->.
    apply plus_then_sound in H as (pass & r3 & -> & _ & _ & H).
    destruct (lit "@" r3) as [r4|] eqn:H3; [|discriminate]. simpl in H.
    apply lit_sound in H3 as ->.
    apply match_target_sound in H
      as (Hu & Hp & Hh & Hhc & Hd & Hdb & Hdbc & post & -> & Hend).
    repeat split; auto; try (rewrite Hu, Hp; discriminate).
    exists post. split; [|exact Hend].
    unfold credentials. rewrite Hu, Hp. rewrite ?append_assoc_s. reflexivity.
  - apply match_target_sound in H
      as (Hu & Hp & Hh & Hhc & Hd & Hdb & Hdbc & post & -> & Hend).
    repeat split; auto; try (rewrite Hu, Hp; reflexivity).
    exists post. split; [|exact Hend].
    unfold credentials. rewrite Hu. reflexivity.
Qed.

Lemma match_here_sound (s : string) (m : UrlMatch) :
  match_here s = Some m ->
  exists scheme rest,
    (scheme = "postgresql" \/ scheme = "postgresq") /\
    s = (scheme ++ "://" ++ rest)%string /\ match_authority rest = Some m.
Proof.
  unfold match_here. intros H.
  destruct (lit "postgresq" s) as [s1|] eqn:H0; [|discriminate]. simpl in H.
  apply lit_sound in H0 as ->. unfold orelse in H.
  match type of H with
  | match ?a with _ => _ end = _ => destruct a as [m0|] eqn:Hl
  end.
  - inversion H; subst m0; clear H.
    destruct (lit "l" s1) as [s2|] eqn:H1; [|discriminate]. simpl in Hl.
    apply lit_sound in H1 as ->.
    destruct (lit "://" s2) as [s3|] eqn:H2; [|discriminate]. simpl in Hl.
    apply lit_sound in H2 as ->.
    exists "postgresql", s3. split; [now left|]. split; [reflexivity|exact Hl].
  - destruct (lit "://" s1) as [s3|] eqn:H2; [|discriminate]. simpl in H.
    apply lit_sound in H2 as ->.
    exists "postgresq", s3. split; [now right|]. split; [reflexivity|exact H].
Qed.

(** X21. The fallback pattern is not anchored and asks for [postgresq]
    with an optional [l].  Whatever it returns was read off the text: the
    input is some prefix, then [postgresql] or [postgresq], [://], the
    credentials when both were captured, host, [:], port, [/], database,
    and a rest that is empty or starts with [?].  The user and the
    password are captured together or not at all, the host is not empty
    and has no colon, the port is a non-empty run of digits, the database
    is not empty and has no question mark. *)
Theorem fallback_pattern_reads_the_text (s : string) (m : UrlMatch) :
  match_connection s = Some m ->
  (m_user m = None <-> m_password m = None) /\
  m_hostname m <> EmptyString /\ all_chars (is_not ":") (m_hostname m) = true /\
  digits1 (m_port m) = true /\
  m_database m <> EmptyString /\ all_chars (is_not "?") (m_database m) = true /\
  exists pre scheme post,
    (scheme = "postgresql" \/ scheme = "postgresq") /\
    s = (pre ++ matched_text scheme m ++ post)%string /\
    (post = EmptyString \/ String.prefix "?" post = true).
Proof.
  induction s as [|a s IH]; intros H; simpl in H; unfold orelse in H.
  - destruct (match_here "") as [m0|] eqn:Hhere; [|discriminate].
    vm_compute in Hhere. discriminate.
  - destruct (match_here (String a s)) as [m0|] eqn:Hhere.
    + inversion H; subst m0; clear H.
      apply match_here_sound in Hhere as (scheme & rest & Hscheme & Hs & Hauth).
      apply match_authority_sound in Hauth
        as (Hup & Hh & Hhc & Hd & Hdb & Hdbc & post & -> & Hend).
      repeat split; auto; try apply Hup.
      exists EmptyString, scheme, post. split; [exact Hscheme|]. split; [|exact Hend].
      rewrite Hs. unfold matched_text. simpl. rewrite ?append_assoc_s. reflexivity.
    + destruct (IH H) as (Hup & Hh & Hhc & Hd & Hdb & Hdbc & pre & scheme & post & Hscheme & Hs & Hend).
      repeat split; auto; try apply Hup.
      exists (String a pre), scheme, post. split; [exact Hscheme|]. split; [|exact Hend].
      change (String a s = String a (pre ++ matched_text scheme m ++ post))%string.
      f_equal. exact Hs.
Qed.

Lemma fallback_pattern_reads_the_text_witness :
  match_connection embedded_url = Some embedded_match /\
  digits1 (m_port embedded_match) = true /\
  exists pre scheme post,
    (scheme = "postgresql" \/ scheme = "postgresq") /\
    embedded_url = (pre ++ matched_text scheme embedded_match ++ post)%string /\
    (post = EmptyString \/ String.prefix "?" post = true).
Proof.
  split; [reflexivity|].
  destruct (fallback_pattern_reads_the_text embedded_url embedded_match eq_refl)
    as (_ & _ & _ & Hd & _ & _ & Hex).
  split; [exact Hd | exact Hex].
Defined.
